(** * Strategies of Axelrod's second tournament

    A shallow embedding of [axelrod/strategies/axelrod_second.py] and the
    properties its specification states about it.

    Conventions of the embedding.
    - A history is the Python list of one player's moves, oldest first;
      [back k h] is the Python expression [h[-k]] and raises [IndexError]
      exactly when Python does.
    - Python floats are idealised as exact rationals ([Q]); every threshold
      of the source is the literal decimal constant.
    - [random.random()] reads the next element of an explicit draw
      sequence; a strategy call threads the position in that sequence, so
      that calls which draw nothing leave it where it was.
    - Every strategy has the shape
      [state -> own history -> opponent history -> M (action * state)].
*)

From Stdlib Require Import Reals.
From Stdlib Require Import ZArith QArith List Bool Lia Arith Psatz.
Import ListNotations.

Set Implicit Arguments.

(** ** Actions and histories *)

Inductive Action : Type := C | D.

Definition flip (a : Action) : Action :=
  match a with C => D | D => C end.

Definition Action_eqb (a b : Action) : bool :=
  match a, b with
  | C, C | D, D => true
  | _, _ => false
  end.

Definition History := list Action.

(** Exceptions a strategy call can end with; [ReturnedNone] stands for a
    Python function that runs off its last statement. *)
Inductive error : Type :=
| IndexError
| ZeroDivisionError
| ReturnedNone.

Inductive result (A : Type) : Type :=
| Ok (a : A)
| Raise (e : error).

Arguments Raise {A} e.

(** [h[-k]] for [k >= 1]. *)
Definition back (k : nat) (h : History) : result Action :=
  match nth_error (rev h) (pred k) with
  | Some a => Ok a
  | None => Raise IndexError
  end.

(** [h[k]] for [k >= 0]. *)
Definition at_index (k : nat) (h : History) : result Action :=
  match nth_error h k with
  | Some a => Ok a
  | None => Raise IndexError
  end.

(** [h[-n:]]: the last [n] moves, fewer when the history is shorter. *)
Definition lastn (n : nat) (h : History) : History :=
  skipn (length h - n) h.

Definition count (a : Action) (h : History) : Z :=
  Z.of_nat (length (filter (Action_eqb a) h)).

(** [Player.cooperations] and [Player.defections]. *)
Definition cooperations (h : History) : Z := count C h.
Definition defections (h : History) : Z := count D h.

Definition len (h : History) : Z := Z.of_nat (length h).

(** ** Rational comparisons *)

Definition Qleb (x y : Q) : bool := Qle_bool x y.
Definition Qltb (x y : Q) : bool := negb (Qle_bool y x).
Definition Qgeb (x y : Q) : bool := Qleb y x.
Definition Qgtb (x y : Q) : bool := Qltb y x.

(** Python's [max(a, b)]: the first argument unless the second is larger. *)
Definition pymax (a b : Q) : Q := if Qgtb b a then b else a.

Definition ZQ (z : Z) : Q := inject_Z z.

(** ** The random source and the monad of a strategy call *)

Record Rng : Type := mkRng { draws : nat -> Q; pos : nat }.

Definition M (A : Type) : Type := Rng -> result (A * Rng).

Definition ret {A} (a : A) : M A := fun g => Ok (a, g).

Definition bind {A B} (m : M A) (k : A -> M B) : M B :=
  fun g =>
    match m g with
    | Ok (a, g') => k a g'
    | Raise e => Raise e
    end.

Definition raise {A} (e : error) : M A := fun _ => Raise e.

Definition lift {A} (r : result A) : M A :=
  fun g => match r with Ok a => Ok (a, g) | Raise e => Raise e end.

(** [random.random()] *)
Definition random : M Q :=
  fun g => Ok (draws g (pos g), mkRng (draws g) (S (pos g))).

Declare Scope strat_scope.
Delimit Scope strat_scope with strat.
Notation "x <- m ;; k" := (bind m (fun x => k))
  (at level 61, m at next level, right associativity) : strat_scope.
Notation "' p <- m ;; k" := (bind m (fun x => let p := x in k))
  (at level 61, p pattern, m at next level, right associativity) : strat_scope.
Open Scope strat_scope.

(** Python's true division of two integers. *)
Definition pydiv (a b : Z) : M Q :=
  if (b =? 0)%Z then raise ZeroDivisionError else ret (ZQ a / ZQ b).

(** Modelled from the spec: [axelrod.random_.random_choice] is not part of
    the file; the spec describes a biased-coin choice of the random source.
    [random_choice p] is Cooperate with probability [p]: it compares one
    uniform draw with [p]. *)
Definition random_choice (p : Q) : M Action :=
  r <- random ;;
  ret (if Qltb r p then C else D).

Definition Strategy (S : Type) : Type :=
  S -> History -> History -> M (Action * S).

(** A match against a fixed sequence of opponent moves: one call of the
    strategy per round, both histories extended after the call. *)
Fixpoint play_from {S} (strat : Strategy S) (opp_moves : list Action)
    (st : S) (own opp : History) (g : Rng) : result (History * S * Rng) :=
  match opp_moves with
  | [] => Ok (own, st, g)
  | o :: rest =>
      match strat st own opp g with
      | Ok ((a, st'), g') => play_from strat rest st' (own ++ [a]) (opp ++ [o]) g'
      | Raise e => Raise e
      end
  end.

Definition play {S} (strat : Strategy S) (init : S) (opp_moves : list Action)
    (g : Rng) : result (History * S * Rng) :=
  play_from strat opp_moves init [] [] g.

(** The action chosen at the round that follows the given opponent moves. *)
Definition next_action {S} (strat : Strategy S) (init : S)
    (opp_moves : list Action) (g : Rng) : result Action :=
  match play strat init opp_moves g with
  | Ok (own, st, g') =>
      match strat st own opp_moves g' with
      | Ok ((a, _), _) => Ok a
      | Raise e => Raise e
      end
  | Raise e => Raise e
  end.

(** ** Champion *)

Module Champion.

Definition strategy : Strategy unit := fun st own opp =>
  let current_round := length own in
  if (current_round =? 0)%nat then ret (C, st)
  else if (current_round <? 10)%nat then ret (C, st)
  else if (current_round <? 25)%nat then
    a <- lift (back 1 opp) ;; ret (a, st)
  else
    defection_prop <- pydiv (defections opp) (len opp) ;;
    last <- lift (back 1 opp) ;;
    if Action_eqb last D then
      r <- random ;;
      if Qgeb defection_prop (pymax (4 # 10) r) then ret (D, st)
      else ret (C, st)
    else ret (C, st).

End Champion.

(** ** Eatherley *)

Module Eatherley.

Definition strategy : Strategy unit := fun st own opp =>
  if (length opp =? 0)%nat then ret (C, st)
  else
    last <- lift (back 1 opp) ;;
    if Action_eqb last C then ret (C, st)
    else
      defection_prop <- pydiv (defections opp) (len opp) ;;
      a <- random_choice (1 - defection_prop) ;;
      ret (a, st).

End Eatherley.

(** ** Tester *)

Module Tester.

Record State : Type := mkState { is_TFT : bool }.

Definition init : State := mkState false.

(** [h[-1:] == [D]] *)
Definition last_slice_is_D (h : History) : bool :=
  match lastn 1 h with
  | [D] => true
  | _ => false
  end.

Definition strategy : Strategy State := fun st own opp =>
  match opp with
  | [] => ret (D, st)
  | _ =>
      if is_TFT st then
        ret (if last_slice_is_D opp then D else C, st)
      else
        last <- lift (back 1 opp) ;;
        if Action_eqb last D then ret (C, mkState true)
        else if ((length own =? 1) || (length own =? 2))%nat then ret (C, st)
        else
          mine <- lift (back 1 own) ;;
          ret (flip mine, st)
  end.

End Tester.

(** ** Gladstein *)

Module Gladstein.

Record State : Type := mkState { patsy : bool }.

Definition init : State := mkState true.

Definition strategy : Strategy State := fun st own opp =>
  match own with
  | [] => ret (D, st)
  | _ =>
      if patsy st then
        last <- lift (back 1 opp) ;;
        if Action_eqb last D then ret (C, mkState false)
        else
          cooperation_ratio <- pydiv (cooperations own) (len own) ;;
          if Qgtb cooperation_ratio (1 # 2) then ret (D, st)
          else ret (C, st)
      else
        last <- lift (back 1 opp) ;;
        ret (last, st)
  end.

End Gladstein.

(** ** MoreGrofman *)

Module MoreGrofman.

(** [h[-8:-1]] *)
Definition slice_m8_m1 (h : History) : History :=
  removelast (lastn 8 h).

Definition strategy : Strategy unit := fun st own opp =>
  if (length own <? 2)%nat then ret (C, st)
  else if ((2 <=? length own) && (length own <=? 6))%nat then
    last <- lift (back 1 opp) ;; ret (last, st)
  else
    let opponent_defections_last_8_rounds := count D (slice_m8_m1 opp) in
    mine <- lift (back 1 own) ;;
    if Action_eqb mine C && (opponent_defections_last_8_rounds <=? 2)%Z
    then ret (C, st)
    else if Action_eqb mine D && (opponent_defections_last_8_rounds <=? 1)%Z
    then ret (C, st)
    else ret (D, st).

End MoreGrofman.

(** ** The game's payoffs *)

(** The payoff function of the match, [game.score]: the pair of payoffs
    (own, opponent) of one round.  It belongs to the orchestrator; the
    strategies that read scores take it as a parameter. *)
Definition Payoff : Type := Action -> Action -> Z * Z.

(** Modelled from the spec: [axelrod.interaction_utils.compute_final_score]
    is not part of the file; it is the running cumulative payoff pair of
    the rounds played so far, here summed over [zip(own, opp)]. *)
Definition compute_final_score (score : Payoff) (own opp : History) : Z * Z :=
  fold_left
    (fun acc '(a, b) => (fst acc + fst (score a b), snd acc + snd (score a b))%Z)
    (combine own opp) (0, 0)%Z.

(** Division of a float by a number, raising on a zero divisor. *)
Definition qdiv (x y : Q) : M Q :=
  if Qeq_bool y 0 then raise ZeroDivisionError else ret (x / y).

(** ** Tranquilizer *)

Module Tranquilizer.

Record State : Type := mkState {
  num_turns_after_good_defection : Z;
  opponent_consecutive_defections : Z;
  one_turn_after_good_defection_ratio : Q;
  two_turns_after_good_defection_ratio : Q;
  one_turn_after_good_defection_ratio_count : Z;
  two_turns_after_good_defection_ratio_count : Z
}.

Definition init : State := mkState 0 0 5 0 1 1.

(** [self.dict = {C: 0, D: 1}] *)
Definition dict (a : Action) : Z :=
  match a with C => 0 | D => 1 end.

(** The ratio update shared by the two branches of [update_state]. *)
Definition new_ratio (ratio : Q) (ratio_count : Z) (own opp : History) : M Q :=
  o <- lift (back 1 opp) ;;
  s <- lift (back 1 own) ;;
  qdiv (ratio * ZQ ratio_count
        + ZQ (3 - 3 * dict o)
        + ZQ (2 * dict s)
        - ZQ (dict o * dict s))
       (ZQ (ratio_count + 1)).

Definition update_state (st : State) (own opp : History) : M State :=
  o <- lift (back 1 opp) ;;
  let consecutive :=
    if Action_eqb o D then (opponent_consecutive_defections st + 1)%Z else 0%Z in
  if (num_turns_after_good_defection st =? 2)%Z then
    r <- new_ratio (two_turns_after_good_defection_ratio st)
                   (two_turns_after_good_defection_ratio_count st) own opp ;;
    ret (mkState 0 consecutive
           (one_turn_after_good_defection_ratio st) r
           (one_turn_after_good_defection_ratio_count st)
           (two_turns_after_good_defection_ratio_count st + 1))
  else if (num_turns_after_good_defection st =? 1)%Z then
    r <- new_ratio (one_turn_after_good_defection_ratio st)
                   (one_turn_after_good_defection_ratio_count st) own opp ;;
    ret (mkState 2 consecutive
           r (two_turns_after_good_defection_ratio st)
           (one_turn_after_good_defection_ratio_count st + 1)
           (two_turns_after_good_defection_ratio_count st))
  else
    ret (mkState (num_turns_after_good_defection st) consecutive
           (one_turn_after_good_defection_ratio st)
           (two_turns_after_good_defection_ratio st)
           (one_turn_after_good_defection_ratio_count st)
           (two_turns_after_good_defection_ratio_count st)).

Definition set_num_turns (st : State) (n : Z) : State :=
  mkState n (opponent_consecutive_defections st)
    (one_turn_after_good_defection_ratio st)
    (two_turns_after_good_defection_ratio st)
    (one_turn_after_good_defection_ratio_count st)
    (two_turns_after_good_defection_ratio_count st).

(** Average payoff per turn as the source computes it: the score so far
    over the number of the current round. *)
Definition average (score : Payoff) (own opp : History) : Q :=
  ZQ (fst (compute_final_score score own opp)) / ZQ (len own + 1).

(** The probability of the branch of an average of at least 2.25. *)
Definition good_probability (st : State) (own opp : History) : M Q :=
  o <- lift (back 1 opp) ;;
  ret (((95 # 100)
        - (one_turn_after_good_defection_ratio st
           + two_turns_after_good_defection_ratio st - 5) / 15)
       + 1 / ZQ ((len own + 1) ^ 2)
       - ZQ (dict o) / 4).

(** The probability of the branch of an average of at least 1.75. *)
Definition fair_probability (score : Payoff) (st : State) (own opp : History) : Q :=
  let current_score := compute_final_score score own opp in
  ((25 # 100) + ZQ (cooperations opp + 1) / ZQ (len own + 1))
  - ZQ (opponent_consecutive_defections st) * (25 # 100)
  + ZQ (fst current_score - snd current_score) / 100
  + 4 / ZQ (len own + 1).

Definition strategy (score : Payoff) : Strategy State := fun st own opp =>
  match own with
  | [] => ret (C, st)
  | _ =>
      st <- update_state st own opp ;;
      if ((num_turns_after_good_defection st =? 1)
          || (num_turns_after_good_defection st =? 2))%Z
      then ret (C, st)
      else if Qgeb (average score own opp) (225 # 100) then
        probability <- good_probability st own opp ;;
        r <- random ;;
        if Qleb r probability then ret (C, st)
        else ret (D, set_num_turns st 1)
      else if Qgeb (average score own opp) (175 # 100) then
        let probability := fair_probability score st own opp in
        r <- random ;;
        if Qleb r probability then ret (C, st) else ret (D, st)
      else
        o <- lift (back 1 opp) ;;
        ret (o, st)
  end.

End Tranquilizer.

(** ** Kluepfel *)

Module Kluepfel.

Record State : Type := mkState {
  cd_counts : Z;
  dd_counts : Z;
  dc_counts : Z;
  cc_counts : Z
}.

Definition init : State := mkState 0 0 0 0.

(** The first block of [strategy]: update the response matrix. *)
Definition update_counts (st : State) (own opp : History) : M State :=
  if (2 <=? length own)%nat then
    mine <- lift (back 2 own) ;;
    if Action_eqb mine D then
      o <- lift (back 1 opp) ;;
      if Action_eqb o C
      then ret (mkState (cd_counts st + 1) (dd_counts st) (dc_counts st) (cc_counts st))
      else ret (mkState (cd_counts st) (dd_counts st + 1) (dc_counts st) (cc_counts st))
    else
      o <- lift (back 1 opp) ;;
      if Action_eqb o C
      then ret (mkState (cd_counts st) (dd_counts st) (dc_counts st + 1) (cc_counts st))
      else ret (mkState (cd_counts st) (dd_counts st) (dc_counts st) (cc_counts st + 1))
  else ret st.

(** [a >= n/2 - 0.75*sqrt(n)], decided over the integers: for [n >= 0] it
    says [3*sqrt(n) >= 2*(n - 2*a)], which holds when the right side is not
    positive and otherwise after squaring.  The square root of a negative
    number is not a number, and every comparison with it is false. *)
Definition above_lower_bound (a n : Z) : bool :=
  ((0 <=? n) && ((n <=? 2 * a) || (4 * (n - 2 * a) * (n - 2 * a) <=? 9 * n)))%Z.

(** The randomness-classification inequality of the source. *)
Definition looks_random (st : State) : bool :=
  above_lower_bound (cd_counts st) (cd_counts st + dd_counts st)
  && above_lower_bound (cc_counts st) (dc_counts st + cc_counts st).

(** The guard of the randomness check: [len(self.history) > 26]. *)
Definition randomness_check_due (own : History) : bool :=
  (26 <? length own)%nat.

(** The tail of [strategy], "respond to recent history", given the three
    last opponent moves (defaulting to C) . *)
Definition respond (one_move_ago two_moves_ago three_moves_ago : Action)
  : M Action :=
  if Action_eqb one_move_ago two_moves_ago
     && Action_eqb two_moves_ago three_moves_ago
  then ret one_move_ago
  else
    r <- random ;;
    if Action_eqb one_move_ago two_moves_ago then
      if Qltb r (9 # 10) then ret one_move_ago else ret (flip one_move_ago)
    else if Action_eqb one_move_ago C then
      if Qltb r (7 # 10) then ret one_move_ago else ret (flip one_move_ago)
    else if Action_eqb one_move_ago D then
      if Qltb r (6 # 10) then ret one_move_ago else ret (flip one_move_ago)
    else raise ReturnedNone.

(** [h[-k]] when the history has at least [k] moves, C otherwise. *)
Definition back_or_C (k : nat) (h : History) : M Action :=
  if (k <=? length h)%nat then lift (back k h) else ret C.

Definition strategy : Strategy State := fun st own opp =>
  st <- update_counts st own opp ;;
  if randomness_check_due own && looks_random st then ret (D, st)
  else
    one_move_ago <- back_or_C 1 opp ;;
    two_moves_ago <- back_or_C 2 opp ;;
    three_moves_ago <- back_or_C 3 opp ;;
    a <- respond one_move_ago two_moves_ago three_moves_ago ;;
    ret (a, st).

End Kluepfel.

(** ** Borufsen *)

Module Borufsen.

Inductive Mode : Type := Normal | Defect.

Definition Mode_eqb (a b : Mode) : bool :=
  match a, b with
  | Normal, Normal | Defect, Defect => true
  | _, _ => false
  end.

Record State : Type := mkState {
  cd_counts : Z;
  cc_counts : Z;
  mutual_defect_streak : Z;
  echo_streak : Z;
  flip_next_defect : bool;
  mode : Mode
}.

Definition init : State := mkState 0 0 0 0 false Normal.

Definition try_return (st : State) (to_return : Action) : Action * State :=
  if Action_eqb to_return C then (C, st)
  else if flip_next_defect st then
    (C, mkState (cd_counts st) (cc_counts st) (mutual_defect_streak st)
          (echo_streak st) false (mode st))
  else (D, st).

(** "Update the response history." *)
Definition update_counts (turn : Z) (st : State) (own opp : History) : M State :=
  if (3 <=? turn)%Z then
    o <- lift (back 1 opp) ;;
    if Action_eqb o C then
      mine <- lift (back 2 own) ;;
      if Action_eqb mine C
      then ret (mkState (cd_counts st) (cc_counts st + 1) (mutual_defect_streak st)
                  (echo_streak st) (flip_next_defect st) (mode st))
      else ret (mkState (cd_counts st + 1) (cc_counts st) (mutual_defect_streak st)
                  (echo_streak st) (flip_next_defect st) (mode st))
    else ret st
  else ret st.

(** The number of opponent cooperations recorded since the last evaluation. *)
Definition coops (st : State) : Z := (cd_counts st + cc_counts st)%Z.

(** The mode chosen by an evaluation. *)
Definition evaluated_mode (st : State) : Mode :=
  let m := if (coops st <? 3)%Z then Defect else Normal in
  if ((8 <=? coops st) && (coops st <=? 17))%Z
     && Qltb (ZQ (cc_counts st) / ZQ (coops st)) (7 # 10)
  then Defect else m.

(** "Check if it's time for a mode change": the state after the block and
    whether the call returns D from inside it. *)
Definition mode_change (turn : Z) (st : State) : State * bool :=
  if ((2 <? turn) && (turn mod 25 =? 2))%Z then
    let coming_from_defect := Mode_eqb (mode st) Defect in
    let m := evaluated_mode st in
    let st' :=
      match m with
      | Defect => mkState 0 0 0 0 false Defect
      | Normal => mkState 0 0 (mutual_defect_streak st) (echo_streak st)
                    (flip_next_defect st) Normal
      end in
    (st', Mode_eqb m Normal && coming_from_defect)
  else (st, false).

Definition set_streaks (st : State) (mutual echo : Z) (flip_next : bool) : State :=
  mkState (cd_counts st) (cc_counts st) mutual echo flip_next (mode st).

(** The rules of Normal mode. *)
Definition normal_mode (turn : Z) (st : State) (own opp : History)
  : M (Action * State) :=
  mine <- lift (back 1 own) ;;
  o <- lift (back 1 opp) ;;
  let mutual :=
    if Action_eqb mine D && Action_eqb o D
    then (mutual_defect_streak st + 1)%Z else 0%Z in
  if (3 <=? mutual)%Z then
    ret (try_return (set_streaks st 0 0 (flip_next_defect st)) C)
  else
    two_back <-
      (if (3 <=? turn)%Z then
         a <- lift (back 2 own) ;; b <- lift (back 2 opp) ;; ret (a, b)
       else ret (C, C)) ;;
    let my_two_back := fst two_back in
    let opp_two_back := snd two_back in
    let echo :=
      if negb (Action_eqb mine o)
         && Action_eqb mine opp_two_back && Action_eqb o my_two_back
      then (echo_streak st + 1)%Z else 0%Z in
    let st' :=
      if (3 <=? echo)%Z then set_streaks st 0 0 true
      else set_streaks st mutual echo (flip_next_defect st) in
    ret (try_return st' o).

Definition strategy : Strategy State := fun st own opp =>
  let turn := (len own + 1)%Z in
  if (turn =? 1)%Z then ret (C, st)
  else
    st <- update_counts turn st own opp ;;
    let '(st, return_D) := mode_change turn st in
    if return_D then ret (D, st)
    else
      match mode st with
      | Defect => ret (D, st)
      | Normal => normal_mode turn st own opp
      end.

End Borufsen.

(** ** Cave *)

Module Cave.

Definition strategy : Strategy unit := fun st own opp =>
  let turn := (len own + 1)%Z in
  if (turn =? 1)%Z then ret (C, st)
  else
    let number_defects := defections opp in
    perc_defects <- pydiv number_defects turn ;;
    if (39 <? turn)%Z && Qgtb perc_defects (39 # 100) then ret (D, st)
    else if (29 <? turn)%Z && Qgtb perc_defects (65 # 100) then ret (D, st)
    else if (19 <? turn)%Z && Qgtb perc_defects (79 # 100) then ret (D, st)
    else
      last <- lift (back 1 opp) ;;
      if Action_eqb last D then
        if (17 <? number_defects)%Z then ret (D, st)
        else a <- random_choice (1 # 2) ;; ret (a, st)
      else ret (C, st).

End Cave.

(** ** WmAdams *)

Module WmAdams.

Definition strategy : Strategy unit := fun st own opp =>
  if (length own <=? 1)%nat then ret (C, st)
  else
    first <- lift (at_index 0 opp) ;;
    let number_defects :=
      if Action_eqb first D then (defections opp - 1)%Z else defections opp in
    if ((number_defects =? 4) || (number_defects =? 7) || (number_defects =? 9))%Z
    then ret (D, st)
    else if (9 <? number_defects)%Z then
      last <- lift (back 1 opp) ;;
      if Action_eqb last D then
        a <- random_choice (Qpower (1 # 2) (number_defects - 9)) ;; ret (a, st)
      else ret (C, st)
    else ret (C, st).

End WmAdams.

(** ** GraaskampKatzen *)

Module GraaskampKatzen.

Inductive Mode : Type := Normal | Defect.

Record State : Type := mkState { own_score : Z; mode : Mode }.

Definition init : State := mkState 0 Normal.

Section WithGame.

Variable score : Payoff.

Definition update_score (st : State) (own opp : History) : M State :=
  mine <- lift (back 1 own) ;;
  o <- lift (back 1 opp) ;;
  ret (mkState (own_score st + fst (score mine o)) (mode st)).

(** The six score checkpoints. *)
Definition fails_checkpoint (turn own_score : Z) : bool :=
  ((turn =? 11) && (own_score <? 23)
   || (turn =? 21) && (own_score <? 53)
   || (turn =? 31) && (own_score <? 83)
   || (turn =? 41) && (own_score <? 113)
   || (turn =? 51) && (own_score <? 143)
   || (turn =? 101) && (own_score <? 293))%Z.

Definition strategy : Strategy State := fun st own opp =>
  match mode st with
  | Defect => ret (D, st)
  | Normal =>
      let turn := (len own + 1)%Z in
      if (turn =? 1)%Z then ret (C, st)
      else
        st <- update_score st own opp ;;
        if fails_checkpoint turn (own_score st)
        then ret (D, mkState (own_score st) Defect)
        else
          o <- lift (back 1 opp) ;;
          ret (o, st)
  end.

End WithGame.

End GraaskampKatzen.

(** ** Lists updated by index *)

(** [l[i] = x]; Python raises [IndexError] past the end. *)
Definition set_index {A} (i : nat) (x : A) (l : list A) : result (list A) :=
  if (i <? length l)%nat then Ok (firstn i l ++ x :: skipn (S i) l)
  else Raise IndexError.

(** [l[i]] *)
Definition get_index {A} (i : nat) (l : list A) : result A :=
  match nth_error l i with
  | Some x => Ok x
  | None => Raise IndexError
  end.

Definition zsum (l : list Z) : Z := fold_right Z.add 0%Z l.

(** ** Weiner *)

Module Weiner.

Record State : Type := mkState {
  forgive_flag : bool;
  grudge : Z;
  defect_padding : Z;
  last_twelve : list Z;
  lt_index : nat
}.

Definition init : State := mkState false 0 0 (repeat 0%Z 12) 0.

(** The defective override. *)
Definition try_return (st : State) (to_return : Action) : Action :=
  if (5 <=? zsum (last_twelve st))%Z then D else to_return.

(** "Update history, lag 1." *)
Definition update_history (st : State) (opp : History) : M State :=
  if (2 <=? length opp)%nat then
    o2 <- lift (back 2 opp) ;;
    buf <- lift (set_index (lt_index st)
                   (if Action_eqb o2 D then 1%Z else 0%Z) (last_twelve st)) ;;
    ret (mkState (forgive_flag st) (grudge st) (defect_padding st) buf
           ((lt_index st + 1) mod 12))
  else ret st.

(** The move chosen before the override, with the state it leaves: the
    forgiveness logic and Tit-for-Tat. *)
Definition choose (st : State) (own opp : History) : M (Action * State) :=
  o <- lift (back 1 opp) ;;
  if forgive_flag st then
    if (grudge st <? len own + 1)%Z && Action_eqb o D then
      ret (C, mkState false (grudge st + 20) 0 (last_twelve st) (lt_index st))
    else
      ret (o, mkState false (grudge st) 0 (last_twelve st) (lt_index st))
  else if Action_eqb o D then
    ret (o, mkState false (grudge st) (defect_padding st + 1)
              (last_twelve st) (lt_index st))
  else
    ret (o, mkState ((defect_padding st mod 2 =? 1)%Z) (grudge st) 0
              (last_twelve st) (lt_index st)).

Definition strategy : Strategy State := fun st own opp =>
  if (length opp =? 0)%nat then ret (C, st)
  else
    st <- update_history st opp ;;
    '(to_return, st) <- choose st own opp ;;
    ret (try_return st to_return, st).

End Weiner.

(** ** Harrington *)

Module Harrington.

Inductive Mode : Type := Normal | FairWeather | Defect.

Definition Mode_eqb (a b : Mode) : bool :=
  match a, b with
  | Normal, Normal | FairWeather, FairWeather | Defect, Defect => true
  | _, _ => false
  end.

(** The fields of the player; [coops_in_first_36] is set to [None] by the
    constructor and never read, and is left out. *)
Record State : Type := mkState {
  mode : Mode;
  recorded_defects : Z;
  exit_defect_meter : Z;
  was_defective : bool;
  prob : Q;
  move_history : list (list Z);
  history_row : nat;
  more_coop : Z;
  generous_n_turns_ago : Z;
  burned : bool;
  defect_streak : Z;
  parity_streak : list Z;
  parity_bit : nat;
  parity_limit : Z;
  parity_hits : Z
}.

Definition set_mode (v : Mode) (st : State) : State :=
  mkState v (recorded_defects st) (exit_defect_meter st) (was_defective st)
    (prob st) (move_history st) (history_row st) (more_coop st)
    (generous_n_turns_ago st) (burned st) (defect_streak st)
    (parity_streak st) (parity_bit st) (parity_limit st) (parity_hits st).

Definition set_recorded_defects (v : Z) (st : State) : State :=
  mkState (mode st) v (exit_defect_meter st) (was_defective st) (prob st)
    (move_history st) (history_row st) (more_coop st)
    (generous_n_turns_ago st) (burned st) (defect_streak st)
    (parity_streak st) (parity_bit st) (parity_limit st) (parity_hits st).

Definition set_exit_defect_meter (v : Z) (st : State) : State :=
  mkState (mode st) (recorded_defects st) v (was_defective st) (prob st)
    (move_history st) (history_row st) (more_coop st)
    (generous_n_turns_ago st) (burned st) (defect_streak st)
    (parity_streak st) (parity_bit st) (parity_limit st) (parity_hits st).

Definition set_was_defective (v : bool) (st : State) : State :=
  mkState (mode st) (recorded_defects st) (exit_defect_meter st) v (prob st)
    (move_history st) (history_row st) (more_coop st)
    (generous_n_turns_ago st) (burned st) (defect_streak st)
    (parity_streak st) (parity_bit st) (parity_limit st) (parity_hits st).

Definition set_prob (v : Q) (st : State) : State :=
  mkState (mode st) (recorded_defects st) (exit_defect_meter st)
    (was_defective st) v (move_history st) (history_row st) (more_coop st)
    (generous_n_turns_ago st) (burned st) (defect_streak st)
    (parity_streak st) (parity_bit st) (parity_limit st) (parity_hits st).

Definition set_move_history (v : list (list Z)) (st : State) : State :=
  mkState (mode st) (recorded_defects st) (exit_defect_meter st)
    (was_defective st) (prob st) v (history_row st) (more_coop st)
    (generous_n_turns_ago st) (burned st) (defect_streak st)
    (parity_streak st) (parity_bit st) (parity_limit st) (parity_hits st).

Definition set_history_row (v : nat) (st : State) : State :=
  mkState (mode st) (recorded_defects st) (exit_defect_meter st)
    (was_defective st) (prob st) (move_history st) v (more_coop st)
    (generous_n_turns_ago st) (burned st) (defect_streak st)
    (parity_streak st) (parity_bit st) (parity_limit st) (parity_hits st).

Definition set_more_coop (v : Z) (st : State) : State :=
  mkState (mode st) (recorded_defects st) (exit_defect_meter st)
    (was_defective st) (prob st) (move_history st) (history_row st) v
    (generous_n_turns_ago st) (burned st) (defect_streak st)
    (parity_streak st) (parity_bit st) (parity_limit st) (parity_hits st).

Definition set_generous_n_turns_ago (v : Z) (st : State) : State :=
  mkState (mode st) (recorded_defects st) (exit_defect_meter st)
    (was_defective st) (prob st) (move_history st) (history_row st)
    (more_coop st) v (burned st) (defect_streak st) (parity_streak st)
    (parity_bit st) (parity_limit st) (parity_hits st).

Definition set_burned (v : bool) (st : State) : State :=
  mkState (mode st) (recorded_defects st) (exit_defect_meter st)
    (was_defective st) (prob st) (move_history st) (history_row st)
    (more_coop st) (generous_n_turns_ago st) v (defect_streak st)
    (parity_streak st) (parity_bit st) (parity_limit st) (parity_hits st).

Definition set_defect_streak (v : Z) (st : State) : State :=
  mkState (mode st) (recorded_defects st) (exit_defect_meter st)
    (was_defective st) (prob st) (move_history st) (history_row st)
    (more_coop st) (generous_n_turns_ago st) (burned st) v
    (parity_streak st) (parity_bit st) (parity_limit st) (parity_hits st).

Definition set_parity_streak (v : list Z) (st : State) : State :=
  mkState (mode st) (recorded_defects st) (exit_defect_meter st)
    (was_defective st) (prob st) (move_history st) (history_row st)
    (more_coop st) (generous_n_turns_ago st) (burned st) (defect_streak st)
    v (parity_bit st) (parity_limit st) (parity_hits st).

Definition set_parity_bit (v : nat) (st : State) : State :=
  mkState (mode st) (recorded_defects st) (exit_defect_meter st)
    (was_defective st) (prob st) (move_history st) (history_row st)
    (more_coop st) (generous_n_turns_ago st) (burned st) (defect_streak st)
    (parity_streak st) v (parity_limit st) (parity_hits st).

Definition set_parity_limit (v : Z) (st : State) : State :=
  mkState (mode st) (recorded_defects st) (exit_defect_meter st)
    (was_defective st) (prob st) (move_history st) (history_row st)
    (more_coop st) (generous_n_turns_ago st) (burned st) (defect_streak st)
    (parity_streak st) (parity_bit st) v (parity_hits st).

Definition set_parity_hits (v : Z) (st : State) : State :=
  mkState (mode st) (recorded_defects st) (exit_defect_meter st)
    (was_defective st) (prob st) (move_history st) (history_row st)
    (more_coop st) (generous_n_turns_ago st) (burned st) (defect_streak st)
    (parity_streak st) (parity_bit st) (parity_limit st) v.

Definition init : State :=
  mkState Normal 0 0 false (25 # 100) (repeat [0; 0]%Z 4) 0 0 3 false 0
    [0; 0]%Z 0 5 0.

(** [self.parity_streak[self.parity_bit] = f(self.parity_streak[self.parity_bit])] *)
Definition update_parity (f : Z -> Z) (st : State) : M State :=
  x <- lift (get_index (parity_bit st) (parity_streak st)) ;;
  l <- lift (set_index (parity_bit st) (f x) (parity_streak st)) ;;
  ret (set_parity_streak l st).

Definition try_return (st : State) (to_return : Action)
    (lower_flags inc_parity : bool) : M (Action * State) :=
  let st :=
    if lower_flags && Action_eqb to_return C
    then set_generous_n_turns_ago (generous_n_turns_ago st + 1)
           (set_more_coop (more_coop st - 1) st)
    else st in
  st <- (if inc_parity && Action_eqb to_return D
         then update_parity (fun x => x + 1)%Z st else ret st) ;;
  ret (to_return, st).

(** ** The modified chi-squared test *)

(** [move_history[i, j]] *)
Definition cell (m : list (list Z)) (i j : nat) : Z :=
  nth j (nth i m []) 0%Z.

(** [move_history.sum(axis=1)[i]] and [move_history.sum(axis=0)[j]] *)
Definition row_sum (m : list (list Z)) (i : nat) : Z :=
  (cell m i 0 + cell m i 1)%Z.
Definition col_sum (m : list (list Z)) (j : nat) : Z :=
  (cell m 0 j + cell m 1 j + cell m 2 j + cell m 3 j)%Z.

(** [expected_matrix[i, j] / denom] *)
Definition expected (m : list (list Z)) (denom : Z) (i j : nat) : Q :=
  ZQ (row_sum m i * col_sum m j) / ZQ denom.

(** The cells in the order of the two nested loops. *)
Definition cells : list (nat * nat) :=
  flat_map (fun i => map (fun j => (i, j)) (seq 0 2)) (seq 0 4).

Definition term (m : list (list Z)) (denom : Z) (i j : nat) : Q :=
  let expct := expected m denom i j in
  (expct - ZQ (cell m i j)) ^ 2 / expct.

Definition chi_squared (m : list (list Z)) (denom : Z) : Q :=
  fold_left
    (fun chi '(i, j) =>
       if Qgtb (expected m denom i j) 1 then chi + term m denom i j else chi)
    cells 0.

(** The three checks of [detect_random], for a non-zero [denom]. *)
Definition random_checks (st : State) (denom : Z) : bool :=
  if Qgeb (ZQ (cell (move_history st) 0 0) / ZQ denom) (8 # 10) then false
  else if Qltb (ZQ (recorded_defects st) / ZQ denom) (25 # 100)
          || Qgtb (ZQ (recorded_defects st) / ZQ denom) (75 # 100) then false
  else if Qgtb (chi_squared (move_history st) denom) 3 then false
  else true.

(** With [turn = 2] the first quotient is a division of a float by zero,
    which numpy evaluates to infinity or to not-a-number, and the second
    one is a division of integers, which raises. *)
Definition detect_random (st : State) (turn : Z) : M bool :=
  let denom := (turn - 2)%Z in
  if (denom =? 0)%Z then
    if (0 <? cell (move_history st) 0 0)%Z then ret false
    else raise ZeroDivisionError
  else ret (random_checks st denom).

Definition detect_streak (st : State) (last_move : Action) : bool * State :=
  let st :=
    if Action_eqb last_move D then set_defect_streak (defect_streak st + 1) st
    else set_defect_streak 0 st in
  ((20 <=? defect_streak st)%Z, st).

Definition detect_parity_streak (st : State) (last_move : Action)
  : M (bool * State) :=
  let st := set_parity_bit (1 - parity_bit st)%nat st in
  st <- update_parity (fun x => if Action_eqb last_move D then x + 1 else 0)%Z st ;;
  x <- lift (get_index (parity_bit st) (parity_streak st)) ;;
  ret ((parity_limit st <=? x)%Z, st).

(** "History only gets updated outside of Defect mode." *)
Definition update_history (turn : Z) (st : State) (o : Action) : M State :=
  if (2 <? turn)%Z then
    let st :=
      if Action_eqb o D then set_recorded_defects (recorded_defects st + 1) st
      else st in
    let opp_col := (if Action_eqb o D then 1 else 0)%nat in
    row <- lift (get_index (history_row st) (move_history st)) ;;
    x <- lift (get_index opp_col row) ;;
    row <- lift (set_index opp_col (x + 1)%Z row) ;;
    m <- lift (set_index (history_row st) row (move_history st)) ;;
    ret (set_move_history m st)
  else ret st.

(** The rules of Normal mode, from the streak checks on. *)
Definition normal_mode (turn : Z) (st : State) (o : Action)
  : M (Action * State) :=
  let '(streak, st) := detect_streak st o in
  if streak then try_return st D true true
  else
    '(parity, st) <- detect_parity_streak st o ;;
    if parity then
      st <- update_parity (fun _ => 0%Z) st ;;
      let st := set_parity_hits (parity_hits st + 1) st in
      let st := if (8 <=? parity_hits st)%Z then set_parity_limit 3 st else st in
      try_return st C true true
    else if (1 <=? more_coop st)%Z then try_return st C true true
    else if (turn <? 37)%Z then try_return st o true true
    else if (turn =? 37)%Z then
      try_return (set_generous_n_turns_ago 1 (set_more_coop 2 st)) D false false
    else if burned st then try_return st o true true
    else
      r <- random ;;
      if Qgtb r (prob st) then try_return st o true true
      else
        let st := set_prob (prob st + (5 # 100)) st in
        try_return (set_generous_n_turns_ago 1 (set_more_coop 2 st)) D false false.

Definition defect_mode (st : State) (o : Action) : M (Action * State) :=
  let st :=
    if Action_eqb o D then set_exit_defect_meter (exit_defect_meter st + 1) st
    else set_exit_defect_meter (exit_defect_meter st - 3) st in
  if (11 <=? exit_defect_meter st)%Z then
    try_return (set_more_coop 2 (set_was_defective true (set_mode Normal st)))
      C false false
  else try_return st D true false.

Definition strategy : Strategy State := fun st own opp =>
  let turn := (len own + 1)%Z in
  if (turn =? 1)%Z then ret (C, st)
  else
    o <- lift (back 1 opp) ;;
    match mode st with
    | Defect => defect_mode st o
    | _ =>
        st <- update_history turn st o ;;
        is_random <-
          (if ((turn mod 15 =? 0) && (15 <? turn))%Z && negb (was_defective st)
           then detect_random st turn else ret false) ;;
        if is_random then try_return (set_mode Defect st) D false false
        else
          mine <- lift (back 1 own) ;;
          let row := ((if Action_eqb o D then 1 else 0)
                      + (if Action_eqb mine D then 2 else 0))%nat in
          let st := set_history_row row st in
          let st :=
            if (generous_n_turns_ago st =? 2)%Z && Action_eqb o D
            then set_burned true st else st in
          if (turn =? 38)%Z && Action_eqb o D && (cooperations opp =? 36)%Z then
            try_return (set_mode FairWeather st) C false false
          else
            match mode st with
            | FairWeather =>
                if Action_eqb o D then normal_mode turn (set_mode Normal st) o
                else try_return st C true false
            | _ => normal_mode turn st o
            end
    end.

End Harrington.

(** ** The strategies as a closed family *)

Inductive Name : Type :=
| NChampion | NEatherley | NTester | NGladstein | NTranquilizer
| NMoreGrofman | NKluepfel | NBorufsen | NCave | NWmAdams
| NGraaskampKatzen | NWeiner | NHarrington.

(** The action of a freshly constructed player on the first round, when
    both histories are empty. *)
Definition first_action (n : Name) (score : Payoff) (g : Rng) : result Action :=
  match n with
  | NChampion => next_action Champion.strategy tt [] g
  | NEatherley => next_action Eatherley.strategy tt [] g
  | NTester => next_action Tester.strategy Tester.init [] g
  | NGladstein => next_action Gladstein.strategy Gladstein.init [] g
  | NTranquilizer =>
      next_action (Tranquilizer.strategy score) Tranquilizer.init [] g
  | NMoreGrofman => next_action MoreGrofman.strategy tt [] g
  | NKluepfel => next_action Kluepfel.strategy Kluepfel.init [] g
  | NBorufsen => next_action Borufsen.strategy Borufsen.init [] g
  | NCave => next_action Cave.strategy tt [] g
  | NWmAdams => next_action WmAdams.strategy tt [] g
  | NGraaskampKatzen =>
      next_action (GraaskampKatzen.strategy score) GraaskampKatzen.init [] g
  | NWeiner => next_action Weiner.strategy Weiner.init [] g
  | NHarrington => next_action Harrington.strategy Harrington.init [] g
  end.

(** The documented opening of each strategy. *)
Definition opening (n : Name) : Action :=
  match n with
  | NTester | NGladstein => D
  | _ => C
  end.

(** The usual payoffs of the Prisoner's Dilemma, used for concrete runs. *)
Definition prisoners_dilemma : Payoff := fun a b =>
  match a, b with
  | C, C => (3, 3)
  | C, D => (0, 5)
  | D, C => (5, 0)
  | D, D => (1, 1)
  end%Z.

(** A random source whose draws are all zero. *)
Definition zero_rng : Rng := mkRng (fun _ => 0) 0.

(** ** Quantities the properties speak of *)

(** The opponent's defection and cooperation rates over the rounds played. *)
Definition defection_rate (opp : History) : Q :=
  ZQ (defections opp) / ZQ (len opp).
Definition cooperation_rate (opp : History) : Q :=
  ZQ (cooperations opp) / ZQ (len opp).

(** Tester's move of round [t] against an opponent that always cooperates:
    D, C, C, and from round 4 on D on even rounds and C on odd ones. *)
Definition Tester_vs_cooperator (t : nat) : Action :=
  match t with
  | 1 => D
  | 2 => C
  | _ => if Nat.odd t then C else D
  end%nat.

(** The action of a player on round [t >= 1] of a match against an
    opponent that plays [a] on every round. *)
Definition action_at_round {S} (strat : Strategy S) (init : S) (a : Action)
    (t : nat) (g : Rng) : result Action :=
  next_action strat init (repeat a (t - 1)) g.

Definition is_Ok_D (r : result Action) : bool :=
  match r with
  | Ok D => true
  | _ => false
  end.

(** Tranquilizer's cool-down after a defection of the branch of an average
    payoff of at least 2.25, the only one that sets
    [num_turns_after_good_defection] to 1: in a match started by a fresh
    player, whenever a call returns Defect and leaves the counter at 1, the
    player's moves on the next [k] rounds are all Cooperate, whatever the
    opponent plays and whatever the draws are. *)
Definition forced_cooperation_window (score : Payoff) (k : nat) : Prop :=
  forall (opp_moves : list Action) (g : Rng)
         (own : History) (st : Tranquilizer.State) (g0 : Rng)
         (st1 : Tranquilizer.State) (g1 : Rng)
         (o : Action) (rest : list Action),
    play (Tranquilizer.strategy score) Tranquilizer.init opp_moves g
    = Ok (own, st, g0) ->
    Tranquilizer.strategy score st own opp_moves g0 = Ok ((D, st1), g1) ->
    Tranquilizer.num_turns_after_good_defection st1 = 1%Z ->
    length rest = k ->
    exists st2 g2,
      play_from (Tranquilizer.strategy score) rest st1
        (own ++ [D]) (opp_moves ++ [o]) g1
      = Ok ((own ++ [D]) ++ repeat C k, st2, g2).

(** A random source whose third draw is 0.995 and whose fourth is 0.9. *)
Definition late_defection_rng : Rng :=
  mkRng (fun n =>
           match n with
           | 2%nat => 995 # 1000
           | 3%nat => 9 # 10
           | _ => 0
           end) 0.

(** The entry of Weiner's buffer for an opponent move. *)
Definition defect_code (a : Action) : Z :=
  if Action_eqb a D then 1%Z else 0%Z.

(** The last twelve entries of a list of at least twelve. *)
Definition window (l : list Z) : list Z := skipn (length l - 12) l.

(** The buffer in the order of the rounds, given the opponent moves
    written so far: twelve zeros pushed out by the codes of the moves. *)
Definition window_of (ms : list Action) : list Z :=
  window (repeat 0%Z 12 ++ map defect_code ms).

(** Weiner's ring buffer holds the window of the moves written so far,
    read from the next position to write. *)
Definition Weiner_buffer_ok (st : Weiner.State) (ms : list Action) : Prop :=
  length (Weiner.last_twelve st) = 12%nat
  /\ (Weiner.lt_index st < 12)%nat
  /\ skipn (Weiner.lt_index st) (Weiner.last_twelve st)
     ++ firstn (Weiner.lt_index st) (Weiner.last_twelve st)
     = window_of ms.

(** The opponent defections that the override of a round counts, given
    the opponent's history at that round: those of the twelve moves
    before the most recent one. *)
Definition lagged_defections (opp : History) : Z :=
  count D (lastn 12 (removelast opp)).

(** Kluepfel's randomness-classification inequality as its documentation
    writes it, over the real numbers:
    [cd_counts >= (cd_counts+dd_counts)/2 - 0.75*sqrt(cd_counts+dd_counts)]
    and
    [cc_counts >= (dc_counts+cc_counts)/2 - 0.75*sqrt(dc_counts+cc_counts)]. *)
Definition Kluepfel_inequality (st : Kluepfel.State) : Prop :=
  (IZR (Kluepfel.cd_counts st)
   >= IZR (Kluepfel.cd_counts st + Kluepfel.dd_counts st) / 2
      - 0.75 * sqrt (IZR (Kluepfel.cd_counts st + Kluepfel.dd_counts st)))%R
  /\ (IZR (Kluepfel.cc_counts st)
      >= IZR (Kluepfel.dc_counts st + Kluepfel.cc_counts st) / 2
         - 0.75 * sqrt (IZR (Kluepfel.dc_counts st + Kluepfel.cc_counts st)))%R.

Definition Kluepfel_counts_nonneg (st : Kluepfel.State) : Prop :=
  (0 <= Kluepfel.cd_counts st)%Z /\ (0 <= Kluepfel.dd_counts st)%Z
  /\ (0 <= Kluepfel.dc_counts st)%Z /\ (0 <= Kluepfel.cc_counts st)%Z.

(** In a match against an opponent that defects on every round, the call
    that decides round [t], made with histories of [t - 1] moves, reaches
    the randomness check, for every draw sequence. *)
Definition Kluepfel_checks_at_round (t : nat) : Prop :=
  forall (g : Rng) (own : History) (st : Kluepfel.State) (g' : Rng),
    play Kluepfel.strategy Kluepfel.init (repeat D (t - 1)) g
    = Ok (own, st, g') ->
    Kluepfel.randomness_check_due own = true.

(** Round [t] is the first round of such a match at which the check is
    made. *)
Definition Kluepfel_first_check_round (t : nat) : Prop :=
  Kluepfel_checks_at_round t
  /\ forall t', (t' < t)%nat -> ~ Kluepfel_checks_at_round t'.

(** The statistic of Harrington's test as the documentation of
    [detect_random] words it: the terms whose expected count is less than 1
    are excluded, all others are summed. *)
Definition documented_chi_squared (m : list (list Z)) (denom : Z) : Q :=
  fold_left
    (fun chi '(i, j) =>
       if Qltb (Harrington.expected m denom i j) 1 then chi
       else chi + Harrington.term m denom i j)
    Harrington.cells 0.

(** The three checks with the documented statistic: the opponent is
    random if and only if the first cell over [denom] is below 0.8, the
    recorded defection rate lies in [0.25, 0.75] and the statistic is at
    most 3. *)
Definition documented_random_checks (st : Harrington.State) (denom : Z) : bool :=
  Qltb (ZQ (Harrington.cell (Harrington.move_history st) 0 0) / ZQ denom) (8 # 10)
  && Qleb (25 # 100) (ZQ (Harrington.recorded_defects st) / ZQ denom)
  && Qleb (ZQ (Harrington.recorded_defects st) / ZQ denom) (75 # 100)
  && Qleb (documented_chi_squared (Harrington.move_history st) denom) 3.

(** Twenty-nine opponent moves after which Harrington's test of round 30
    meets an expected count of exactly 1. *)
Definition boundary_opponent : list Action :=
  [C; C; D; D; C; D; C; C; C; C; C; C; C; C; C; C; C; C; D; C; D; D; D;
   C; C; C; C; C; C].

(** Twenty-six opponent moves and a draw sequence after which the counts
    of Kluepfel satisfy the randomness inequality at round 27. *)
Definition random_looking_opponent : list Action :=
  [C; C; D; D; C; C; D; D; C; C; D; D; D; C; C; C; D; C; C; C; C; D; C;
   C; C; C].

Definition random_looking_rng : Rng :=
  mkRng (fun n =>
           nth n [8 # 10; 95 # 100; 95 # 100; 95 # 100; 95 # 100; 95 # 100;
                  5 # 10; 8 # 10; 0; 0; 5 # 10; 95 # 100; 5 # 10; 8 # 10;
                  95 # 100; 8 # 10; 95 # 100; 95 # 100] 0) 0.

(** The two ratio counts of Tranquilizer stay positive. *)
Definition Tranquilizer_counts_positive (st : Tranquilizer.State) : Prop :=
  (1 <= Tranquilizer.one_turn_after_good_defection_ratio_count st)%Z
  /\ (1 <= Tranquilizer.two_turns_after_good_defection_ratio_count st)%Z.

(** ** Proof steps *)

(** Case analysis on the scrutinee of a match of a hypothesis or of the
    goal. *)
Ltac break_match :=
  match goal with
  | H : context [match ?x with _ => _ end] |- _ =>
      let E := fresh "E" in destruct x eqn:E
  | |- context [match ?x with _ => _ end] =>
      let E := fresh "E" in destruct x eqn:E
  end.

(** The sum of the own payoffs [game.score(round)[0]] over the rounds of
    two histories. *)
Definition own_payoffs (score : Payoff) (own opp : History) : Z :=
  zsum (map (fun '(a, b) => fst (score a b)) (combine own opp)).

(** The rounds on which the player chose [mine] and the opponent answered
    [o] on the round after. *)
Definition responses (mine o : Action) (own opp : History) : Z :=
  Z.of_nat
    (length
       (filter (fun '(a, b) => Action_eqb a mine && Action_eqb b o)
          (combine own (tl opp)))).

(** What the four counters of Kluepfel hold once a call has updated them:
    the answers of the opponent to the own moves of all the rounds
    played. *)
Definition Kluepfel_counts_are_responses (st : Kluepfel.State)
    (own opp : History) : Prop :=
  Kluepfel.cd_counts st = responses D C own opp
  /\ Kluepfel.dd_counts st = responses D D own opp
  /\ Kluepfel.dc_counts st = responses C C own opp
  /\ Kluepfel.cc_counts st = responses C D own opp.

(** The number of defections at the head of a list of moves, and at the
    end of a history. *)
Fixpoint leading_defections (l : list Action) : Z :=
  match l with
  | D :: l' => (1 + leading_defections l')%Z
  | _ => 0%Z
  end.

Definition trailing_defections (h : History) : Z :=
  leading_defections (rev h).

(** The invariant of a match of Tranquilizer: histories of the same
    length, a cool-down counter that is 0, 1 or 2, positive ratio counts,
    and a count of consecutive defections that is the number of defections
    at the end of the opponent's history as the previous call saw it. *)
Definition Tranquilizer_state_ok (st : Tranquilizer.State)
    (own opp : History) : Prop :=
  length own = length opp
  /\ (Tranquilizer.num_turns_after_good_defection st = 0
      \/ Tranquilizer.num_turns_after_good_defection st = 1
      \/ Tranquilizer.num_turns_after_good_defection st = 2)%Z
  /\ Tranquilizer_counts_positive st
  /\ Tranquilizer.opponent_consecutive_defections st
     = trailing_defections (removelast opp).

(** The shape of Harrington's state that keeps every index in range: a
    table of four rows of two cells, a row index below 4, two parity
    streaks and a parity bit that is 0 or 1. *)
Definition Harrington_shape (st : Harrington.State) : Prop :=
  length (Harrington.move_history st) = 4%nat
  /\ Forall (fun row => length row = 2%nat) (Harrington.move_history st)
  /\ (Harrington.history_row st < 4)%nat
  /\ length (Harrington.parity_streak st) = 2%nat
  /\ (Harrington.parity_bit st < 2)%nat.

(** The fields that the rules of Normal mode leave alone. *)
Definition Harrington_same_core (st st' : Harrington.State) : Prop :=
  Harrington.mode st' = Harrington.mode st
  /\ Harrington.recorded_defects st' = Harrington.recorded_defects st
  /\ Harrington.exit_defect_meter st' = Harrington.exit_defect_meter st
  /\ Harrington.was_defective st' = Harrington.was_defective st
  /\ Harrington.move_history st' = Harrington.move_history st
  /\ Harrington.history_row st' = Harrington.history_row st
  /\ Harrington.burned st' = Harrington.burned st.

(** One more draw read from a random source. *)
Definition advance (g : Rng) : Rng := mkRng (draws g) (S (pos g)).

(** The invariant of a match of Harrington played from the random source
    [g0]: histories of the same length, a state whose indices are in
    range, a probability of at least 0.25, and a random source that has
    read at most one draw for each round played after round 37. *)
Definition Harrington_match_ok (g0 : Rng) (st : Harrington.State)
    (own opp : History) (g : Rng) : Prop :=
  length own = length opp
  /\ Harrington_shape st
  /\ (25 # 100) <= Harrington.prob st
  /\ draws g = draws g0
  /\ (pos g0 <= pos g)%nat
  /\ (pos g <= pos g0 + (length own - 37))%nat.

(** What [recorded_defects] counts: at most the defections among the
    opponent's moves that [update_history] has been given, which are the
    moves from the second one on, without the move that no call has seen
    yet; and a player in Defect mode has recorded a defection. *)
Definition Harrington_defects_ok (st : Harrington.State)
    (own opp : History) : Prop :=
  length own = length opp
  /\ Harrington_shape st
  /\ (0 <= Harrington.recorded_defects st
      <= defections (tl (removelast opp)))%Z
  /\ (Harrington.mode st = Harrington.Defect ->
      (0 < Harrington.recorded_defects st)%Z).

(** A player that has left Defect mode. *)
Definition Harrington_left_Defect (st : Harrington.State)
    (own opp : History) : Prop :=
  length own = length opp
  /\ Harrington_shape st
  /\ Harrington.was_defective st = true
  /\ Harrington.mode st <> Harrington.Defect.

(** A player that is in Defect mode or has left it. *)
Definition Harrington_met_Defect (st : Harrington.State)
    (own opp : History) : Prop :=
  length own = length opp
  /\ Harrington_shape st
  /\ (Harrington.mode st = Harrington.Defect
      \/ Harrington.was_defective st = true).

(** Twenty-nine moves of an opponent that pass the three checks of
    Harrington's [detect_random] at round 30. *)
Definition Harrington_random_looking : list Action :=
  [C; C; C; D; D; D; C; D; C; D; C; D; C; C; C; C; C; C; D; D; C; C; C; D;
   C; C; C; D; C].

(** The invariant of a match of GraaskampKatzen: the histories have the same length and, as
    long as the mode is Normal, [own_score] is the sum of the payoffs of
    all rounds but the last one played. *)
Definition GraaskampKatzen_score_ok (score : Payoff)
    (st : GraaskampKatzen.State) (own opp : History) : Prop :=
  length own = length opp
  /\ (GraaskampKatzen.mode st = GraaskampKatzen.Normal ->
      GraaskampKatzen.own_score st
      = own_payoffs score (removelast own) (removelast opp)).

(** A checkpoint of GraaskampKatzen that the score passes. *)
Ltac checkpoint_passes :=
  unfold GraaskampKatzen.fails_checkpoint;
  repeat (apply orb_false_iff; split);
  apply andb_false_iff;
  match goal with
  | |- (?t =? ?c)%Z = false \/ _ =>
      destruct (Z.eqb_spec t c); [right; apply Z.ltb_ge; nia|left; reflexivity]
  end.


(** * Properties *)

Unset Implicit Arguments.

(** ** Histories *)

Lemma back_1_snoc (h : History) (a : Action) : back 1 (h ++ [a]) = Ok a.
Proof. unfold back. rewrite rev_unit. reflexivity. Qed.

Lemma back_2_snoc (h : History) (a b : Action) :
  back 2 (h ++ [a; b]) = Ok a.
Proof.
  unfold back.
  replace (h ++ [a; b]) with ((h ++ [a]) ++ [b])
    by (rewrite <- app_assoc; reflexivity).
  rewrite !rev_unit. reflexivity.
Qed.

Lemma back_defined (k : nat) (h : History) :
  (1 <= k <= length h)%nat -> exists a, back k h = Ok a.
Proof.
  intros Hk. unfold back.
  destruct (nth_error (rev h) (pred k)) as [a|] eqn:E.
  - exists a. reflexivity.
  - apply nth_error_None in E. rewrite length_rev in E. lia.
Qed.

Lemma back_1_repeat (a : Action) (n : nat) : back 1 (repeat a (S n)) = Ok a.
Proof.
  replace (repeat a (S n)) with (repeat a n ++ [a]).
  - apply back_1_snoc.
  - symmetry. apply (repeat_cons n a).
Qed.

Lemma count_app (a : Action) (h1 h2 : History) :
  count a (h1 ++ h2) = (count a h1 + count a h2)%Z.
Proof. unfold count. rewrite filter_app, length_app. lia. Qed.

Lemma count_nonneg (a : Action) (h : History) : (0 <= count a h)%Z.
Proof. unfold count. lia. Qed.

Lemma cooperations_defections (h : History) :
  (cooperations h + defections h = len h)%Z.
Proof.
  unfold cooperations, defections, len, count.
  induction h as [|a h IH]; [reflexivity|].
  destruct a; cbn [filter Action_eqb length]; lia.
Qed.

(** ** Matches *)

Lemma play_from_app {S} (strat : Strategy S) (l1 l2 : list Action)
    (st : S) (own opp : History) (g : Rng) :
  play_from strat (l1 ++ l2) st own opp g =
  match play_from strat l1 st own opp g with
  | Ok (own', st', g') => play_from strat l2 st' own' (opp ++ l1) g'
  | Raise e => Raise e
  end.
Proof.
  revert st own opp g.
  induction l1 as [|o l1 IH]; intros st own opp g; cbn [play_from app].
  - rewrite app_nil_r. reflexivity.
  - destruct (strat st own opp g) as [[[a st'] g']|e]; [|reflexivity].
    rewrite IH. rewrite <- app_assoc. reflexivity.
Qed.

Lemma play_snoc {S} (strat : Strategy S) (init : S) (l : list Action)
    (o : Action) (g : Rng) :
  play strat init (l ++ [o]) g =
  match play strat init l g with
  | Ok (own, st, g') =>
      match strat st own l g' with
      | Ok ((a, st'), g'') => Ok (own ++ [a], st', g'')
      | Raise e => Raise e
      end
  | Raise e => Raise e
  end.
Proof.
  unfold play. rewrite play_from_app.
  destruct (play_from strat l init [] [] g) as [[[own st] g']|e];
    [|reflexivity].
  cbn [play_from app].
  destruct (strat st own l g') as [[[a st'] g'']|e]; reflexivity.
Qed.

(** ** Round 1 *)

(** C4. On the first round, with both histories empty, every strategy of
    the file plays its documented opening whatever the random source is:
    Tester and Gladstein defect, the eleven others cooperate, and two runs
    with different random sources choose the same first action. *)
Theorem C4_first_action_is_fixed (n : Name) (score : Payoff) (g g' : Rng) :
  first_action n score g = Ok (opening n)
  /\ first_action n score g = first_action n score g'.
Proof.
  assert (H : forall h, first_action n score h = Ok (opening n))
    by (intros h; destruct n; reflexivity).
  split; [apply H|]. rewrite (H g), (H g'). reflexivity.
Qed.

(** ** GraaskampKatzen *)

Lemma GraaskampKatzen_update_score_keeps_mode (score : Payoff)
    (st st' : GraaskampKatzen.State) (own opp : History) (g g' : Rng) :
  GraaskampKatzen.update_score score st own opp g = Ok (st', g') ->
  GraaskampKatzen.mode st' = GraaskampKatzen.mode st.
Proof.
  unfold GraaskampKatzen.update_score, bind, lift, ret.
  destruct (back 1 own); [|discriminate].
  destruct (back 1 opp); [|discriminate].
  intros H. injection H as <- _. reflexivity.
Qed.

Lemma GraaskampKatzen_defect_step (score : Payoff)
    (st : GraaskampKatzen.State) (own opp : History) (g : Rng) :
  GraaskampKatzen.mode st = GraaskampKatzen.Defect ->
  GraaskampKatzen.strategy score st own opp g = Ok ((D, st), g).
Proof.
  intros H. unfold GraaskampKatzen.strategy. rewrite H. reflexivity.
Qed.

Lemma GraaskampKatzen_defect_forever (score : Payoff)
    (st : GraaskampKatzen.State) (opp_moves : list Action) :
  GraaskampKatzen.mode st = GraaskampKatzen.Defect ->
  forall (own opp : History) (g : Rng),
    play_from (GraaskampKatzen.strategy score) opp_moves st own opp g
    = Ok (own ++ repeat D (length opp_moves), st, g).
Proof.
  intros H.
  induction opp_moves as [|o rest IH]; intros own opp g; cbn [play_from].
  - rewrite app_nil_r. reflexivity.
  - rewrite GraaskampKatzen_defect_step by exact H.
    rewrite IH. cbn [length repeat]. rewrite <- app_assoc. reflexivity.
Qed.

(** C8. Defect mode of GraaskampKatzen is absorbing: from a state whose
    mode is Defect, a call of the strategy returns Defect and leaves the
    state as it is, whatever the histories are; so does every later call
    of a match, whose own moves are all Defect; and neither the strategy
    nor the score update ever turns a mode Defect into Normal. *)
Theorem C8_GraaskampKatzen_defect_is_absorbing (score : Payoff)
    (st : GraaskampKatzen.State) :
  GraaskampKatzen.mode st = GraaskampKatzen.Defect ->
  (forall own opp g,
      GraaskampKatzen.strategy score st own opp g = Ok ((D, st), g))
  /\ (forall opp_moves own opp g,
         play_from (GraaskampKatzen.strategy score) opp_moves st own opp g
         = Ok (own ++ repeat D (length opp_moves), st, g))
  /\ (forall own opp g st' g',
         GraaskampKatzen.update_score score st own opp g = Ok (st', g') ->
         GraaskampKatzen.mode st' = GraaskampKatzen.Defect).
Proof.
  intros H. repeat split.
  - intros. apply GraaskampKatzen_defect_step. exact H.
  - intros. apply GraaskampKatzen_defect_forever. exact H.
  - intros own opp g st' g' E. rewrite <- H.
    apply (GraaskampKatzen_update_score_keeps_mode score st st' own opp g g' E).
Qed.

(** ** Kluepfel *)

Lemma Kluepfel_respond_returns (one two three : Action) (g : Rng) :
  exists a g', Kluepfel.respond one two three g = Ok (a, g').
Proof.
  unfold Kluepfel.respond, bind, random, ret.
  destruct one, two, three; cbn [Action_eqb andb];
    try (eexists; eexists; reflexivity);
    match goal with
    | |- context [Qltb ?r ?p] => destruct (Qltb r p)
    end; eexists; eexists; reflexivity.
Qed.

Lemma Kluepfel_back_or_C_returns (k : nat) (h : History) (g : Rng) :
  (1 <= k)%nat -> exists a, Kluepfel.back_or_C k h g = Ok (a, g).
Proof.
  intros Hk. unfold Kluepfel.back_or_C.
  destruct (k <=? length h)%nat eqn:E.
  - apply Nat.leb_le in E.
    destruct (back_defined k h) as [a Ha]; [lia|].
    exists a. unfold lift. rewrite Ha. reflexivity.
  - exists C. reflexivity.
Qed.

Lemma Kluepfel_update_counts_returns (st : Kluepfel.State)
    (own opp : History) (g : Rng) :
  length own = length opp ->
  exists st', Kluepfel.update_counts st own opp g = Ok (st', g).
Proof.
  intros Hlen. unfold Kluepfel.update_counts.
  destruct (2 <=? length own)%nat eqn:E.
  - apply Nat.leb_le in E.
    destruct (back_defined 2 own) as [a Ha]; [lia|].
    destruct (back_defined 1 opp) as [b Hb]; [lia|].
    unfold bind, lift, ret. rewrite Ha.
    destruct (Action_eqb a D); rewrite Hb; destruct (Action_eqb b C);
      eexists; reflexivity.
  - exists st. reflexivity.
Qed.

Lemma Kluepfel_strategy_returns (st : Kluepfel.State)
    (own opp : History) (g : Rng) :
  length own = length opp ->
  exists a st' g',
    Kluepfel.strategy st own opp g = Ok ((a, st'), g')
    /\ Kluepfel.update_counts st own opp g = Ok (st', g).
Proof.
  intros Hlen. unfold Kluepfel.strategy.
  destruct (Kluepfel_update_counts_returns st own opp g Hlen) as [st' E].
  unfold bind at 1. rewrite E.
  destruct (Kluepfel.randomness_check_due own && Kluepfel.looks_random st').
  - exists D, st', g. split; reflexivity.
  - destruct (Kluepfel_back_or_C_returns 1 opp g) as [a1 E1]; [lia|].
    destruct (Kluepfel_back_or_C_returns 2 opp g) as [a2 E2]; [lia|].
    destruct (Kluepfel_back_or_C_returns 3 opp g) as [a3 E3]; [lia|].
    destruct (Kluepfel_respond_returns a1 a2 a3 g) as [a [g' E4]].
    exists a, st', g'. split; [|reflexivity].
    unfold bind. rewrite E1, E2, E3.
    unfold bind in E4 |- *. rewrite E4. reflexivity.
Qed.

(** C9. Kluepfel's strategy is total on the inputs of the public
    interface: with histories of equal length, whatever the recorded
    counts and the random draws are, the call returns an action, C or D;
    in particular the four cases of the final cascade are exhaustive, so
    that no triple of last moves and no draw runs off the end of the
    function. *)
Theorem C9_Kluepfel_strategy_is_total (st : Kluepfel.State)
    (own opp : History) (g : Rng) :
  length own = length opp ->
  (exists a st' g',
      Kluepfel.strategy st own opp g = Ok ((a, st'), g')
      /\ (a = C \/ a = D))
  /\ (forall one two three h,
         Kluepfel.respond one two three h <> Raise ReturnedNone).
Proof.
  intros Hlen. split.
  - destruct (Kluepfel_strategy_returns st own opp g Hlen)
      as [a [st' [g' [E _]]]].
    exists a, st', g'. split; [exact E|destruct a; auto].
  - intros one two three h.
    destruct (Kluepfel_respond_returns one two three h) as [a [g' E]].
    rewrite E. discriminate.
Qed.

(** ** Tester *)

Lemma last_is_C_without_defection (opp : History) :
  opp <> [] -> defections opp = 0%Z -> back 1 opp = Ok C.
Proof.
  intros Hne Hd.
  destruct (exists_last Hne) as [h [a ->]].
  rewrite back_1_snoc.
  unfold defections in Hd. rewrite count_app in Hd.
  pose proof (count_nonneg D h).
  destruct a; [reflexivity|]. cbn in Hd. lia.
Qed.

Lemma Tester_early_cooperation (own opp : History) (g : Rng) :
  opp <> [] -> defections opp = 0%Z ->
  (length own = 1 \/ length own = 2)%nat ->
  Tester.strategy Tester.init own opp g = Ok ((C, Tester.init), g).
Proof.
  intros Hne Hd Hlen.
  unfold Tester.strategy.
  destruct opp as [|o opp']; [contradiction|].
  cbn [Tester.is_TFT Tester.init].
  unfold bind, lift. rewrite (last_is_C_without_defection _ Hne Hd).
  cbn [Action_eqb].
  destruct Hlen as [-> | ->]; reflexivity.
Qed.

Lemma Tester_alternates (t : nat) :
  (4 <= t)%nat ->
  Tester_vs_cooperator t = flip (Tester_vs_cooperator (t - 1)).
Proof.
  intros Ht.
  destruct t as [|[|[|[|t]]]]; try lia.
  replace (S (S (S (S t))) - 1)%nat with (S (S (S t))) by lia.
  destruct t as [|t]; [reflexivity|].
  unfold Tester_vs_cooperator.
  rewrite (Nat.odd_succ (S (S (S (S t))))).
  rewrite <- Nat.negb_odd.
  destruct (Nat.odd (S (S (S (S t))))); reflexivity.
Qed.

Lemma Tester_step_vs_cooperator (n : nat) (g : Rng) :
  Tester.strategy Tester.init
    (map Tester_vs_cooperator (seq 1 n)) (repeat C n) g
  = Ok ((Tester_vs_cooperator (S n), Tester.init), g).
Proof.
  destruct n as [|n]; [reflexivity|].
  unfold Tester.strategy.
  cbn [repeat Tester.is_TFT Tester.init].
  unfold bind, lift.
  change (C :: repeat C n) with (repeat C (S n)).
  rewrite back_1_repeat. cbn [Action_eqb].
  rewrite length_map, length_seq.
  destruct n as [|[|n]]; [reflexivity|reflexivity|].
  cbn [Nat.eqb orb].
  rewrite seq_S, map_app. cbn [map].
  rewrite back_1_snoc. unfold ret.
  rewrite (Tester_alternates (S (S (S (S n))))) by lia.
  replace (S (S (S (S n))) - 1)%nat with (1 + S (S n))%nat by lia.
  reflexivity.
Qed.

Lemma Tester_run_vs_cooperator (n : nat) (g : Rng) :
  play Tester.strategy Tester.init (repeat C n) g
  = Ok (map Tester_vs_cooperator (seq 1 n), Tester.init, g).
Proof.
  induction n as [|n IH]; [reflexivity|].
  replace (repeat C (S n)) with (repeat C n ++ [C])
    by (symmetry; apply (repeat_cons n C)).
  rewrite play_snoc, IH, Tester_step_vs_cooperator.
  rewrite seq_S, map_app. reflexivity.
Qed.

(** C10. While the opponent has not defected, Tester cooperates on rounds
    2 and 3, that is when its own history has length 1 or 2, whatever its
    own moves were.  Against an opponent that always cooperates its moves
    are therefore D, C, C followed by D on even rounds and C on odd ones:
    the move of round 3 repeats the move of round 2, and from round 4 on
    every move is the flip of the one before. *)
Theorem C10_Tester_opening_and_alternation :
  (forall own opp g,
      opp <> [] -> defections opp = 0%Z ->
      (length own = 1 \/ length own = 2)%nat ->
      Tester.strategy Tester.init own opp g = Ok ((C, Tester.init), g))
  /\ (forall n g,
         play Tester.strategy Tester.init (repeat C n) g
         = Ok (map Tester_vs_cooperator (seq 1 n), Tester.init, g))
  /\ map Tester_vs_cooperator (seq 1 3) = [D; C; C]
  /\ (forall t, (4 <= t)%nat ->
         Tester_vs_cooperator t = flip (Tester_vs_cooperator (t - 1))).
Proof.
  split; [exact Tester_early_cooperation|].
  split; [exact Tester_run_vs_cooperator|].
  split; [reflexivity|exact Tester_alternates].
Qed.

(** ** Comparisons of rationals *)

Lemma Qleb_true (x y : Q) : Qleb x y = true <-> x <= y.
Proof. apply Qle_bool_iff. Qed.

Lemma Qltb_true (x y : Q) : Qltb x y = true <-> x < y.
Proof.
  unfold Qltb. rewrite negb_true_iff. split.
  - intros H. apply Qnot_le_lt. intros Hle.
    apply Qle_bool_iff in Hle. congruence.
  - intros H. destruct (Qle_bool y x) eqn:E; [|reflexivity].
    apply Qle_bool_iff in E. apply Qlt_not_le in H. contradiction.
Qed.

Lemma Qltb_false (x y : Q) : Qltb x y = false <-> y <= x.
Proof.
  unfold Qltb. rewrite negb_false_iff. apply Qle_bool_iff.
Qed.

Lemma Qleb_false (x y : Q) : Qleb x y = false <-> y < x.
Proof.
  rewrite <- Qltb_true. unfold Qltb, Qleb.
  destruct (Qle_bool x y); cbn; split; congruence.
Qed.

Lemma pymax_ge_left (a b : Q) : a <= pymax a b.
Proof.
  unfold pymax, Qgtb. destruct (Qltb a b) eqn:E.
  - apply Qltb_true in E. lra.
  - lra.
Qed.

(** ** Champion *)

Lemma rates_sum_to_one (opp : History) :
  opp <> [] -> cooperation_rate opp == 1 - defection_rate opp.
Proof.
  intros Hne. unfold cooperation_rate, defection_rate, ZQ.
  assert (Hn : ~ inject_Z (len opp) == 0).
  { unfold len. destruct opp; [contradiction|].
    cbn [length]. rewrite Nat2Z.inj_succ.
    unfold Qeq. cbn. lia. }
  replace (cooperations opp) with (len opp - defections opp)%Z
    by (pose proof (cooperations_defections opp); lia).
  unfold Z.sub. rewrite inject_Z_plus, inject_Z_opp. field. exact Hn.
Qed.

Lemma Champion_opening (own opp : History) (g : Rng) :
  (S (length own) <= 10)%nat ->
  Champion.strategy tt own opp g = Ok ((C, tt), g).
Proof.
  intros H. unfold Champion.strategy.
  destruct (length own =? 0)%nat; [reflexivity|].
  destruct (length own <? 10)%nat eqn:E; [reflexivity|].
  apply Nat.ltb_ge in E. lia.
Qed.

Lemma Champion_mirror (own opp : History) (g : Rng) :
  length own = length opp ->
  (11 <= S (length own) <= 25)%nat ->
  exists last,
    back 1 opp = Ok last
    /\ Champion.strategy tt own opp g = Ok ((last, tt), g).
Proof.
  intros Hlen H.
  destruct (back_defined 1 opp) as [last Hlast]; [lia|].
  exists last. split; [exact Hlast|].
  unfold Champion.strategy.
  destruct (length own =? 0)%nat eqn:E0; [apply Nat.eqb_eq in E0; lia|].
  destruct (length own <? 10)%nat eqn:E1; [apply Nat.ltb_lt in E1; lia|].
  destruct (length own <? 25)%nat eqn:E2; [|apply Nat.ltb_ge in E2; lia].
  unfold bind, lift. rewrite Hlast. reflexivity.
Qed.

(** From round 26 on the move is Defect exactly when the opponent has just
    defected and its defection rate is at least the larger of 0.4 and the
    draw. *)
Lemma Champion_late (own opp : History) (g : Rng) :
  length own = length opp ->
  (26 <= S (length own))%nat ->
  exists a g',
    Champion.strategy tt own opp g = Ok ((a, tt), g')
    /\ (a = D <->
        back 1 opp = Ok D
        /\ pymax (4 # 10) (draws g (pos g)) <= defection_rate opp).
Proof.
  intros Hlen H.
  destruct (back_defined 1 opp) as [last Hlast]; [lia|].
  unfold Champion.strategy.
  destruct (length own =? 0)%nat eqn:E0; [apply Nat.eqb_eq in E0; lia|].
  destruct (length own <? 10)%nat eqn:E1; [apply Nat.ltb_lt in E1; lia|].
  destruct (length own <? 25)%nat eqn:E2; [apply Nat.ltb_lt in E2; lia|].
  unfold bind, pydiv.
  destruct (len opp =? 0)%Z eqn:E3; [apply Z.eqb_eq in E3; unfold len in E3; lia|].
  unfold ret, lift. rewrite Hlast.
  destruct last; cbn [Action_eqb].
  - exists C, g. split; [reflexivity|].
    split; [discriminate|]. intros [Hc _]. discriminate.
  - unfold random. fold (defection_rate opp).
    destruct (Qgeb (defection_rate opp) (pymax (4 # 10) (draws g (pos g))))
      eqn:E.
    + eexists D, _. split; [reflexivity|].
      split; [|reflexivity]. intros _. split; [reflexivity|].
      apply Qleb_true. exact E.
    + eexists C, _. split; [reflexivity|].
      split; [discriminate|]. intros [_ Hge].
      apply Qleb_true in Hge. unfold Qgeb in E. congruence.
Qed.

(** C7. Champion cooperates on rounds 1 to 10 and repeats the opponent's
    previous move on rounds 11 to 25.  From round 26 on it returns an
    action for every draw, and that action is Defect only if the opponent
    defected on the previous round and the opponent's defection rate is at
    least 0.4, which is to say its cooperation rate is at most 0.6; in
    every other case it cooperates. *)
Theorem C7_Champion_phases (own opp : History) (g : Rng) :
  length own = length opp ->
  ((S (length own) <= 10)%nat ->
   Champion.strategy tt own opp g = Ok ((C, tt), g))
  /\ ((11 <= S (length own) <= 25)%nat ->
      exists last,
        back 1 opp = Ok last
        /\ Champion.strategy tt own opp g = Ok ((last, tt), g))
  /\ ((26 <= S (length own))%nat ->
      exists a g',
        Champion.strategy tt own opp g = Ok ((a, tt), g')
        /\ (a = D ->
            back 1 opp = Ok D
            /\ 4 # 10 <= defection_rate opp
            /\ cooperation_rate opp <= 6 # 10)
        /\ (~ (back 1 opp = Ok D /\ 4 # 10 <= defection_rate opp) -> a = C)).
Proof.
  intros Hlen. split; [apply Champion_opening|].
  split; [apply Champion_mirror; exact Hlen|].
  intros H.
  destruct (Champion_late own opp g Hlen H) as [a [g' [E Ha]]].
  exists a, g'. split; [exact E|].
  assert (Hne : opp <> []) by (destruct opp; [cbn in *; lia|discriminate]).
  pose proof (pymax_ge_left (4 # 10) (draws g (pos g))) as Hmax.
  split.
  - intros HD. apply Ha in HD. destruct HD as [Hlast Hge].
    split; [exact Hlast|]. split; [lra|].
    rewrite (rates_sum_to_one opp Hne). lra.
  - intros Hn. destruct a; [reflexivity|].
    exfalso. apply Hn.
    destruct Ha as [Ha _]. destruct (Ha eq_refl) as [Hlast Hge].
    split; [exact Hlast|lra].
Qed.

(** ** Borufsen *)

Lemma is_Ok_D_true (r : result Action) : is_Ok_D r = true -> r = Ok D.
Proof. destruct r as [[|]|e]; cbn; congruence. Qed.

Lemma Borufsen_defects_27_to_51 (g : Rng) (t : nat) :
  (27 <= t <= 51)%nat ->
  action_at_round Borufsen.strategy Borufsen.init D t g = Ok D.
Proof.
  intros Ht. apply is_Ok_D_true.
  assert (H : forallb
                (fun t => is_Ok_D
                   (action_at_round Borufsen.strategy Borufsen.init D t g))
                (seq 27 25) = true)
    by (vm_compute; reflexivity).
  rewrite forallb_forall in H. apply H. apply in_seq. lia.
Qed.

Lemma Borufsen_in_Defect_27_to_51 (g : Rng) (t : nat) :
  (27 <= t <= 51)%nat ->
  exists own st,
    play Borufsen.strategy Borufsen.init (repeat D t) g = Ok (own, st, g)
    /\ back 1 own = Ok D
    /\ Borufsen.mode st = Borufsen.Defect.
Proof.
  intros Ht.
  assert (Hin : In t (seq 27 25)) by (apply in_seq; lia).
  cbn [seq In] in Hin.
  repeat (destruct Hin as [<-|Hin];
          [do 2 eexists; split; [vm_compute; reflexivity|];
           split; reflexivity|]).
  contradiction.
Qed.

(** C5. Against an opponent that defects on every round, Borufsen is in
    Normal mode after 26 rounds; the call of round 27 updates its counts to
    fewer than 3 recorded cooperations, its mode evaluation chooses Defect
    mode, and the call returns Defect and leaves the player in Defect mode.
    After each of the rounds 27 to 51 of the match the player is in Defect
    mode and the move it has just played is Defect.  No call of the rounds
    28 to 51 evaluates the mode, and the call of round 52 does: the mode
    it leaves is the one its evaluation chooses. *)
Theorem C5_Borufsen_vs_defector (g : Rng) :
  (exists own st st1 st27,
      play Borufsen.strategy Borufsen.init (repeat D 26) g = Ok (own, st, g)
      /\ Borufsen.mode st = Borufsen.Normal
      /\ Borufsen.update_counts 27 st own (repeat D 26) g = Ok (st1, g)
      /\ (Borufsen.coops st1 < 3)%Z
      /\ Borufsen.mode (fst (Borufsen.mode_change 27 st1)) = Borufsen.Defect
      /\ Borufsen.strategy st own (repeat D 26) g = Ok ((D, st27), g)
      /\ Borufsen.mode st27 = Borufsen.Defect)
  /\ (forall t, (27 <= t <= 51)%nat ->
         action_at_round Borufsen.strategy Borufsen.init D t g = Ok D
         /\ exists own st,
              play Borufsen.strategy Borufsen.init (repeat D t) g
              = Ok (own, st, g)
              /\ back 1 own = Ok D
              /\ Borufsen.mode st = Borufsen.Defect)
  /\ (forall t st, (28 <= t <= 51)%nat ->
         Borufsen.mode_change (Z.of_nat t) st = (st, false))
  /\ (forall st,
         Borufsen.mode (fst (Borufsen.mode_change 52 st))
         = Borufsen.evaluated_mode st).
Proof.
  split; [|split; [|split]].
  - do 4 eexists.
    split; [vm_compute; reflexivity|].
    split; [reflexivity|].
    split; [vm_compute; reflexivity|].
    split; [vm_compute; reflexivity|].
    split; [vm_compute; reflexivity|].
    split; [vm_compute; reflexivity|reflexivity].
  - intros t Ht. split.
    + apply Borufsen_defects_27_to_51. exact Ht.
    + apply Borufsen_in_Defect_27_to_51. exact Ht.
  - intros t st Ht. unfold Borufsen.mode_change.
    destruct (Z.eqb_spec (Z.of_nat t mod 25) 2) as [E|_].
    + exfalso. clear st.
      assert (Hd := Z.div_mod (Z.of_nat t) 25 ltac:(lia)).
      assert (Z.of_nat t / 25 = 1 \/ Z.of_nat t / 25 = 2
              \/ Z.of_nat t / 25 <= 0 \/ 3 <= Z.of_nat t / 25)%Z by lia.
      lia.
    + rewrite andb_false_r. reflexivity.
  - intros st. unfold Borufsen.mode_change. cbn.
    destruct (Borufsen.evaluated_mode st); reflexivity.
Qed.

(** ** Invariants of a match *)

Lemma play_from_invariant {S} (strat : Strategy S) (P : S -> Prop) :
  (forall st own opp g a st' g',
      P st -> strat st own opp g = Ok ((a, st'), g') -> P st') ->
  forall opp_moves st own opp g own' st' g',
    P st ->
    play_from strat opp_moves st own opp g = Ok (own', st', g') ->
    P st'.
Proof.
  intros Hstep opp_moves.
  induction opp_moves as [|o rest IH]; intros st own opp g own' st' g' HP H;
    cbn [play_from] in H.
  - injection H as _ <- _. exact HP.
  - destruct (strat st own opp g) as [[[a st1] g1]|e] eqn:E; [|discriminate].
    apply (IH _ _ _ _ _ _ _ (Hstep _ _ _ _ _ _ _ HP E) H).
Qed.

Lemma play_from_lengths {S} (strat : Strategy S) :
  forall opp_moves st own opp g own' st' g',
    play_from strat opp_moves st own opp g = Ok (own', st', g') ->
    length own' = (length own + length opp_moves)%nat.
Proof.
  intros opp_moves.
  induction opp_moves as [|o rest IH]; intros st own opp g own' st' g' H;
    cbn [play_from] in H.
  - injection H as <- _ _. cbn. lia.
  - destruct (strat st own opp g) as [[[a st1] g1]|e] eqn:E; [|discriminate].
    apply IH in H. rewrite length_app in H. cbn [length] in *. lia.
Qed.

(** ** Tranquilizer *)

Lemma Tranquilizer_update_keeps_counts_positive
    (st st' : Tranquilizer.State) (own opp : History) (g g' : Rng) :
  Tranquilizer_counts_positive st ->
  Tranquilizer.update_state st own opp g = Ok (st', g') ->
  Tranquilizer_counts_positive st'.
Proof.
  unfold Tranquilizer_counts_positive, Tranquilizer.update_state,
    Tranquilizer.new_ratio, qdiv, bind, lift, ret, raise.
  intros [H1 H2] H.
  repeat break_match; try discriminate;
    injection H as <- _; cbn; lia.
Qed.

Lemma Tranquilizer_strategy_keeps_counts_positive (score : Payoff)
    (st : Tranquilizer.State) (own opp : History) (g : Rng)
    (a : Action) (st' : Tranquilizer.State) (g' : Rng) :
  Tranquilizer_counts_positive st ->
  Tranquilizer.strategy score st own opp g = Ok ((a, st'), g') ->
  Tranquilizer_counts_positive st'.
Proof.
  intros HP H. unfold Tranquilizer.strategy in H.
  destruct own as [|x own']; [injection H as _ <- _; exact HP|].
  unfold bind at 1 in H.
  destruct (Tranquilizer.update_state st (x :: own') opp g)
    as [[st1 g1]|e] eqn:E; [|discriminate].
  pose proof (Tranquilizer_update_keeps_counts_positive _ _ _ _ _ _ HP E) as HP1.
  unfold Tranquilizer.good_probability, bind, lift, ret, random in H.
  repeat break_match; try discriminate;
    injection H as _ <- _; exact HP1.
Qed.

Lemma Qeq_bool_positive (z : Z) :
  (1 <= z)%Z -> Qeq_bool (ZQ (z + 1)) 0 = false.
Proof.
  intros Hz. destruct (Qeq_bool (ZQ (z + 1)) 0) eqn:E; [|reflexivity].
  apply Qeq_bool_iff in E. unfold Qeq, ZQ in E. cbn in E. lia.
Qed.

(** The round after a defection that left the counter at 1: the counter
    moves to 2 and the move is Cooperate, without a draw. *)
Lemma Tranquilizer_cooldown_step (score : Payoff)
    (st1 : Tranquilizer.State) (own opp : History) (o : Action) (g : Rng) :
  Tranquilizer.num_turns_after_good_defection st1 = 1%Z ->
  Tranquilizer_counts_positive st1 ->
  exists st2,
    Tranquilizer.strategy score st1 (own ++ [D]) (opp ++ [o]) g
    = Ok ((C, st2), g)
    /\ Tranquilizer.num_turns_after_good_defection st2 = 2%Z.
Proof.
  intros Hfd [Hak _].
  unfold Tranquilizer.strategy.
  assert (Hown : exists x own', own ++ [D] = x :: own')
    by (destruct own; cbn; eauto).
  destruct Hown as [x [own' Hown]]. rewrite Hown, <- Hown. clear x own' Hown.
  unfold Tranquilizer.update_state, Tranquilizer.new_ratio, qdiv,
    bind, lift, ret.
  rewrite !back_1_snoc, Hfd. cbn [Z.eqb Pos.eqb].
  rewrite (Qeq_bool_positive _ Hak).
  eexists. split; reflexivity.
Qed.

(** C3 (amended). In a match of a fresh Tranquilizer, whenever a call
    returns Defect from the branch of an average payoff of at least 2.25,
    leaving [num_turns_after_good_defection] at 1, the move of the next
    round is Cooperate, for every move of the opponent and every draw
    sequence.  The window has one round, not two: on the second round after
    the defection the counter is back at 0 before the decision, and the
    move is chosen by the ordinary branches. *)
Theorem C3_Tranquilizer_one_round_window (score : Payoff) :
  forced_cooperation_window score 1.
Proof.
  intros opp_moves g own st g0 st1 g1 o rest Hplay Hstep Hfd Hrest.
  destruct rest as [|o1 [|? ?]]; try discriminate. clear Hrest.
  assert (HP : Tranquilizer_counts_positive st1).
  { apply (Tranquilizer_strategy_keeps_counts_positive
             score st own opp_moves g0 D st1 g1); [|exact Hstep].
    apply (play_from_invariant (Tranquilizer.strategy score)
             Tranquilizer_counts_positive
             (Tranquilizer_strategy_keeps_counts_positive score)
             opp_moves Tranquilizer.init [] [] g own st g0);
      [split; cbn; lia|exact Hplay]. }
  destruct (Tranquilizer_cooldown_step score st1 own opp_moves o g1 Hfd HP)
    as [st2 [E _]].
  exists st2, g1. cbn [play_from]. rewrite E. reflexivity.
Qed.

(** The second round after the defection: the state update takes the
    counter from 2 back to 0, so that the call goes on to the decision
    branches. *)
Lemma Tranquilizer_counter_returns_to_zero
    (st2 : Tranquilizer.State) (own opp : History) (a o : Action) (g : Rng) :
  Tranquilizer.num_turns_after_good_defection st2 = 2%Z ->
  Tranquilizer_counts_positive st2 ->
  exists st3,
    Tranquilizer.update_state st2 (own ++ [a]) (opp ++ [o]) g = Ok (st3, g)
    /\ Tranquilizer.num_turns_after_good_defection st3 = 0%Z.
Proof.
  intros Hfd [_ Hnk].
  unfold Tranquilizer.update_state, Tranquilizer.new_ratio, qdiv,
    bind, lift, ret.
  rewrite !back_1_snoc, Hfd. cbn [Z.eqb Pos.eqb].
  rewrite (Qeq_bool_positive _ Hnk).
  eexists. split; reflexivity.
Qed.

(** C3 (as stated) fails.  With the usual payoffs, against an opponent
    that always cooperates and with draws 0, 0, 0.995, 0.9, Tranquilizer
    defects on round 5 from the branch of an average of at least 2.25,
    cooperates on round 6 and defects again on round 7: the second round
    after the defection is not a forced cooperation. *)
Lemma C3_counterexample_second_round_defects :
  ~ forced_cooperation_window prisoners_dilemma 2.
Proof.
  intros H.
  edestruct (H (repeat C 4) late_defection_rng) with (o := C) (rest := [C; C])
    as [st2 [g2 E]].
  - vm_compute. reflexivity.
  - vm_compute. reflexivity.
  - reflexivity.
  - reflexivity.
  - vm_compute in E. discriminate E.
Qed.

Lemma C3_witness_cooperation_after_defection :
  exists st2 g2,
    play_from (Tranquilizer.strategy prisoners_dilemma) [C]
      (Tranquilizer.mkState 1 0 5 0 1 1)
      ([C; C; C; C] ++ [D]) (repeat C 4 ++ [C])
      (mkRng (draws late_defection_rng) 3)
    = Ok (([C; C; C; C] ++ [D]) ++ repeat C 1, st2, g2).
Proof.
  apply (C3_Tranquilizer_one_round_window prisoners_dilemma
           (repeat C 4) late_defection_rng [C; C; C; C]
           Tranquilizer.init (mkRng (draws late_defection_rng) 2)).
  - vm_compute. reflexivity.
  - vm_compute. reflexivity.
  - reflexivity.
  - reflexivity.
Defined.

(** ** Weiner *)

Lemma zsum_app (l1 l2 : list Z) : zsum (l1 ++ l2) = (zsum l1 + zsum l2)%Z.
Proof.
  unfold zsum.
  induction l1 as [|x l1 IH]; cbn [fold_right app]; [reflexivity|].
  rewrite IH. lia.
Qed.

Lemma zsum_skipn_zeros (k n : nat) : zsum (skipn k (repeat 0%Z n)) = 0%Z.
Proof.
  revert k. induction n as [|n IH]; intros [|k]; cbn [repeat skipn];
    try reflexivity.
  - specialize (IH 0%nat). cbn [skipn] in IH.
    unfold zsum in *. cbn [fold_right]. rewrite IH. reflexivity.
  - apply IH.
Qed.

Lemma zsum_codes (ms : list Action) : zsum (map defect_code ms) = count D ms.
Proof.
  unfold count, zsum.
  induction ms as [|a ms IH]; [reflexivity|].
  cbn [map fold_right filter]. rewrite IH.
  destruct a; cbn [defect_code Action_eqb length]; lia.
Qed.

Lemma zsum_rotation (i : nat) (l : list Z) :
  zsum (skipn i l ++ firstn i l) = zsum l.
Proof.
  rewrite zsum_app.
  rewrite <- (firstn_skipn i l) at 3. rewrite zsum_app. lia.
Qed.

Lemma zsum_window_of (ms : list Action) :
  zsum (window_of ms) = count D (lastn 12 ms).
Proof.
  unfold window_of, window, lastn.
  rewrite length_app, repeat_length, length_map, skipn_app, repeat_length.
  rewrite zsum_app, zsum_skipn_zeros, skipn_map, zsum_codes.
  replace (12 + length ms - 12 - 12)%nat with (length ms - 12)%nat by lia.
  reflexivity.
Qed.

Lemma tl_skipn {A} (k : nat) (l : list A) : tl (skipn k l) = skipn (S k) l.
Proof.
  revert l. induction k as [|k IH]; intros [|x l]; try reflexivity.
  apply (IH l).
Qed.

Lemma window_of_snoc (ms : list Action) (m : Action) :
  window_of (ms ++ [m]) = tl (window_of ms) ++ [defect_code m].
Proof.
  unfold window_of, window.
  rewrite map_app, app_assoc. cbn [map].
  set (l := repeat 0%Z 12 ++ map defect_code ms).
  assert (Hl : (12 <= length l)%nat)
    by (unfold l; rewrite length_app, repeat_length; lia).
  rewrite length_app. cbn [length].
  replace (length l + 1 - 12)%nat with (S (length l - 12)) by lia.
  rewrite skipn_app, tl_skipn.
  replace (S (length l - 12) - length l)%nat with 0%nat by lia.
  reflexivity.
Qed.

(** Writing at the next position and advancing it shifts the window. *)
Lemma Weiner_buffer_write (buf : list Z) (i : nat) (c : Z) (w : list Z) :
  length buf = 12%nat -> (i < 12)%nat ->
  skipn i buf ++ firstn i buf = w ->
  let buf' := firstn i buf ++ c :: skipn (S i) buf in
  let i' := ((i + 1) mod 12)%nat in
  length buf' = 12%nat /\ (i' < 12)%nat
  /\ skipn i' buf' ++ firstn i' buf' = tl w ++ [c].
Proof.
  intros Hlen Hi Hw.
  do 12 (destruct buf as [|? buf]; [discriminate|]).
  destruct buf; [|discriminate]. subst w.
  do 12 (destruct i as [|i]; [cbn; repeat split; lia|]).
  lia.
Qed.

Lemma Weiner_update_history_ok (st : Weiner.State) (opp : History) (g : Rng) :
  Weiner_buffer_ok st (firstn (length opp - 2) opp) ->
  exists st1,
    Weiner.update_history st opp g = Ok (st1, g)
    /\ Weiner_buffer_ok st1 (removelast opp)
    /\ Weiner.forgive_flag st1 = Weiner.forgive_flag st
    /\ Weiner.grudge st1 = Weiner.grudge st
    /\ Weiner.defect_padding st1 = Weiner.defect_padding st.
Proof.
  intros Hok. unfold Weiner.update_history.
  destruct (2 <=? length opp)%nat eqn:E.
  - apply Nat.leb_le in E.
    destruct (exists_last (l := opp)) as [h1 [x ->]];
      [intros ->; cbn in E; lia|].
    rewrite length_app in E. cbn [length] in E.
    destruct (exists_last (l := h1)) as [h [m ->]];
      [intros ->; cbn in E; lia|].
    rewrite removelast_last.
    rewrite <- app_assoc in Hok |- *. cbn [app] in Hok |- *.
    replace (length (h ++ [m; x]) - 2)%nat with (length h) in Hok
      by (rewrite length_app; cbn; lia).
    rewrite firstn_app, firstn_all, Nat.sub_diag in Hok.
    cbn [firstn] in Hok. rewrite app_nil_r in Hok.
    destruct Hok as [Hlen [Hi Hw]].
    unfold bind, lift, ret, set_index.
    rewrite back_2_snoc.
    destruct (Nat.ltb_spec (Weiner.lt_index st)
                (length (Weiner.last_twelve st))) as [_|Hge]; [|lia].
    eexists. split; [reflexivity|].
    split; [|cbn; auto].
    unfold Weiner_buffer_ok. cbn [Weiner.last_twelve Weiner.lt_index].
    rewrite window_of_snoc.
    apply (Weiner_buffer_write _ _ (defect_code m) _ Hlen Hi Hw).
  - apply Nat.leb_gt in E. exists st.
    split; [reflexivity|]. split; [|auto].
    replace (length opp - 2)%nat with 0%nat in Hok by lia.
    cbn [firstn] in Hok.
    destruct opp as [|x [|y opp]]; [exact Hok|exact Hok|cbn in E; lia].
Qed.

Lemma Weiner_choose_returns (st : Weiner.State) (own opp : History) (g : Rng) :
  opp <> [] ->
  exists to_return st2,
    Weiner.choose st own opp g = Ok ((to_return, st2), g)
    /\ Weiner.last_twelve st2 = Weiner.last_twelve st
    /\ Weiner.lt_index st2 = Weiner.lt_index st.
Proof.
  intros Hne.
  destruct (exists_last Hne) as [h [o ->]].
  unfold Weiner.choose, bind, lift, ret. rewrite back_1_snoc.
  repeat break_match; eexists; eexists; repeat split.
Qed.

(** One call of Weiner's strategy on a round after the first. *)
Lemma Weiner_step (st : Weiner.State) (own opp : History) (g : Rng) :
  opp <> [] ->
  Weiner_buffer_ok st (firstn (length opp - 2) opp) ->
  exists st1 to_return st2,
    Weiner.update_history st opp g = Ok (st1, g)
    /\ Weiner_buffer_ok st1 (removelast opp)
    /\ Weiner.choose st1 own opp g = Ok ((to_return, st2), g)
    /\ Weiner_buffer_ok st2 (removelast opp)
    /\ Weiner.strategy st own opp g
       = Ok ((Weiner.try_return st1 to_return, st2), g).
Proof.
  intros Hne Hok.
  destruct (Weiner_update_history_ok st opp g Hok) as [st1 [E1 [Hok1 _]]].
  destruct (Weiner_choose_returns st1 own opp g Hne)
    as [to_return [st2 [E2 [Hbuf Hidx]]]].
  exists st1, to_return, st2.
  split; [exact E1|]. split; [exact Hok1|]. split; [exact E2|].
  split.
  - unfold Weiner_buffer_ok in *. rewrite Hbuf, Hidx. exact Hok1.
  - unfold Weiner.strategy.
    destruct opp as [|x opp']; [contradiction|].
    cbn [length Nat.eqb].
    unfold bind at 1. rewrite E1.
    unfold bind at 1. rewrite E2.
    unfold ret, Weiner.try_return. rewrite Hbuf. reflexivity.
Qed.

Lemma Weiner_written_after_round (opp : History) (o : Action) :
  firstn (length (opp ++ [o]) - 2) (opp ++ [o]) = removelast opp.
Proof.
  rewrite length_app. cbn [length].
  rewrite firstn_app.
  replace (length opp + 1 - 2 - length opp)%nat with 0%nat by lia.
  cbn [firstn]. rewrite app_nil_r, removelast_firstn_len.
  f_equal. lia.
Qed.

Lemma Weiner_play_ok (opp_moves : list Action) :
  forall (st : Weiner.State) (own opp : History) (g : Rng),
    Weiner_buffer_ok st (firstn (length opp - 2) opp) ->
    exists own' st',
      play_from Weiner.strategy opp_moves st own opp g = Ok (own', st', g)
      /\ Weiner_buffer_ok st'
           (firstn (length (opp ++ opp_moves) - 2) (opp ++ opp_moves)).
Proof.
  induction opp_moves as [|o rest IH]; intros st own opp g Hok.
  - exists own, st. rewrite app_nil_r. split; [reflexivity|exact Hok].
  - cbn [play_from].
    replace (opp ++ o :: rest) with ((opp ++ [o]) ++ rest)
      by (rewrite <- app_assoc; reflexivity).
    destruct opp as [|x opp'].
    + change (Weiner.strategy st own [] g) with (Ok ((C, st), g) : result _).
      apply IH. exact Hok.
    + destruct (Weiner_step st own (x :: opp') g) as
        [st1 [to_return [st2 [_ [_ [_ [Hok2 E]]]]]]];
        [discriminate|exact Hok|].
      rewrite E. apply IH.
      rewrite Weiner_written_after_round. exact Hok2.
Qed.

Lemma Weiner_init_ok : Weiner_buffer_ok Weiner.init [].
Proof. repeat split. cbn. lia. Qed.

(** C6. On every round after the first of a match of a fresh Weiner, the
    buffer [last_twelve], once the round's update has been made, holds the
    opponent's moves up to the round before the last one: its sum is the
    number of defections among the twelve moves that precede the
    opponent's most recent move, which is not counted.  The move of the
    round is Defect when that lagged count is at least 5, whatever the
    forgiveness logic chose, a forgiving Cooperate included, and it is the
    move the forgiveness logic chose when the count is below 5. *)
Theorem C6_Weiner_lagged_override (opp : History) (g : Rng) :
  opp <> [] ->
  exists own st st1 to_return st2,
    play Weiner.strategy Weiner.init opp g = Ok (own, st, g)
    /\ Weiner.update_history st opp g = Ok (st1, g)
    /\ zsum (Weiner.last_twelve st1) = lagged_defections opp
    /\ Weiner.choose st1 own opp g = Ok ((to_return, st2), g)
    /\ Weiner.strategy st own opp g
       = Ok ((if (5 <=? lagged_defections opp)%Z then D else to_return,
              st2), g).
Proof.
  intros Hne.
  destruct (Weiner_play_ok opp Weiner.init [] [] g Weiner_init_ok)
    as [own [st [Hplay Hok]]].
  cbn [app] in Hok.
  destruct (Weiner_step st own opp g Hne Hok)
    as [st1 [to_return [st2 [E1 [Hok1 [E2 [_ E]]]]]]].
  exists own, st, st1, to_return, st2.
  assert (Hsum : zsum (Weiner.last_twelve st1) = lagged_defections opp).
  { destruct Hok1 as [_ [_ Hw]].
    unfold lagged_defections. rewrite <- zsum_window_of, <- Hw.
    symmetry. apply zsum_rotation. }
  split; [exact Hplay|]. split; [exact E1|]. split; [exact Hsum|].
  split; [exact E2|].
  rewrite E. unfold Weiner.try_return. rewrite Hsum. reflexivity.
Qed.

(** ** Kluepfel's randomness check *)

Lemma above_lower_bound_spec (a n : Z) :
  (0 <= n)%Z ->
  Kluepfel.above_lower_bound a n = true
  <-> (IZR a >= IZR n / 2 - 0.75 * sqrt (IZR n))%R.
Proof.
  intros Hn. unfold Kluepfel.above_lower_bound.
  assert (Hs : (0 <= sqrt (IZR n))%R) by apply sqrt_pos.
  assert (Hs2 : (sqrt (IZR n) * sqrt (IZR n) = IZR n)%R)
    by (apply sqrt_sqrt; apply IZR_le; exact Hn).
  replace (0 <=? n)%Z with true by (symmetry; apply Z.leb_le; exact Hn).
  cbn [andb]. rewrite orb_true_iff, !Z.leb_le.
  split.
  - intros [H | H].
    + apply IZR_le in H. rewrite mult_IZR in H. lra.
    + apply IZR_le in H. rewrite !mult_IZR, minus_IZR, mult_IZR in H.
      destruct (Rle_dec (IZR n) (2 * IZR a)) as [Hle|Hgt]; [lra|].
      nra.
  - intros H.
    destruct (Z_le_gt_dec n (2 * a)) as [Hle|Hgt]; [left; exact Hle|right].
    apply le_IZR. rewrite !mult_IZR, minus_IZR, mult_IZR.
    assert (IZR n > 2 * IZR a)%R.
    { apply Z.gt_lt in Hgt. apply IZR_lt in Hgt.
      rewrite mult_IZR in Hgt. lra. }
    nra.
Qed.

(** The integer test of the model decides the documented inequality. *)
Lemma Kluepfel_looks_random_spec (st : Kluepfel.State) :
  Kluepfel_counts_nonneg st ->
  Kluepfel.looks_random st = true <-> Kluepfel_inequality st.
Proof.
  intros [H1 [H2 [H3 H4]]].
  unfold Kluepfel.looks_random, Kluepfel_inequality.
  rewrite andb_true_iff, !above_lower_bound_spec by lia.
  reflexivity.
Qed.

Lemma Kluepfel_update_keeps_nonneg (st st' : Kluepfel.State)
    (own opp : History) (g g' : Rng) :
  Kluepfel_counts_nonneg st ->
  Kluepfel.update_counts st own opp g = Ok (st', g') ->
  Kluepfel_counts_nonneg st'.
Proof.
  unfold Kluepfel_counts_nonneg, Kluepfel.update_counts, bind, lift, ret.
  intros [H1 [H2 [H3 H4]]] H.
  repeat break_match; try discriminate;
    injection H as <- _; cbn; lia.
Qed.

Lemma Kluepfel_strategy_keeps_nonneg (st : Kluepfel.State)
    (own opp : History) (g : Rng) (a : Action) (st' : Kluepfel.State)
    (g' : Rng) :
  Kluepfel_counts_nonneg st ->
  Kluepfel.strategy st own opp g = Ok ((a, st'), g') ->
  Kluepfel_counts_nonneg st'.
Proof.
  intros HP H. unfold Kluepfel.strategy in H.
  unfold bind at 1 in H.
  destruct (Kluepfel.update_counts st own opp g) as [[st1 g1]|e] eqn:E;
    [|discriminate].
  pose proof (Kluepfel_update_keeps_nonneg _ _ _ _ _ _ HP E) as HP1.
  destruct (Kluepfel.randomness_check_due own && Kluepfel.looks_random st1).
  - injection H as _ <- _. exact HP1.
  - unfold bind, ret in H.
    repeat break_match; try discriminate.
    injection H as _ <- _. exact HP1.
Qed.

Lemma play_from_total {S} (strat : Strategy S) :
  (forall st own opp g,
      length own = length opp ->
      exists a st' g', strat st own opp g = Ok ((a, st'), g')) ->
  forall opp_moves st own opp g,
    length own = length opp ->
    exists own' st' g',
      play_from strat opp_moves st own opp g = Ok (own', st', g').
Proof.
  intros Htotal opp_moves.
  induction opp_moves as [|o rest IH]; intros st own opp g Hlen;
    cbn [play_from].
  - eauto.
  - destruct (Htotal st own opp g Hlen) as [a [st' [g' E]]].
    rewrite E. apply IH. rewrite !length_app. cbn. lia.
Qed.

Lemma Kluepfel_play_total (opp_moves : list Action) (g : Rng) :
  exists own st g',
    play Kluepfel.strategy Kluepfel.init opp_moves g = Ok (own, st, g').
Proof.
  apply play_from_total; [|reflexivity].
  intros st own opp h Hlen.
  destruct (Kluepfel_strategy_returns st own opp h Hlen)
    as [a [st' [g' [E _]]]].
  eauto.
Qed.

Lemma Kluepfel_check_due_iff (own : History) :
  Kluepfel.randomness_check_due own = true <-> (27 <= length own)%nat.
Proof.
  unfold Kluepfel.randomness_check_due. rewrite Nat.ltb_lt. lia.
Qed.

Lemma Kluepfel_checks_at_round_iff (t : nat) :
  Kluepfel_checks_at_round t <-> (28 <= t)%nat.
Proof.
  unfold Kluepfel_checks_at_round. split.
  - intros H.
    destruct (Kluepfel_play_total (repeat D (t - 1)) zero_rng)
      as [own [st [g' E]]].
    pose proof (H _ _ _ _ E) as Hdue.
    apply Kluepfel_check_due_iff in Hdue.
    apply play_from_lengths in E. rewrite repeat_length in E.
    cbn [length] in E. lia.
  - intros Ht g own st g' E.
    apply Kluepfel_check_due_iff.
    apply play_from_lengths in E. rewrite repeat_length in E.
    cbn [length] in E. lia.
Qed.

Lemma Kluepfel_defects_when_random (st : Kluepfel.State)
    (own opp : History) (g : Rng) (st' : Kluepfel.State) :
  Kluepfel.update_counts st own opp g = Ok (st', g) ->
  Kluepfel.randomness_check_due own = true ->
  Kluepfel.looks_random st' = true ->
  Kluepfel.strategy st own opp g = Ok ((D, st'), g).
Proof.
  intros E Hdue Hrandom. unfold Kluepfel.strategy.
  unfold bind at 1. rewrite E, Hdue, Hrandom. reflexivity.
Qed.

(** In a match against an opponent that defects on every round, the
    first round at which Kluepfel makes the randomness check is round 28:
    the guard asks for an own history of more than 26 moves.  A call that
    makes the check returns Defect when the inequality holds of the counts
    it has just updated; and on the counts of a match the test of the
    source is the documented inequality. *)
Lemma Kluepfel_check_from_round_28 :
  Kluepfel_first_check_round 28
  /\ (forall st own opp g st',
         Kluepfel.update_counts st own opp g = Ok (st', g) ->
         Kluepfel.randomness_check_due own = true ->
         Kluepfel.looks_random st' = true ->
         Kluepfel.strategy st own opp g = Ok ((D, st'), g))
  /\ (forall opp_moves g own st g',
         play Kluepfel.strategy Kluepfel.init opp_moves g = Ok (own, st, g') ->
         forall st' g'',
           Kluepfel.update_counts st own opp_moves g' = Ok (st', g'') ->
           (Kluepfel.looks_random st' = true <-> Kluepfel_inequality st')).
Proof.
  split; [|split].
  - split.
    + apply Kluepfel_checks_at_round_iff. lia.
    + intros t' Ht H. apply Kluepfel_checks_at_round_iff in H. lia.
  - exact Kluepfel_defects_when_random.
  - intros opp_moves g own st g' Hplay st' g'' Hupd.
    apply Kluepfel_looks_random_spec.
    apply (Kluepfel_update_keeps_nonneg st st' own opp_moves g' g''); [|exact Hupd].
    apply (play_from_invariant Kluepfel.strategy Kluepfel_counts_nonneg
             Kluepfel_strategy_keeps_nonneg
             opp_moves Kluepfel.init [] [] g own st g');
      [repeat split; cbn; lia|exact Hplay].
Qed.

Lemma Kluepfel_round_27_is_not_first_check :
  ~ Kluepfel_first_check_round 27.
Proof.
  intros [H _]. apply Kluepfel_checks_at_round_iff in H. lia.
Qed.

(** A call with 27 moves of history and counts for which the inequality
    holds returns Defect. *)
Lemma Kluepfel_check_example :
  Kluepfel.randomness_check_due (repeat C 27) = true
  /\ Kluepfel.strategy (Kluepfel.mkState 5 5 5 5) (repeat C 27) (repeat C 27)
       zero_rng
     = Ok ((D, Kluepfel.mkState 5 5 6 5), zero_rng).
Proof.
  split; [reflexivity|].
  apply (proj1 (proj2 Kluepfel_check_from_round_28)); reflexivity.
Qed.

(** Against three defections in a row the tail of the strategy returns
    Defect without a draw. *)
Lemma Kluepfel_echoes_three_defections (st : Kluepfel.State)
    (own : History) (n : nat) (g : Rng) :
  length own = (3 + n)%nat ->
  Kluepfel.randomness_check_due own = false ->
  exists st',
    Kluepfel.strategy st own (repeat D (3 + n)) g = Ok ((D, st'), g).
Proof.
  intros Hlen Hdue.
  destruct (Kluepfel_update_counts_returns st own (repeat D (3 + n)) g)
    as [st' E]; [rewrite repeat_length; exact Hlen|].
  exists st'. unfold Kluepfel.strategy.
  unfold bind at 1. rewrite E, Hdue. cbn [andb].
  unfold Kluepfel.back_or_C. rewrite repeat_length.
  replace (repeat D (3 + n)) with (repeat D n ++ [D; D; D]).
  - unfold bind, lift, back. rewrite rev_app_distr.
    destruct (Nat.leb_spec 1 (3 + n)); [|lia].
    destruct (Nat.leb_spec 2 (3 + n)); [|lia].
    destruct (Nat.leb_spec 3 (3 + n)); [|lia].
    reflexivity.
  - change [D; D; D] with (repeat D 3).
    rewrite <- repeat_app. f_equal. lia.
Qed.

(** In a match against an opponent that defects on every round, whatever
    the draws are, the call that decides round 27 is made with an own
    history of 26 moves: the guard of the randomness check,
    [len(self.history) > 26], is false there; the move is Defect all the
    same, as the echo of three defections.  The guard is first true one
    round later, with a history of 27 moves. *)
Lemma Kluepfel_guard_at_round_27 (g : Rng) :
  exists own st g' st',
    play Kluepfel.strategy Kluepfel.init (repeat D 26) g = Ok (own, st, g')
    /\ length own = 26%nat
    /\ Kluepfel.randomness_check_due own = false
    /\ Kluepfel.strategy st own (repeat D 26) g' = Ok ((D, st'), g')
    /\ Kluepfel.randomness_check_due (own ++ [D]) = true.
Proof.
  destruct (Kluepfel_play_total (repeat D 26) g) as [own [st [g' E]]].
  assert (Hlen : length own = 26%nat).
  { apply play_from_lengths in E. rewrite repeat_length in E. exact E. }
  assert (Hdue : Kluepfel.randomness_check_due own = false)
    by (unfold Kluepfel.randomness_check_due; rewrite Hlen; reflexivity).
  destruct (Kluepfel_echoes_three_defections st own 23 g' Hlen Hdue)
    as [st' E'].
  exists own, st, g', st'.
  split; [exact E|]. split; [exact Hlen|]. split; [exact Hdue|].
  split; [exact E'|].
  unfold Kluepfel.randomness_check_due.
  rewrite length_app, Hlen. reflexivity.
Qed.





(** Against another opponent the guard shows in the moves: against
    [random_looking_opponent] and with the draws of [random_looking_rng],
    the counts that the call of round 27 has just updated are 7, 4, 9 and
    5, for which the inequality holds, and the move of round 27 is
    Cooperate. *)
Lemma Kluepfel_round_27_cooperates_with_random_looking :
  exists own st g' st',
    play Kluepfel.strategy Kluepfel.init random_looking_opponent
      random_looking_rng = Ok (own, st, g')
    /\ length own = 26%nat
    /\ Kluepfel.update_counts st own random_looking_opponent g' = Ok (st', g')
    /\ st' = Kluepfel.mkState 7 4 9 5
    /\ Kluepfel.looks_random st' = true
    /\ Kluepfel.strategy st own random_looking_opponent g' = Ok ((C, st'), g').
Proof.
  eexists. eexists. eexists. eexists.
  split; [vm_compute; reflexivity|].
  split; [reflexivity|].
  split; [vm_compute; reflexivity|].
  repeat split; vm_compute; reflexivity.
Qed.

(** ** Harrington's randomness test *)

(** What [detect_random] computes at a test round, where [turn - 2] is not
    zero: it returns, without a draw, and says "random" exactly when the
    first cell over [turn - 2] is below 0.8, the recorded defection rate
    lies in [0.25, 0.75] and the statistic of the source, which sums the
    terms whose expected count exceeds 1, is at most 3. *)
Lemma Harrington_detect_random_spec (st : Harrington.State) (turn : Z)
    (g : Rng) :
  (turn <> 2)%Z ->
  let denom := (turn - 2)%Z in
  let m := Harrington.move_history st in
  exists b,
    Harrington.detect_random st turn g = Ok (b, g)
    /\ (b = true <->
        ZQ (Harrington.cell m 0 0) / ZQ denom < 8 # 10
        /\ 25 # 100 <= ZQ (Harrington.recorded_defects st) / ZQ denom
        /\ ZQ (Harrington.recorded_defects st) / ZQ denom <= 75 # 100
        /\ Harrington.chi_squared m denom <= 3).
Proof.
  intros Hturn denom m.
  exists (Harrington.random_checks st denom). split.
  - unfold Harrington.detect_random. fold denom.
    destruct (Z.eqb_spec denom 0) as [E|_]; [unfold denom in E; lia|].
    reflexivity.
  - unfold Harrington.random_checks, Qgeb, Qgtb. fold m.
    rewrite <- Qltb_true, <- !Qleb_true.
    unfold Qltb, Qleb.
    destruct (Qle_bool (8 # 10) (ZQ (Harrington.cell m 0 0) / ZQ denom));
      destruct (Qle_bool (25 # 100)
                  (ZQ (Harrington.recorded_defects st) / ZQ denom));
      destruct (Qle_bool (ZQ (Harrington.recorded_defects st) / ZQ denom)
                  (75 # 100));
      destruct (Qle_bool (Harrington.chi_squared m denom) 3);
      cbn; intuition congruence.
Qed.

Lemma fold_left_ext_in {A B} (f f' : A -> B -> A) (l : list B) :
  (forall a b, In b l -> f a b = f' a b) ->
  forall a, fold_left f l a = fold_left f' l a.
Proof.
  induction l as [|b l IH]; intros H a; [reflexivity|].
  cbn [fold_left]. rewrite (H a b) by (left; reflexivity).
  apply IH. intros a' b' Hin. apply H. right. exact Hin.
Qed.

(** The statistic of the source and the documented one differ only
    through cells whose expected count is exactly 1. *)
Lemma Harrington_statistics_agree (m : list (list Z)) (denom : Z) :
  (forall i j, In (i, j) Harrington.cells ->
               ~ Harrington.expected m denom i j == 1) ->
  documented_chi_squared m denom = Harrington.chi_squared m denom.
Proof.
  intros H. unfold documented_chi_squared, Harrington.chi_squared.
  apply fold_left_ext_in. intros chi [i j] Hin.
  specialize (H i j Hin).
  unfold Qgtb.
  destruct (Qltb (Harrington.expected m denom i j) 1) eqn:E1;
    destruct (Qltb 1 (Harrington.expected m denom i j)) eqn:E2;
    try reflexivity.
  - apply Qltb_true in E1. apply Qltb_true in E2. lra.
  - apply Qltb_false in E1. apply Qltb_false in E2.
    exfalso. apply H. lra.
Qed.

(** Away from that boundary the test of the source is the documented
    one. *)
Lemma Harrington_checks_agree (st : Harrington.State) (denom : Z) :
  (forall i j, In (i, j) Harrington.cells ->
               ~ Harrington.expected (Harrington.move_history st) denom i j
                 == 1) ->
  Harrington.random_checks st denom = documented_random_checks st denom.
Proof.
  intros H.
  unfold Harrington.random_checks, documented_random_checks.
  rewrite (Harrington_statistics_agree _ _ H).
  unfold Qgeb, Qgtb, Qltb, Qleb.
  destruct (Qle_bool (8 # 10) _); destruct (Qle_bool (25 # 100) _);
    destruct (Qle_bool _ (75 # 100)); destruct (Qle_bool _ 3); reflexivity.
Qed.

(** C1. [detect_random] departs from its documented test where an expected
    count is exactly 1: the source sums a term only when its expected
    count exceeds 1, and so leaves out the terms of expected count 1, which
    the documented statistic keeps.  Against the opponent moves
    [boundary_opponent], whatever the random source is, the table of
    round 30 is [[16, 2], [2, 2], [1, 2], [2, 1]] with 7 recorded
    defections; the first cell over 28 is below 0.8 and the defection rate
    is 0.25; the expected count of cell (1, 1) is 4 * 7 / 28 = 1 and its
    observed count is 2.  The statistic of the source is 157/54, below 3:
    [detect_random] answers "random", and Harrington enters Defect mode
    and defects.  The documented statistic is 211/54, above 3, for which
    the opponent is not random. *)
Theorem C1_Harrington_detect_random_boundary (g : Rng) :
  exists own st st1 st2,
    play Harrington.strategy Harrington.init boundary_opponent g
    = Ok (own, st, g)
    /\ Harrington.update_history 30 st C g = Ok (st1, g)
    /\ Harrington.move_history st1 = [[16; 2]; [2; 2]; [1; 2]; [2; 1]]%Z
    /\ Harrington.recorded_defects st1 = 7%Z
    /\ Harrington.expected (Harrington.move_history st1) 28 1 1 == 1
    /\ Harrington.chi_squared (Harrington.move_history st1) 28 == 157 # 54
    /\ documented_chi_squared (Harrington.move_history st1) 28 == 211 # 54
    /\ Harrington.detect_random st1 30 g = Ok (true, g)
    /\ documented_random_checks st1 28 = false
    /\ Harrington.strategy st own boundary_opponent g = Ok ((D, st2), g)
    /\ Harrington.mode st2 = Harrington.Defect.
Proof.
  eexists. eexists. eexists. eexists.
  split; [vm_compute; reflexivity|].
  split; [vm_compute; reflexivity|].
  repeat split; vm_compute; reflexivity.
Qed.

(** * Instances

    Each property that has a hypothesis, applied to a concrete input on
    which its hypotheses hold. *)

(** C5 at round 40. *)
Lemma C5_witness_round_40 :
  (27 <= 40 <= 51)%nat
  /\ (action_at_round Borufsen.strategy Borufsen.init D 40 zero_rng = Ok D
      /\ exists own st,
           play Borufsen.strategy Borufsen.init (repeat D 40) zero_rng
           = Ok (own, st, zero_rng)
           /\ back 1 own = Ok D
           /\ Borufsen.mode st = Borufsen.Defect)
  /\ (28 <= 40 <= 51)%nat
  /\ Borufsen.mode_change (Z.of_nat 40) Borufsen.init
     = (Borufsen.init, false).
Proof.
  split; [lia|].
  split;
    [apply (proj1 (proj2 (C5_Borufsen_vs_defector zero_rng)) 40%nat); lia|].
  split; [lia|].
  apply (proj1 (proj2 (proj2 (C5_Borufsen_vs_defector zero_rng))) 40%nat
           Borufsen.init).
  lia.
Defined.


(** C6 on round 8, after six defections and one cooperation of the
    opponent. *)
Lemma C6_witness_six_defections :
  [D; D; D; D; D; D; C] <> []
  /\ exists own st st1 to_return st2,
       play Weiner.strategy Weiner.init [D; D; D; D; D; D; C] zero_rng
       = Ok (own, st, zero_rng)
       /\ Weiner.update_history st [D; D; D; D; D; D; C] zero_rng
          = Ok (st1, zero_rng)
       /\ zsum (Weiner.last_twelve st1)
          = lagged_defections [D; D; D; D; D; D; C]
       /\ Weiner.choose st1 own [D; D; D; D; D; D; C] zero_rng
          = Ok ((to_return, st2), zero_rng)
       /\ Weiner.strategy st own [D; D; D; D; D; D; C] zero_rng
          = Ok ((if (5 <=? lagged_defections [D; D; D; D; D; D; C])%Z
                 then D else to_return, st2), zero_rng).
Proof.
  split; [discriminate|].
  apply (C6_Weiner_lagged_override [D; D; D; D; D; D; C] zero_rng).
  discriminate.
Defined.

(** C7 on rounds 6, 16 and 31. *)
Lemma C7_witness_three_phases :
  Champion.strategy tt (repeat C 5) (repeat D 5) zero_rng
  = Ok ((C, tt), zero_rng)
  /\ (exists last,
         back 1 (repeat D 15) = Ok last
         /\ Champion.strategy tt (repeat C 15) (repeat D 15) zero_rng
            = Ok ((last, tt), zero_rng))
  /\ (exists a g',
         Champion.strategy tt (repeat C 30) (repeat D 30) zero_rng
         = Ok ((a, tt), g')
         /\ (a = D ->
             back 1 (repeat D 30) = Ok D
             /\ 4 # 10 <= defection_rate (repeat D 30)
             /\ cooperation_rate (repeat D 30) <= 6 # 10)
         /\ (~ (back 1 (repeat D 30) = Ok D
                /\ 4 # 10 <= defection_rate (repeat D 30)) -> a = C)).
Proof.
  split; [|split].
  - apply (proj1 (C7_Champion_phases (repeat C 5) (repeat D 5) zero_rng
                    eq_refl)).
    cbn. lia.
  - apply (proj1 (proj2 (C7_Champion_phases (repeat C 15) (repeat D 15)
                           zero_rng eq_refl))).
    cbn. lia.
  - apply (proj2 (proj2 (C7_Champion_phases (repeat C 30) (repeat D 30)
                           zero_rng eq_refl))).
    cbn. lia.
Defined.

(** C8 on the state that GraaskampKatzen reaches against eleven defections
    with the usual payoffs: a score of 9 at the checkpoint of round 11. *)
Lemma C8_witness_failed_checkpoint :
  GraaskampKatzen.mode (GraaskampKatzen.mkState 9 GraaskampKatzen.Defect)
  = GraaskampKatzen.Defect
  /\ play (GraaskampKatzen.strategy prisoners_dilemma) GraaskampKatzen.init
       (repeat D 11) zero_rng
     = Ok (C :: repeat D 10,
           GraaskampKatzen.mkState 9 GraaskampKatzen.Defect, zero_rng)
  /\ GraaskampKatzen.strategy prisoners_dilemma
       (GraaskampKatzen.mkState 9 GraaskampKatzen.Defect)
       (C :: repeat D 10) (repeat D 11) zero_rng
     = Ok ((D, GraaskampKatzen.mkState 9 GraaskampKatzen.Defect), zero_rng).
Proof.
  split; [reflexivity|]. split; [vm_compute; reflexivity|].
  apply (proj1 (C8_GraaskampKatzen_defect_is_absorbing prisoners_dilemma
                  (GraaskampKatzen.mkState 9 GraaskampKatzen.Defect)
                  eq_refl)).
Defined.

(** C9 on round 3. *)
Lemma C9_witness_round_3 :
  length [C; D] = length [D; C]
  /\ exists a st' g',
       Kluepfel.strategy Kluepfel.init [C; D] [D; C] zero_rng
       = Ok ((a, st'), g')
       /\ (a = C \/ a = D).
Proof.
  split; [reflexivity|].
  apply (proj1 (C9_Kluepfel_strategy_is_total Kluepfel.init [C; D] [D; C]
                  zero_rng eq_refl)).
Defined.

(** C10 on rounds 2 and 6. *)
Lemma C10_witness_rounds_2_and_6 :
  Tester.strategy Tester.init [D] [C] zero_rng
  = Ok ((C, Tester.init), zero_rng)
  /\ Tester_vs_cooperator 6 = flip (Tester_vs_cooperator (6 - 1)).
Proof.
  split.
  - apply (proj1 C10_Tester_opening_and_alternation);
      [discriminate|reflexivity|left; reflexivity].
  - apply (proj2 (proj2 (proj2 C10_Tester_opening_and_alternation))). lia.
Defined.

(** * Further properties of the strategies *)

(** ** Tester and Gladstein: apology and Tit-for-Tat *)

Lemma lastn_1_snoc (h : History) (o : Action) : lastn 1 (h ++ [o]) = [o].
Proof.
  unfold lastn. rewrite length_app. cbn [length].
  replace (length h + 1 - 1)%nat with (length h) by lia.
  rewrite skipn_app, skipn_all, Nat.sub_diag. reflexivity.
Qed.

Lemma Tester_tit_for_tat_step (own h : History) (o : Action) (g : Rng) :
  Tester.strategy (Tester.mkState true) own (h ++ [o]) g
  = Ok ((o, Tester.mkState true), g).
Proof.
  unfold Tester.strategy.
  destruct (h ++ [o]) as [|x l] eqn:E; [destruct h; discriminate|].
  rewrite <- E. cbn [Tester.is_TFT].
  unfold Tester.last_slice_is_D. rewrite lastn_1_snoc.
  destruct o; reflexivity.
Qed.

Lemma Tester_tit_for_tat_forever (opp_moves : list Action) :
  forall (own h : History) (o : Action) (g : Rng),
    play_from Tester.strategy opp_moves (Tester.mkState true) own (h ++ [o]) g
    = Ok (own ++ firstn (length opp_moves) (o :: opp_moves),
          Tester.mkState true, g).
Proof.
  induction opp_moves as [|o1 rest IH]; intros own h o g.
  - cbn. rewrite app_nil_r. reflexivity.
  - cbn [play_from]. rewrite Tester_tit_for_tat_step.
    rewrite (IH (own ++ [o]) (h ++ [o]) o1 g).
    rewrite <- app_assoc. reflexivity.
Qed.

Lemma Tester_apology (own h : History) (o1 : Action)
    (rest : list Action) (g : Rng) :
  play_from Tester.strategy (o1 :: rest) Tester.init own (h ++ [D]) g
  = Ok (own ++ C :: firstn (length rest) (o1 :: rest),
        Tester.mkState true, g).
Proof.
  cbn [play_from].
  assert (E : Tester.strategy Tester.init own (h ++ [D]) g
              = Ok ((C, Tester.mkState true), g)).
  { unfold Tester.strategy.
    destruct (h ++ [D]) as [|x l] eqn:E; [destruct h; discriminate|].
    rewrite <- E. cbn [Tester.is_TFT Tester.init].
    unfold bind, lift. rewrite back_1_snoc. reflexivity. }
  rewrite E, Tester_tit_for_tat_forever, <- app_assoc. reflexivity.
Qed.

(** X1. Once Tester, not yet in Tit-for-Tat, sees that the opponent's last
    move is a defection, it cooperates on that round, the apology, and on
    every later round of the match it repeats the opponent's previous
    move, whatever its own history is: its moves from the apology on are
    C followed by the opponent's moves delayed by one round, and the flag
    [is_TFT] is never lowered. *)
Theorem X1_Tester_apologises_then_mirrors (own h : History) (o1 : Action)
    (rest : list Action) (g : Rng) :
  play_from Tester.strategy (o1 :: rest) Tester.init own (h ++ [D]) g
  = Ok (own ++ C :: firstn (length rest) (o1 :: rest),
        Tester.mkState true, g).
Proof. apply Tester_apology. Qed.

Lemma Gladstein_tit_for_tat_forever (opp_moves : list Action) :
  forall (own h : History) (o : Action) (g : Rng),
    own <> [] ->
    play_from Gladstein.strategy opp_moves (Gladstein.mkState false) own
      (h ++ [o]) g
    = Ok (own ++ firstn (length opp_moves) (o :: opp_moves),
          Gladstein.mkState false, g).
Proof.
  induction opp_moves as [|o1 rest IH]; intros own h o g Hne.
  - cbn. rewrite app_nil_r. reflexivity.
  - cbn [play_from].
    assert (E : Gladstein.strategy (Gladstein.mkState false) own (h ++ [o]) g
                = Ok ((o, Gladstein.mkState false), g)).
    { unfold Gladstein.strategy. destruct own; [contradiction|].
      cbn [Gladstein.patsy]. unfold bind, lift. rewrite back_1_snoc.
      reflexivity. }
    rewrite E, (IH (own ++ [o]) (h ++ [o]) o1 g)
      by (destruct own; discriminate).
    rewrite <- app_assoc. reflexivity.
Qed.

Lemma Gladstein_apology (own h : History) (o1 : Action)
    (rest : list Action) (g : Rng) :
  own <> [] ->
  play_from Gladstein.strategy (o1 :: rest) Gladstein.init own (h ++ [D]) g
  = Ok (own ++ C :: firstn (length rest) (o1 :: rest),
        Gladstein.mkState false, g).
Proof.
  intros Hne. cbn [play_from].
  assert (E : Gladstein.strategy Gladstein.init own (h ++ [D]) g
              = Ok ((C, Gladstein.mkState false), g)).
  { unfold Gladstein.strategy. destruct own; [contradiction|].
    cbn [Gladstein.patsy Gladstein.init].
    unfold bind, lift. rewrite back_1_snoc. reflexivity. }
  rewrite E, Gladstein_tit_for_tat_forever by (destruct own; discriminate).
  rewrite <- app_assoc. reflexivity.
Qed.

(** A quotient of integers against a fraction, over the integers. *)
Lemma Qle_bool_div (a n p : Z) (q : positive) :
  (0 < n)%Z ->
  Qle_bool (ZQ a / ZQ n) (p # q) = (a * Zpos q <=? p * n)%Z.
Proof.
  intros Hn. destruct n as [|n|n]; try lia.
  unfold Qle_bool, ZQ, Qdiv, Qmult, Qinv, inject_Z.
  cbn [Qnum Qden]. rewrite Pos.mul_1_l, Z.mul_1_r. reflexivity.
Qed.

Lemma Qle_bool_div_r (a n p : Z) (q : positive) :
  (0 < n)%Z ->
  Qle_bool (p # q) (ZQ a / ZQ n) = (p * n <=? a * Zpos q)%Z.
Proof.
  intros Hn. destruct n as [|n|n]; try lia.
  unfold Qle_bool, ZQ, Qdiv, Qmult, Qinv, inject_Z.
  cbn [Qnum Qden]. rewrite Pos.mul_1_l, Z.mul_1_r. reflexivity.
Qed.

Lemma cooperations_snoc (h : History) (a : Action) :
  cooperations (h ++ [a])
  = (cooperations h + if Action_eqb C a then 1 else 0)%Z.
Proof.
  unfold cooperations. rewrite count_app. destruct a; reflexivity.
Qed.

Lemma Tester_vs_cooperator_parity (k : nat) :
  Tester_vs_cooperator (2 * k + 4) = D
  /\ Tester_vs_cooperator (2 * k + 5) = C.
Proof.
  split.
  - replace (2 * k + 4)%nat with (S (S (S (S (0 + 2 * k))))) by lia.
    unfold Tester_vs_cooperator.
    change (S (S (S (S (0 + 2 * k))))) with (4 + 2 * k)%nat.
    rewrite Nat.odd_add_mul_2. reflexivity.
  - replace (2 * k + 5)%nat with (S (S (S (S (S (0 + 2 * k)))))) by lia.
    unfold Tester_vs_cooperator.
    change (S (S (S (S (S (0 + 2 * k)))))) with (5 + 2 * k)%nat.
    rewrite Nat.odd_add_mul_2. reflexivity.
Qed.

(** The cooperations among the first [n] moves of that sequence. *)
Lemma Tester_vs_cooperator_cooperations (k : nat) :
  cooperations (map Tester_vs_cooperator (seq 1 (2 * k + 2)))
  = Z.of_nat (k + 1)
  /\ cooperations (map Tester_vs_cooperator (seq 1 (2 * k + 3)))
     = Z.of_nat (k + 2).
Proof.
  induction k as [|k [IH1 IH2]]; [split; reflexivity|].
  destruct (Tester_vs_cooperator_parity k) as [HD HC].
  assert (E1 : cooperations
                 (map Tester_vs_cooperator (seq 1 (2 * S k + 2)))
               = Z.of_nat (S k + 1)).
  { replace (2 * S k + 2)%nat with (S (2 * k + 3)) by lia.
    rewrite seq_S, map_app. cbn [map]. rewrite cooperations_snoc, IH2.
    replace (1 + (2 * k + 3))%nat with (2 * k + 4)%nat by lia.
    rewrite HD. cbn [Action_eqb]. lia. }
  split; [exact E1|].
  replace (2 * S k + 3)%nat with (S (2 * S k + 2)) by lia.
  rewrite seq_S, map_app. cbn [map]. rewrite cooperations_snoc, E1.
  replace (1 + (2 * S k + 2))%nat with (2 * k + 5)%nat by lia.
  rewrite HC. cbn [Action_eqb]. lia.
Qed.

Lemma Gladstein_step_vs_cooperator (n : nat) (g : Rng) :
  Gladstein.strategy Gladstein.init
    (map Tester_vs_cooperator (seq 1 n)) (repeat C n) g
  = Ok ((Tester_vs_cooperator (S n), Gladstein.init), g).
Proof.
  destruct n as [|[|n]]; [reflexivity|reflexivity|].
  unfold Gladstein.strategy.
  destruct (map Tester_vs_cooperator (seq 1 (S (S n)))) as [|x l] eqn:E;
    [discriminate|].
  rewrite <- E. clear x l E.
  cbn [Gladstein.patsy Gladstein.init].
  unfold bind, lift. rewrite back_1_repeat. cbn [Action_eqb].
  unfold pydiv, len. rewrite length_map, length_seq.
  destruct (Z.eqb_spec (Z.of_nat (S (S n))) 0) as [E0|_]; [lia|].
  unfold ret, Qgtb, Qltb.
  rewrite Qle_bool_div by lia.
  destruct (Nat.Even_or_Odd n) as [[k Hk]|[k Hk]]; subst n.
  - destruct (Tester_vs_cooperator_cooperations k) as [Hc _].
    replace (S (S (2 * k))) with (2 * k + 2)%nat by lia.
    rewrite Hc.
    replace (S (2 * k + 2)) with (2 * k + 3)%nat by lia.
    destruct k as [|k].
    + reflexivity.
    + destruct (Tester_vs_cooperator_parity k) as [_ HC].
      replace (2 * S k + 3)%nat with (2 * k + 5)%nat by lia.
      rewrite HC.
      destruct (Z.leb_spec (Z.of_nat (S k + 1) * 2) (1 * Z.of_nat (2 * S k + 2)));
        [reflexivity|lia].
  - destruct (Tester_vs_cooperator_cooperations k) as [_ Hc].
    replace (S (S (2 * k + 1))) with (2 * k + 3)%nat by lia.
    rewrite Hc.
    destruct (Tester_vs_cooperator_parity k) as [HD _].
    replace (S (2 * k + 3)) with (2 * k + 4)%nat by lia.
    rewrite HD.
    destruct (Z.leb_spec (Z.of_nat (k + 2) * 2) (1 * Z.of_nat (2 * k + 3)));
      [lia|reflexivity].
Qed.

Lemma Gladstein_run_vs_cooperator (n : nat) (g : Rng) :
  play Gladstein.strategy Gladstein.init (repeat C n) g
  = Ok (map Tester_vs_cooperator (seq 1 n), Gladstein.init, g).
Proof.
  induction n as [|n IH]; [reflexivity|].
  replace (repeat C (S n)) with (repeat C n ++ [C])
    by (symmetry; apply (repeat_cons n C)).
  rewrite play_snoc, IH, Gladstein_step_vs_cooperator.
  rewrite seq_S, map_app. reflexivity.
Qed.

Lemma leading_cooperations (l : list Action) :
  exists k, l = repeat C k \/ exists rest, l = repeat C k ++ D :: rest.
Proof.
  induction l as [|a l [k [IH|[rest IH]]]].
  - exists 0%nat. left. reflexivity.
  - destruct a.
    + exists (S k). left. rewrite IH. reflexivity.
    + exists 0%nat. right. exists l. reflexivity.
  - destruct a.
    + exists (S k). right. exists rest. rewrite IH. reflexivity.
    + exists 0%nat. right. exists l. reflexivity.
Qed.

(** X2. Gladstein and Tester are the same player: against every sequence
    of opponent moves, of any length, the two play the same moves, neither
    raises nor draws, and Tester is in Tit-for-Tat exactly when Gladstein
    has stopped treating the opponent as a patsy.  Gladstein's rule on the
    cooperation ratio and Tester's alternation choose the same moves while
    the opponent has not defected. *)
Theorem X2_Gladstein_plays_as_Tester (opp_moves : list Action) (g : Rng) :
  exists own tst gst,
    play Tester.strategy Tester.init opp_moves g = Ok (own, tst, g)
    /\ play Gladstein.strategy Gladstein.init opp_moves g = Ok (own, gst, g)
    /\ Tester.is_TFT tst = negb (Gladstein.patsy gst).
Proof.
  destruct (leading_cooperations opp_moves) as [k [->|[rest ->]]].
  - exists (map Tester_vs_cooperator (seq 1 k)), Tester.init, Gladstein.init.
    rewrite Tester_run_vs_cooperator, Gladstein_run_vs_cooperator.
    repeat split.
  - unfold play. rewrite !play_from_app.
    fold (play Tester.strategy Tester.init (repeat C k) g).
    fold (play Gladstein.strategy Gladstein.init (repeat C k) g).
    rewrite Tester_run_vs_cooperator, Gladstein_run_vs_cooperator.
    cbn [play_from app].
    rewrite Tester_step_vs_cooperator, Gladstein_step_vs_cooperator.
    destruct rest as [|o1 rest].
    + cbn [play_from]. eexists. eexists. eexists. repeat split.
    + rewrite Tester_apology, Gladstein_apology
        by (destruct (map Tester_vs_cooperator (seq 1 k)); discriminate).
      eexists. eexists. eexists. repeat split.
Qed.

(** ** MoreGrofman: the window of seven moves *)

Lemma MoreGrofman_slice_snoc (opp : History) (o : Action) :
  MoreGrofman.slice_m8_m1 (opp ++ [o]) = lastn 7 opp.
Proof.
  unfold MoreGrofman.slice_m8_m1, lastn.
  rewrite length_app. cbn [length]. rewrite skipn_app.
  replace (length opp + 1 - 8 - length opp)%nat with 0%nat by lia.
  replace (length opp + 1 - 8)%nat with (length opp - 7)%nat by lia.
  cbn [skipn]. apply removelast_last.
Qed.

(** X3. From round 8 on MoreGrofman does not look at the opponent's most
    recent move: its move is decided by its own last move and by the
    number of defections among the seven opponent moves that precede the
    most recent one.  After an own Cooperate it cooperates when that
    number is at most 2, after an own Defect when it is at most 1, and it
    defects otherwise. *)
Theorem X3_MoreGrofman_ignores_last_move (own opp : History)
    (mine o : Action) (g : Rng) :
  (6 <= length own)%nat ->
  MoreGrofman.strategy tt (own ++ [mine]) (opp ++ [o]) g
  = Ok ((if (count D (lastn 7 opp) <=? (if Action_eqb mine C then 2 else 1))%Z
         then C else D, tt), g).
Proof.
  intros Hlen. unfold MoreGrofman.strategy.
  rewrite length_app. cbn [length].
  destruct (Nat.ltb_spec (length own + 1) 2) as [H|_]; [lia|].
  destruct (Nat.leb_spec (length own + 1) 6) as [H|_]; [lia|].
  rewrite andb_false_r.
  unfold bind, lift. rewrite back_1_snoc, MoreGrofman_slice_snoc.
  destruct mine; cbn [Action_eqb andb];
    destruct (count D (lastn 7 opp) <=? _)%Z; reflexivity.
Qed.

Lemma X3_witness_round_8 :
  (6 <= length (repeat C 6))%nat
  /\ MoreGrofman.strategy tt (repeat C 6 ++ [C])
       ([D; D; D; C; C; C; C] ++ [D]) zero_rng
     = MoreGrofman.strategy tt (repeat C 6 ++ [C])
         ([D; D; D; C; C; C; C] ++ [C]) zero_rng.
Proof.
  split; [cbn; lia|].
  rewrite (X3_MoreGrofman_ignores_last_move (repeat C 6)
             [D; D; D; C; C; C; C] C D zero_rng) by (cbn; lia).
  rewrite (X3_MoreGrofman_ignores_last_move (repeat C 6)
             [D; D; D; C; C; C; C] C C zero_rng) by (cbn; lia).
  reflexivity.
Defined.

(** ** WmAdams: the first move is not counted *)

Lemma back_1_cons (a : Action) (rest : History) :
  rest <> [] -> back 1 (a :: rest) = back 1 rest.
Proof.
  intros Hne. destruct (exists_last Hne) as [h [x ->]].
  change (a :: h ++ [x]) with ((a :: h) ++ [x]).
  rewrite !back_1_snoc. reflexivity.
Qed.

(** X4. WmAdams does not count the opponent's first move: with the same
    own history and the same later opponent moves, it answers an opponent
    that opened with Defect as it answers one that opened with Cooperate,
    draw for draw. *)
Theorem X4_WmAdams_ignores_first_move (own rest : History) (g : Rng) :
  WmAdams.strategy tt own (D :: rest) g
  = WmAdams.strategy tt own (C :: rest) g.
Proof.
  unfold WmAdams.strategy.
  destruct (length own <=? 1)%nat; [reflexivity|].
  unfold bind, lift, at_index. cbn [nth_error Action_eqb].
  replace (defections (D :: rest) - 1)%Z with (defections (C :: rest))
    by (unfold defections, count; cbn [filter Action_eqb length]; lia).
  destruct rest as [|x rest].
  - reflexivity.
  - rewrite !(back_1_cons _ (x :: rest)) by discriminate. reflexivity.
Qed.

(** ** Never the first to defect *)

(** A match against an opponent that always cooperates, from a step that
    keeps an invariant of the state and of the number of rounds played. *)
Lemma play_vs_cooperator {St} (strat : Strategy St) (P : St -> nat -> Prop) :
  (forall n st g,
      P st n ->
      exists st',
        strat st (repeat C n) (repeat C n) g = Ok ((C, st'), g)
        /\ P st' (S n)) ->
  forall n init g,
    P init 0%nat ->
    exists st,
      play strat init (repeat C n) g = Ok (repeat C n, st, g) /\ P st n.
Proof.
  intros Hstep n init g H0.
  induction n as [|n [st [IH HP]]].
  - exists init. split; [reflexivity|exact H0].
  - destruct (Hstep n st g HP) as [st' [E HP']].
    exists st'. split; [|exact HP'].
    replace (repeat C (S n)) with (repeat C n ++ [C])
      by (symmetry; apply (repeat_cons n C)).
    rewrite play_snoc, IH, E. reflexivity.
Qed.

Lemma count_D_repeat_C (n : nat) : count D (repeat C n) = 0%Z.
Proof. induction n as [|n IH]; [reflexivity|exact IH]. Qed.

Lemma count_skipn_le (a : Action) (k : nat) (h : History) :
  (count a (skipn k h) <= count a h)%Z.
Proof.
  rewrite <- (firstn_skipn k h) at 2. rewrite count_app.
  pose proof (count_nonneg a (firstn k h)). lia.
Qed.

Lemma count_D_lastn_repeat_C (k n : nat) :
  count D (lastn k (repeat C n)) = 0%Z.
Proof.
  pose proof (count_skipn_le D (length (repeat C n) - k) (repeat C n)) as H.
  rewrite count_D_repeat_C in H.
  pose proof (count_nonneg D (lastn k (repeat C n))).
  unfold lastn in *. lia.
Qed.

Lemma Champion_cooperates_with_cooperator (n : nat) (g : Rng) :
  Champion.strategy tt (repeat C n) (repeat C n) g = Ok ((C, tt), g).
Proof.
  unfold Champion.strategy. rewrite repeat_length.
  destruct n as [|n]; [reflexivity|].
  cbn [Nat.eqb].
  destruct (S n <? 10)%nat; [reflexivity|].
  unfold bind, lift, pydiv, len. rewrite back_1_repeat, repeat_length.
  destruct (S n <? 25)%nat; [reflexivity|].
  destruct (Z.eqb_spec (Z.of_nat (S n)) 0) as [E|_]; [lia|].
  reflexivity.
Qed.

Lemma Eatherley_cooperates_with_cooperator (n : nat) (g : Rng) :
  Eatherley.strategy tt (repeat C n) (repeat C n) g = Ok ((C, tt), g).
Proof.
  unfold Eatherley.strategy. rewrite repeat_length.
  destruct n as [|n]; [reflexivity|].
  cbn [Nat.eqb]. unfold bind, lift. rewrite back_1_repeat. reflexivity.
Qed.

Lemma MoreGrofman_cooperates_with_cooperator (n : nat) (g : Rng) :
  MoreGrofman.strategy tt (repeat C n) (repeat C n) g = Ok ((C, tt), g).
Proof.
  unfold MoreGrofman.strategy. rewrite repeat_length.
  destruct (n <? 2)%nat eqn:E2; [reflexivity|].
  apply Nat.ltb_ge in E2.
  destruct n as [|n]; [lia|].
  unfold bind, lift. rewrite back_1_repeat.
  destruct ((2 <=? S n) && (S n <=? 6))%nat; [reflexivity|].
  replace (repeat C (S n)) with (repeat C n ++ [C])
    by (symmetry; apply (repeat_cons n C)).
  rewrite MoreGrofman_slice_snoc, count_D_lastn_repeat_C. reflexivity.
Qed.

Lemma Cave_cooperates_with_cooperator (n : nat) (g : Rng) :
  Cave.strategy tt (repeat C n) (repeat C n) g = Ok ((C, tt), g).
Proof.
  unfold Cave.strategy, len. rewrite repeat_length.
  destruct (Z.eqb_spec (Z.of_nat n + 1) 1) as [_|Hn]; [reflexivity|].
  destruct n as [|n]; [lia|].
  unfold defections. rewrite count_D_repeat_C.
  unfold bind, lift, pydiv.
  destruct (Z.eqb_spec (Z.of_nat (S n) + 1) 0) as [E|_]; [lia|].
  unfold ret, Qgtb, Qltb. rewrite !Qle_bool_div by lia.
  rewrite back_1_repeat.
  replace (0 * 100 <=? 39 * (Z.of_nat (S n) + 1))%Z with true
    by (symmetry; apply Z.leb_le; lia).
  replace (0 * 100 <=? 65 * (Z.of_nat (S n) + 1))%Z with true
    by (symmetry; apply Z.leb_le; lia).
  replace (0 * 100 <=? 79 * (Z.of_nat (S n) + 1))%Z with true
    by (symmetry; apply Z.leb_le; lia).
  cbn [negb andb]. rewrite !andb_false_r. reflexivity.
Qed.

Lemma WmAdams_cooperates_with_cooperator (n : nat) (g : Rng) :
  WmAdams.strategy tt (repeat C n) (repeat C n) g = Ok ((C, tt), g).
Proof.
  unfold WmAdams.strategy. rewrite repeat_length.
  destruct (n <=? 1)%nat eqn:E; [reflexivity|].
  destruct n as [|n]; [discriminate|].
  unfold defections. rewrite count_D_repeat_C. reflexivity.
Qed.

(** X5. Champion, Eatherley, MoreGrofman, Cave and WmAdams are never the
    first to defect: against an opponent that cooperates on every round,
    for a match of any length and whatever the random source is, every
    move is Cooperate and no draw is made. *)
Theorem X5_stateless_strategies_are_nice (n : nat) (g : Rng) :
  play Champion.strategy tt (repeat C n) g = Ok (repeat C n, tt, g)
  /\ play Eatherley.strategy tt (repeat C n) g = Ok (repeat C n, tt, g)
  /\ play MoreGrofman.strategy tt (repeat C n) g = Ok (repeat C n, tt, g)
  /\ play Cave.strategy tt (repeat C n) g = Ok (repeat C n, tt, g)
  /\ play WmAdams.strategy tt (repeat C n) g = Ok (repeat C n, tt, g).
Proof.
  assert (H : forall strat : Strategy unit,
             (forall k h, strat tt (repeat C k) (repeat C k) h
                          = Ok ((C, tt), h)) ->
             play strat tt (repeat C n) g = Ok (repeat C n, tt, g)).
  { intros strat Hstep.
    destruct (play_vs_cooperator strat (fun _ _ => True)) with (n := n)
      (init := tt) (g := g) as [[] [E _]]; [|exact I|exact E].
    intros k [] h _. exists tt. split; [apply Hstep|exact I]. }
  repeat split; apply H.
  - exact Champion_cooperates_with_cooperator.
  - exact Eatherley_cooperates_with_cooperator.
  - exact MoreGrofman_cooperates_with_cooperator.
  - exact Cave_cooperates_with_cooperator.
  - exact WmAdams_cooperates_with_cooperator.
Qed.

Lemma rev_repeat_action (a : Action) (n : nat) : rev (repeat a n) = repeat a n.
Proof.
  induction n as [|n IH]; [reflexivity|].
  cbn [repeat rev]. rewrite IH. symmetry. apply (repeat_cons n a).
Qed.

Lemma back_repeat (k n : nat) (a : Action) :
  (1 <= k <= n)%nat -> back k (repeat a n) = Ok a.
Proof.
  intros Hk. unfold back. rewrite rev_repeat_action.
  rewrite nth_error_repeat by lia. reflexivity.
Qed.

Lemma Kluepfel_back_or_C_repeat (k n : nat) (g : Rng) :
  (1 <= k)%nat -> Kluepfel.back_or_C k (repeat C n) g = Ok (C, g).
Proof.
  intros Hk. unfold Kluepfel.back_or_C. rewrite repeat_length.
  destruct (Nat.leb_spec k n); [|reflexivity].
  unfold lift. rewrite back_repeat by lia. reflexivity.
Qed.

Lemma Kluepfel_cooperates_with_cooperator (n : nat) (g : Rng) :
  Kluepfel.strategy (Kluepfel.mkState 0 0 (Z.of_nat (n - 2)) 0)
    (repeat C n) (repeat C n) g
  = Ok ((C, Kluepfel.mkState 0 0 (Z.of_nat (S n - 2)) 0), g).
Proof.
  unfold Kluepfel.strategy, Kluepfel.update_counts.
  rewrite repeat_length.
  assert (Htail : forall st,
             (Kluepfel.randomness_check_due (repeat C n)
              && Kluepfel.looks_random st = false) ->
             (if Kluepfel.randomness_check_due (repeat C n)
                 && Kluepfel.looks_random st
              then ret (D, st)
              else
                one_move_ago <- Kluepfel.back_or_C 1 (repeat C n) ;;
                two_moves_ago <- Kluepfel.back_or_C 2 (repeat C n) ;;
                three_moves_ago <- Kluepfel.back_or_C 3 (repeat C n) ;;
                a <- Kluepfel.respond one_move_ago two_moves_ago
                       three_moves_ago ;;
                ret (a, st)) g = Ok ((C, st), g)).
  { intros st ->. unfold bind.
    rewrite !Kluepfel_back_or_C_repeat by lia. reflexivity. }
  destruct (Nat.leb_spec 2 n) as [Hn|Hn].
  - unfold bind at 1. unfold bind at 1. unfold lift.
    rewrite (back_repeat 2 n C) by lia. cbn [Action_eqb].
    unfold bind at 1. rewrite (back_repeat 1 n C) by lia.
    cbn [Action_eqb ret].
    cbn [Kluepfel.cd_counts Kluepfel.dd_counts Kluepfel.dc_counts
         Kluepfel.cc_counts].
    replace (Z.of_nat (n - 2) + 1)%Z with (Z.of_nat (S n - 2)) by lia.
    apply Htail.
    unfold Kluepfel.randomness_check_due. rewrite repeat_length.
    destruct (Nat.ltb_spec 26 n) as [H26|_]; [|reflexivity].
    unfold Kluepfel.looks_random, Kluepfel.above_lower_bound.
    cbn [Kluepfel.cd_counts Kluepfel.dd_counts Kluepfel.dc_counts
         Kluepfel.cc_counts andb].
    apply andb_false_iff. right.
    apply andb_false_iff. right.
    apply orb_false_iff. split; apply Z.leb_gt; nia.
  - unfold bind at 1. unfold ret at 1.
    replace (S n - 2)%nat with (n - 2)%nat by lia.
    apply Htail.
    unfold Kluepfel.randomness_check_due. rewrite repeat_length.
    destruct (Nat.ltb_spec 26 n) as [H26|_]; [lia|reflexivity].
Qed.

(** X6. Kluepfel is never the first to defect: against an opponent that
    cooperates on every round, for a match of any length and whatever the
    random source is, every move is Cooperate and no draw is made; the
    randomness check, once it is due, never classifies that opponent as
    random.  All the responses are recorded in [dc_counts], the counter
    that the source increments when the opponent cooperates after an own
    cooperation. *)
Theorem X6_Kluepfel_is_nice (n : nat) (g : Rng) :
  play Kluepfel.strategy Kluepfel.init (repeat C n) g
  = Ok (repeat C n, Kluepfel.mkState 0 0 (Z.of_nat (n - 2)) 0, g).
Proof.
  destruct (play_vs_cooperator Kluepfel.strategy
              (fun st k => st = Kluepfel.mkState 0 0 (Z.of_nat (k - 2)) 0))
    with (n := n) (init := Kluepfel.init) (g := g) as [st [E ->]].
  - intros k st h ->. eexists. split; [|reflexivity].
    apply Kluepfel_cooperates_with_cooperator.
  - reflexivity.
  - exact E.
Qed.

Lemma set_index_zeros (i : nat) :
  (i < 12)%nat -> set_index i 0%Z (repeat 0%Z 12) = Ok (repeat 0%Z 12).
Proof.
  intros Hi.
  do 12 (destruct i as [|i]; [reflexivity|]). lia.
Qed.

Lemma Weiner_cooperates_with_cooperator (n : nat) (g : Rng) :
  Weiner.strategy
    (Weiner.mkState false 0 0 (repeat 0%Z 12) ((n - 2) mod 12))
    (repeat C n) (repeat C n) g
  = Ok ((C, Weiner.mkState false 0 0 (repeat 0%Z 12) ((S n - 2) mod 12)), g).
Proof.
  unfold Weiner.strategy. rewrite repeat_length.
  destruct n as [|n]; [reflexivity|].
  cbn [Nat.eqb].
  unfold Weiner.update_history. rewrite repeat_length.
  assert (Hchoose : forall i,
             (choice <- Weiner.choose
                          (Weiner.mkState false 0 0 (repeat 0%Z 12) i)
                          (repeat C (S n)) (repeat C (S n)) ;;
              (let '(to_return, st) := choice in
               ret (Weiner.try_return st to_return, st))) g
             = Ok ((C, Weiner.mkState false 0 0 (repeat 0%Z 12) i), g)).
  { intros i. unfold Weiner.choose, bind, lift, ret.
    rewrite back_1_repeat. reflexivity. }
  destruct (Nat.leb_spec 2 (S n)) as [Hn|Hn].
  - unfold bind at 1. unfold bind at 1. unfold lift at 1.
    rewrite (back_repeat 2 (S n) C) by lia. cbn [Action_eqb].
    unfold bind at 1. unfold lift at 1.
    cbn [Weiner.lt_index Weiner.last_twelve].
    rewrite set_index_zeros by (apply Nat.mod_upper_bound; lia).
    cbn [ret Weiner.forgive_flag Weiner.grudge Weiner.defect_padding].
    replace (((S n - 2) mod 12 + 1) mod 12)%nat with ((S (S n) - 2) mod 12)%nat.
    + apply Hchoose.
    + rewrite Nat.Div0.add_mod_idemp_l. f_equal. lia.
  - unfold bind at 1. unfold ret at 1.
    replace (S (S n) - 2)%nat with (S n - 2)%nat by lia.
    apply Hchoose.
Qed.

(** X7. Weiner is never the first to defect: against an opponent that
    cooperates on every round, for a match of any length, every move is
    Cooperate; the buffer of the override stays at twelve zeros, no
    forgiveness is armed and no grudge is built, while the ring index
    keeps circling. *)
Theorem X7_Weiner_is_nice (n : nat) (g : Rng) :
  play Weiner.strategy Weiner.init (repeat C n) g
  = Ok (repeat C n,
        Weiner.mkState false 0 0 (repeat 0%Z 12) ((n - 2) mod 12), g).
Proof.
  destruct (play_vs_cooperator Weiner.strategy
              (fun st k =>
                 st = Weiner.mkState false 0 0 (repeat 0%Z 12)
                        ((k - 2) mod 12)))
    with (n := n) (init := Weiner.init) (g := g) as [st [E ->]].
  - intros k st h ->. eexists. split; [|reflexivity].
    apply Weiner_cooperates_with_cooperator.
  - reflexivity.
  - exact E.
Qed.

(** ** GraaskampKatzen: the score and the checkpoints *)

Lemma play_from_invariant_hist {St} (strat : Strategy St)
    (P : St -> History -> History -> Prop) :
  (forall st own opp g a st' g' o,
      P st own opp -> strat st own opp g = Ok ((a, st'), g') ->
      P st' (own ++ [a]) (opp ++ [o])) ->
  forall opp_moves st own opp g own' st' g',
    P st own opp ->
    play_from strat opp_moves st own opp g = Ok (own', st', g') ->
    P st' own' (opp ++ opp_moves).
Proof.
  intros Hstep opp_moves.
  induction opp_moves as [|o rest IH]; intros st own opp g own' st' g' HP H;
    cbn [play_from] in H.
  - injection H as <- <- _. rewrite app_nil_r. exact HP.
  - destruct (strat st own opp g) as [[[a st1] g1]|e] eqn:E; [|discriminate].
    replace (opp ++ o :: rest) with ((opp ++ [o]) ++ rest)
      by (rewrite <- app_assoc; reflexivity).
    apply (IH _ _ _ _ _ _ _ (Hstep _ _ _ _ _ _ _ o HP E) H).
Qed.

Lemma combine_snoc {A B} (l1 : list A) (l2 : list B) (a : A) (b : B) :
  length l1 = length l2 ->
  combine (l1 ++ [a]) (l2 ++ [b]) = combine l1 l2 ++ [(a, b)].
Proof.
  revert l2. induction l1 as [|x l1 IH]; intros [|y l2] H;
    try discriminate; [reflexivity|].
  cbn [app combine]. rewrite IH by (cbn in H; lia). reflexivity.
Qed.

Lemma own_payoffs_snoc (score : Payoff) (own opp : History) (a b : Action) :
  length own = length opp ->
  own_payoffs score (own ++ [a]) (opp ++ [b])
  = (own_payoffs score own opp + fst (score a b))%Z.
Proof.
  intros H. unfold own_payoffs.
  rewrite combine_snoc by exact H.
  rewrite map_app, zsum_app. cbn. lia.
Qed.

Lemma GraaskampKatzen_step_score (score : Payoff)
    (st : GraaskampKatzen.State) (own opp : History) (g : Rng)
    (a : Action) (st' : GraaskampKatzen.State) (g' : Rng) (o : Action) :
  GraaskampKatzen_score_ok score st own opp ->
  GraaskampKatzen.strategy score st own opp g = Ok ((a, st'), g') ->
  GraaskampKatzen_score_ok score st' (own ++ [a]) (opp ++ [o]).
Proof.
  intros [Hlen Hscore] H.
  split; [rewrite !length_app; cbn; lia|].
  rewrite !removelast_last.
  unfold GraaskampKatzen.strategy in H.
  destruct (GraaskampKatzen.mode st) eqn:Hmode.
  - specialize (Hscore eq_refl).
    destruct own as [|x own'] using rev_ind.
    + cbn in H. injection H as _ <- _. intros _.
      rewrite Hscore. destruct opp; [reflexivity|discriminate].
    + clear IHown'.
      destruct opp as [|y opp'] using rev_ind;
        [rewrite length_app in Hlen; cbn in Hlen; lia|].
      clear IHopp'.
      rewrite !length_app in Hlen. cbn [length] in Hlen.
      rewrite !removelast_last in Hscore.
      unfold len in H. rewrite length_app in H. cbn [length] in H.
      destruct (Z.eqb_spec (Z.of_nat (length own' + 1) + 1) 1) as [E|_];
        [lia|].
      unfold GraaskampKatzen.update_score, bind, lift, ret in H.
      rewrite !back_1_snoc in H.
      cbn [GraaskampKatzen.own_score GraaskampKatzen.mode] in H.
      rewrite Hmode in H.
      destruct (GraaskampKatzen.fails_checkpoint _ _) in H.
      * injection H as _ <- _. discriminate.
      * injection H as _ <- _. intros _.
        cbn [GraaskampKatzen.own_score].
        rewrite own_payoffs_snoc by lia. rewrite Hscore. reflexivity.
  - injection H as _ <- _. rewrite Hmode. discriminate.
Qed.

(** X8. GraaskampKatzen tracks its own score: in every match of a fresh
    player, for every payoff function, every opponent and any number of
    rounds, as long as the player is in Normal mode its field [own_score]
    is the sum of its payoffs over all the rounds played but the last,
    whose payoff is added at the start of the next call. *)
Theorem X8_GraaskampKatzen_tracks_its_score (score : Payoff)
    (opp_moves : list Action) (g : Rng) (own : History)
    (st : GraaskampKatzen.State) (g' : Rng) :
  play (GraaskampKatzen.strategy score) GraaskampKatzen.init opp_moves g
  = Ok (own, st, g') ->
  GraaskampKatzen.mode st = GraaskampKatzen.Normal ->
  GraaskampKatzen.own_score st
  = own_payoffs score (removelast own) (removelast opp_moves).
Proof.
  intros Hplay Hmode.
  destruct (play_from_invariant_hist (GraaskampKatzen.strategy score)
              (GraaskampKatzen_score_ok score)
              (GraaskampKatzen_step_score score)
              opp_moves GraaskampKatzen.init [] [] g own st g')
    as [_ H]; [split; reflexivity|exact Hplay|].
  apply H. exact Hmode.
Qed.

Lemma X8_witness_three_rounds :
  play (GraaskampKatzen.strategy prisoners_dilemma) GraaskampKatzen.init
    [C; D; C] zero_rng
  = Ok ([C; C; D], GraaskampKatzen.mkState 3 GraaskampKatzen.Normal, zero_rng)
  /\ GraaskampKatzen.own_score
       (GraaskampKatzen.mkState 3 GraaskampKatzen.Normal)
     = own_payoffs prisoners_dilemma (removelast [C; C; D])
         (removelast [C; D; C]).
Proof.
  split; [reflexivity|].
  apply (X8_GraaskampKatzen_tracks_its_score prisoners_dilemma [C; D; C]
           zero_rng [C; C; D]
           (GraaskampKatzen.mkState 3 GraaskampKatzen.Normal) zero_rng);
    reflexivity.
Defined.

Lemma GraaskampKatzen_cooperates_with_cooperator (score : Payoff)
    (n : nat) (g : Rng) :
  (3 <= fst (score C C))%Z ->
  GraaskampKatzen.strategy score
    (GraaskampKatzen.mkState (fst (score C C) * Z.of_nat (n - 1))
       GraaskampKatzen.Normal)
    (repeat C n) (repeat C n) g
  = Ok ((C, GraaskampKatzen.mkState (fst (score C C) * Z.of_nat (S n - 1))
              GraaskampKatzen.Normal), g).
Proof.
  intros HR. unfold GraaskampKatzen.strategy.
  cbn [GraaskampKatzen.mode]. unfold len. rewrite repeat_length.
  destruct n as [|n]; [reflexivity|].
  destruct (Z.eqb_spec (Z.of_nat (S n) + 1) 1) as [E|_]; [lia|].
  unfold GraaskampKatzen.update_score, bind, lift, ret.
  rewrite back_1_repeat.
  cbn [GraaskampKatzen.own_score GraaskampKatzen.mode].
  replace (fst (score C C) * Z.of_nat (S n - 1) + fst (score C C))%Z
    with (fst (score C C) * Z.of_nat (S (S n) - 1))%Z by lia.
  replace (GraaskampKatzen.fails_checkpoint (Z.of_nat (S n) + 1)
             (fst (score C C) * Z.of_nat (S (S n) - 1))) with false;
    [reflexivity|].
  symmetry. checkpoint_passes.
Qed.

(** X9. With a payoff for mutual cooperation of at least 3 points,
    GraaskampKatzen is never the first to defect: against an opponent that
    cooperates on every round it passes every score checkpoint, stays in
    Normal mode and cooperates on every round, for a match of any length;
    after [n >= 1] rounds its recorded score is the payoff of [n - 1]
    mutual cooperations. *)
Theorem X9_GraaskampKatzen_is_nice (score : Payoff) (n : nat) (g : Rng) :
  (3 <= fst (score C C))%Z ->
  play (GraaskampKatzen.strategy score) GraaskampKatzen.init (repeat C n) g
  = Ok (repeat C n,
        GraaskampKatzen.mkState (fst (score C C) * Z.of_nat (n - 1))
          GraaskampKatzen.Normal, g).
Proof.
  intros HR.
  destruct (play_vs_cooperator (GraaskampKatzen.strategy score)
              (fun st k =>
                 st = GraaskampKatzen.mkState
                        (fst (score C C) * Z.of_nat (k - 1))
                        GraaskampKatzen.Normal))
    with (n := n) (init := GraaskampKatzen.init) (g := g) as [st [E ->]].
  - intros k st h ->. eexists. split; [|reflexivity].
    apply GraaskampKatzen_cooperates_with_cooperator. exact HR.
  - unfold GraaskampKatzen.init. f_equal. cbn. lia.
  - exact E.
Qed.

Lemma X9_witness_usual_payoffs :
  (3 <= fst (prisoners_dilemma C C))%Z
  /\ play (GraaskampKatzen.strategy prisoners_dilemma) GraaskampKatzen.init
       (repeat C 120) zero_rng
     = Ok (repeat C 120,
           GraaskampKatzen.mkState
             (fst (prisoners_dilemma C C) * Z.of_nat (120 - 1))
             GraaskampKatzen.Normal, zero_rng).
Proof.
  split; [cbn; lia|].
  apply (X9_GraaskampKatzen_is_nice prisoners_dilemma 120 zero_rng).
  cbn. lia.
Defined.

Lemma GraaskampKatzen_mode_changes_at_checkpoints (score : Payoff)
    (st : GraaskampKatzen.State) (own opp : History) (g : Rng)
    (a : Action) (st' : GraaskampKatzen.State) (g' : Rng) :
  GraaskampKatzen.strategy score st own opp g = Ok ((a, st'), g') ->
  GraaskampKatzen.mode st = GraaskampKatzen.Normal ->
  GraaskampKatzen.mode st' = GraaskampKatzen.Defect ->
  In (len own + 1)%Z [11; 21; 31; 41; 51; 101]%Z /\ a = D.
Proof.
  intros H Hmode Hmode'. unfold GraaskampKatzen.strategy in H.
  rewrite Hmode in H.
  destruct (len own + 1 =? 1)%Z.
  - injection H as _ <- _. congruence.
  - unfold GraaskampKatzen.update_score, bind, lift, ret in H.
    destruct (back 1 own); [|discriminate].
    destruct (back 1 opp); [|discriminate].
    cbn [GraaskampKatzen.own_score GraaskampKatzen.mode] in H.
    destruct (GraaskampKatzen.fails_checkpoint _ _) eqn:E in H.
    + injection H as <- _ _. split; [|reflexivity].
      unfold GraaskampKatzen.fails_checkpoint in E.
      cbn [In].
      repeat match type of E with
             | (_ || _ = true)%bool =>
                 apply orb_true_iff in E; destruct E as [E|E]
             end;
        apply andb_true_iff in E; destruct E as [E _];
        apply Z.eqb_eq in E; rewrite E; auto 10.
    + injection H as _ <- _. cbn in Hmode'. congruence.
Qed.

Lemma GraaskampKatzen_mirrors_after_round_101 (score : Payoff)
    (opp_moves : list Action) :
  forall (st : GraaskampKatzen.State) (own h : History) (o : Action)
         (g : Rng),
    GraaskampKatzen.mode st = GraaskampKatzen.Normal ->
    (101 <= length own)%nat ->
    exists st',
      play_from (GraaskampKatzen.strategy score) opp_moves st own
        (h ++ [o]) g
      = Ok (own ++ firstn (length opp_moves) (o :: opp_moves), st', g)
      /\ GraaskampKatzen.mode st' = GraaskampKatzen.Normal.
Proof.
  induction opp_moves as [|o1 rest IH]; intros st own h o g Hmode Hlen.
  - exists st. cbn. rewrite app_nil_r. split; [reflexivity|exact Hmode].
  - cbn [play_from].
    assert (E : exists st1,
               GraaskampKatzen.strategy score st own (h ++ [o]) g
               = Ok ((o, st1), g)
               /\ GraaskampKatzen.mode st1 = GraaskampKatzen.Normal).
    { unfold GraaskampKatzen.strategy. rewrite Hmode. unfold len.
      destruct (Z.eqb_spec (Z.of_nat (length own) + 1) 1) as [E|_]; [lia|].
      destruct (back_defined 1 own) as [mine Hmine]; [lia|].
      unfold GraaskampKatzen.update_score, bind, lift, ret.
      rewrite Hmine, back_1_snoc.
      cbn [GraaskampKatzen.own_score GraaskampKatzen.mode].
      replace (GraaskampKatzen.fails_checkpoint _ _) with false.
      - eexists. split; [reflexivity|exact Hmode].
      - symmetry. checkpoint_passes. }
    destruct E as [st1 [E Hmode1]]. rewrite E.
    destruct (IH st1 (own ++ [o]) (h ++ [o]) o1 g Hmode1) as [st' [E' Hm]];
      [rewrite length_app; lia|].
    exists st'. split; [|exact Hm].
    rewrite E', <- app_assoc. reflexivity.
Qed.

(** X10. GraaskampKatzen can enter Defect mode only on one of the rounds
    11, 21, 31, 41, 51 and 101, and it defects on the round it does.  A
    player that is still in Normal mode once 101 rounds have been played
    stays in Normal mode and repeats the opponent's previous move on every
    later round, whatever its score is. *)
Theorem X10_GraaskampKatzen_checkpoints (score : Payoff) :
  (forall st own opp g a st' g',
      GraaskampKatzen.strategy score st own opp g = Ok ((a, st'), g') ->
      GraaskampKatzen.mode st = GraaskampKatzen.Normal ->
      GraaskampKatzen.mode st' = GraaskampKatzen.Defect ->
      In (len own + 1)%Z [11; 21; 31; 41; 51; 101]%Z /\ a = D)
  /\ (forall opp_moves st own h o g,
         GraaskampKatzen.mode st = GraaskampKatzen.Normal ->
         (101 <= length own)%nat ->
         exists st',
           play_from (GraaskampKatzen.strategy score) opp_moves st own
             (h ++ [o]) g
           = Ok (own ++ firstn (length opp_moves) (o :: opp_moves), st', g)
           /\ GraaskampKatzen.mode st' = GraaskampKatzen.Normal).
Proof.
  split.
  - apply GraaskampKatzen_mode_changes_at_checkpoints.
  - intros. apply GraaskampKatzen_mirrors_after_round_101; assumption.
Qed.

Lemma X10_witness_after_round_101 :
  exists st',
    play_from (GraaskampKatzen.strategy prisoners_dilemma) [C; D]
      (GraaskampKatzen.mkState 0 GraaskampKatzen.Normal) (repeat C 101)
      (repeat C 100 ++ [D]) zero_rng
    = Ok (repeat C 101 ++ firstn (length [C; D]) (D :: [C; D]), st', zero_rng)
    /\ GraaskampKatzen.mode st' = GraaskampKatzen.Normal.
Proof.
  apply (proj2 (X10_GraaskampKatzen_checkpoints prisoners_dilemma));
    [reflexivity|cbn; lia].
Defined.

(** ** Borufsen: Defect mode *)

Lemma Borufsen_update_counts_returns (st : Borufsen.State)
    (own opp : History) (g : Rng) :
  length own = length opp ->
  exists st1,
    Borufsen.update_counts (len own + 1) st own opp g = Ok (st1, g)
    /\ Borufsen.mode st1 = Borufsen.mode st
    /\ Borufsen.mutual_defect_streak st1 = Borufsen.mutual_defect_streak st
    /\ Borufsen.echo_streak st1 = Borufsen.echo_streak st
    /\ Borufsen.flip_next_defect st1 = Borufsen.flip_next_defect st.
Proof.
  intros Hlen. unfold Borufsen.update_counts, len.
  destruct (Z.leb_spec 3 (Z.of_nat (length own) + 1)) as [H|H].
  - destruct (back_defined 1 opp) as [o Ho]; [lia|].
    destruct (back_defined 2 own) as [m Hm]; [lia|].
    unfold bind, lift, ret. rewrite Ho.
    destruct (Action_eqb o C).
    + rewrite Hm. destruct (Action_eqb m C); eexists; repeat split.
    + eexists; repeat split.
  - exists st. repeat split.
Qed.

(** X11. In Defect mode Borufsen defects on every round, the round of a
    mode evaluation included: an evaluation that returns the player to
    Normal mode still answers Defect on that round.  Away from the
    evaluation rounds, those whose number is 2 modulo 25, the mode stays
    Defect.  So a Defect mode entered at an evaluation lasts, in moves,
    through the next evaluation round. *)
Theorem X11_Borufsen_defect_mode_defects (st : Borufsen.State)
    (own opp : History) (g : Rng) :
  Borufsen.mode st = Borufsen.Defect ->
  length own = length opp ->
  own <> [] ->
  exists st',
    Borufsen.strategy st own opp g = Ok ((D, st'), g)
    /\ (((len own + 1) mod 25 <> 2)%Z ->
        Borufsen.mode st' = Borufsen.Defect).
Proof.
  intros Hmode Hlen Hne.
  destruct (Borufsen_update_counts_returns st own opp g Hlen)
    as [st1 [E [Hm1 _]]].
  unfold Borufsen.strategy.
  assert (Hturn : (len own + 1 =? 1)%Z = false).
  { apply Z.eqb_neq. unfold len. destruct own; [contradiction|].
    cbn [length]. lia. }
  rewrite Hturn. unfold bind at 1. rewrite E.
  unfold Borufsen.mode_change.
  destruct ((2 <? len own + 1) && ((len own + 1) mod 25 =? 2))%Z eqn:Eeval.
  - rewrite Hm1, Hmode. cbn [Borufsen.Mode_eqb andb].
    destruct (Borufsen.evaluated_mode st1); cbn [Borufsen.Mode_eqb andb].
    + eexists. split; [reflexivity|].
      apply andb_true_iff in Eeval. destruct Eeval as [_ Eeval].
      apply Z.eqb_eq in Eeval. intros Hn. contradiction.
    + eexists. split; [reflexivity|]. intros _. reflexivity.
  - rewrite Hm1, Hmode.
    eexists. split; [reflexivity|]. intros _. rewrite Hm1. exact Hmode.
Qed.

Lemma X11_witness_round_30 :
  exists st',
    Borufsen.strategy (Borufsen.mkState 0 0 0 0 false Borufsen.Defect)
      (repeat D 29) (repeat C 29) zero_rng
    = Ok ((D, st'), zero_rng)
    /\ (((len (repeat D 29) + 1) mod 25 <> 2)%Z ->
        Borufsen.mode st' = Borufsen.Defect).
Proof.
  apply (X11_Borufsen_defect_mode_defects
           (Borufsen.mkState 0 0 0 0 false Borufsen.Defect)
           (repeat D 29) (repeat C 29) zero_rng);
    [reflexivity|reflexivity|discriminate].
Defined.

(** ** Borufsen against a cooperator *)

Lemma Borufsen_normal_mode_vs_cooperator (n : nat) (c : Z) (g : Rng) :
  (1 <= n)%nat ->
  Borufsen.normal_mode (Z.of_nat n + 1)
    (Borufsen.mkState 0 c 0 0 false Borufsen.Normal)
    (repeat C n) (repeat C n) g
  = Ok ((C, Borufsen.mkState 0 c 0 0 false Borufsen.Normal), g).
Proof.
  intros Hn. unfold Borufsen.normal_mode, bind, lift, ret.
  rewrite (back_repeat 1 n C) by lia. cbn [Action_eqb andb negb].
  cbn [Z.leb Z.compare].
  destruct (Z.leb_spec 3 (Z.of_nat n + 1)) as [H|H].
  - rewrite (back_repeat 2 n C) by lia. reflexivity.
  - reflexivity.
Qed.

Lemma Borufsen_cooperates_with_cooperator (n : nat) (g : Rng) :
  Borufsen.strategy
    (Borufsen.mkState 0 (Z.max 0 (Z.of_nat n - 2) mod 25) 0 0 false
       Borufsen.Normal)
    (repeat C n) (repeat C n) g
  = Ok ((C, Borufsen.mkState 0 (Z.max 0 (Z.of_nat (S n) - 2) mod 25) 0 0 false
              Borufsen.Normal), g).
Proof.
  unfold Borufsen.strategy, len. rewrite repeat_length.
  destruct n as [|n]; [reflexivity|].
  destruct (Z.eqb_spec (Z.of_nat (S n) + 1) 1) as [E|_]; [lia|].
  unfold Borufsen.update_counts.
  destruct (Z.leb_spec 3 (Z.of_nat (S n) + 1)) as [H3|H3].
  - unfold bind at 1. unfold bind at 1. unfold lift at 1.
    rewrite (back_repeat 1 (S n) C) by lia. cbn [Action_eqb].
    unfold bind at 1. unfold lift at 1.
    rewrite (back_repeat 2 (S n) C) by lia. cbn [Action_eqb ret].
    cbn [Borufsen.cd_counts Borufsen.cc_counts Borufsen.mutual_defect_streak
         Borufsen.echo_streak Borufsen.flip_next_defect Borufsen.mode].
    unfold Borufsen.mode_change.
    destruct (Z.ltb_spec 2 (Z.of_nat (S n) + 1)) as [_|H2]; [|lia].
    cbn [andb].
    destruct (Z.eqb_spec ((Z.of_nat (S n) + 1) mod 25) 2) as [Eeval|Eeval].
    + assert (Hc : (Z.max 0 (Z.of_nat (S n) - 2) mod 25 + 1 = 25)%Z).
      { revert Eeval. Z.div_mod_to_equations. lia. }
      unfold Borufsen.evaluated_mode, Borufsen.coops.
      cbn [Borufsen.cd_counts Borufsen.cc_counts Borufsen.mutual_defect_streak
           Borufsen.echo_streak Borufsen.flip_next_defect Borufsen.mode].
      rewrite Z.add_0_l, Hc.
      cbn [Z.ltb Z.leb Z.compare Pos.compare Pos.compare_cont andb
           Borufsen.Mode_eqb Borufsen.mode].
      replace (Z.max 0 (Z.of_nat (S (S n)) - 2) mod 25)%Z with 0%Z
        by (revert Eeval; Z.div_mod_to_equations; lia).
      apply (Borufsen_normal_mode_vs_cooperator (S n) 0 g). lia.
    + cbn [Borufsen.mode].
      replace (Z.max 0 (Z.of_nat (S (S n)) - 2) mod 25)%Z
        with (Z.max 0 (Z.of_nat (S n) - 2) mod 25 + 1)%Z
        by (revert Eeval; Z.div_mod_to_equations; lia).
      apply (Borufsen_normal_mode_vs_cooperator (S n) _ g). lia.
  - unfold bind at 1. unfold ret at 1.
    unfold Borufsen.mode_change.
    destruct (Z.ltb_spec 2 (Z.of_nat (S n) + 1)) as [H2|_]; [lia|].
    cbn [andb Borufsen.mode].
    replace (Z.max 0 (Z.of_nat (S (S n)) - 2) mod 25)%Z
      with (Z.max 0 (Z.of_nat (S n) - 2) mod 25)%Z
      by (replace (Z.of_nat (S n)) with 1%Z by lia;
          replace (Z.of_nat (S (S n))) with 2%Z by lia; reflexivity).
    apply (Borufsen_normal_mode_vs_cooperator (S n) _ g). lia.
Qed.

(** X12. Borufsen is never the first to defect: against an opponent that
    cooperates on every round, for a match of any length, every move is
    Cooperate.  Every mode evaluation finds 25 recorded cooperations, all
    in [cc_counts], which is neither fewer than 3 nor between 8 and 17, so
    the player stays in Normal mode; between evaluations [cc_counts] counts
    the rounds since the last one. *)
Theorem X12_Borufsen_is_nice (n : nat) (g : Rng) :
  play Borufsen.strategy Borufsen.init (repeat C n) g
  = Ok (repeat C n,
        Borufsen.mkState 0 (Z.max 0 (Z.of_nat n - 2) mod 25) 0 0 false
          Borufsen.Normal, g).
Proof.
  destruct (play_vs_cooperator Borufsen.strategy
              (fun st k =>
                 st = Borufsen.mkState 0 (Z.max 0 (Z.of_nat k - 2) mod 25)
                        0 0 false Borufsen.Normal))
    with (n := n) (init := Borufsen.init) (g := g) as [st [E ->]].
  - intros k st h ->. eexists. split; [|reflexivity].
    apply Borufsen_cooperates_with_cooperator.
  - reflexivity.
  - exact E.
Qed.

(** ** Kluepfel: what the counters count *)

Lemma combine_app_eq {A B} (l1 l2 : list A) (t1 t2 : list B) :
  length l1 = length t1 ->
  combine (l1 ++ l2) (t1 ++ t2) = combine l1 t1 ++ combine l2 t2.
Proof.
  revert t1. induction l1 as [|x l1 IH]; intros [|y t1] H;
    try discriminate; [reflexivity|].
  cbn [app combine]. rewrite IH by (cbn in H; lia). reflexivity.
Qed.

Lemma tl_snoc {A} (l : list A) (x : A) :
  l <> [] -> tl (l ++ [x]) = tl l ++ [x].
Proof. destruct l; [contradiction|reflexivity]. Qed.

(** The rounds answered, when one more round has been played. *)
Lemma responses_snoc (mine o : Action) (own opp : History)
    (m x y b : Action) :
  length own = length opp ->
  responses mine o (own ++ [m; x]) (opp ++ [y; b])
  = (responses mine o (own ++ [m]) (opp ++ [y])
     + if Action_eqb m mine && Action_eqb b o then 1 else 0)%Z.
Proof.
  intros Hlen. unfold responses.
  replace (opp ++ [y; b]) with ((opp ++ [y]) ++ [b])
    by (rewrite <- app_assoc; reflexivity).
  rewrite tl_snoc by (destruct opp; discriminate).
  assert (Ht : length own = length (tl (opp ++ [y]))).
  { destruct opp; cbn [app tl length] in *; [exact Hlen|].
    rewrite length_app. cbn. lia. }
  rewrite (combine_app_eq own [m; x] (tl (opp ++ [y])) [b] Ht).
  rewrite <- (app_nil_r (tl (opp ++ [y]))) at 2.
  rewrite (combine_app_eq own [m] (tl (opp ++ [y])) [] Ht).
  cbn [combine]. rewrite app_nil_r, filter_app, length_app.
  cbn [filter]. destruct (Action_eqb m mine && Action_eqb b o); cbn; lia.
Qed.

Lemma responses_short (mine o : Action) (own opp : History) :
  (length opp <= 1)%nat -> responses mine o own opp = 0%Z.
Proof.
  intros H. unfold responses.
  destruct opp as [|y [|z opp]]; [| |cbn in H; lia];
    cbn [tl]; rewrite combine_nil; reflexivity.
Qed.

Lemma Kluepfel_update_counts_responses (st st1 : Kluepfel.State)
    (own opp : History) (g g1 : Rng) :
  length own = length opp ->
  Kluepfel_counts_are_responses st (removelast own) (removelast opp) ->
  Kluepfel.update_counts st own opp g = Ok (st1, g1) ->
  Kluepfel_counts_are_responses st1 own opp.
Proof.
  intros Hlen [Hcd [Hdd [Hdc Hcc]]] H.
  unfold Kluepfel.update_counts in H.
  destruct (Nat.leb_spec 2 (length own)) as [Hn|Hn].
  - destruct own as [|x own1] using rev_ind; [cbn in Hn; lia|]. clear IHown1.
    destruct own1 as [|m own0] using rev_ind;
      [cbn in Hn; lia|]. clear IHown0.
    destruct opp as [|b opp1] using rev_ind;
      [rewrite !length_app in Hlen; cbn in Hlen; lia|]. clear IHopp1.
    destruct opp1 as [|y opp0] using rev_ind;
      [rewrite !length_app in Hlen; cbn in Hlen; lia|]. clear IHopp0.
    rewrite !removelast_last in Hcd, Hdd, Hdc, Hcc.
    rewrite <- !app_assoc in H |- *. cbn [app] in H |- *.
    assert (Hl : length own0 = length opp0)
      by (rewrite !length_app in Hlen; cbn in Hlen; lia).
    unfold bind, lift, ret in H.
    rewrite back_2_snoc in H.
    replace (opp0 ++ [y; b]) with ((opp0 ++ [y]) ++ [b]) in H
      by (rewrite <- app_assoc; reflexivity).
    rewrite back_1_snoc in H.
    unfold Kluepfel_counts_are_responses.
    rewrite !(responses_snoc _ _ own0 opp0 m x y b Hl).
    rewrite <- Hcd, <- Hdd, <- Hdc, <- Hcc.
    destruct m, b; cbn [Action_eqb andb] in H |- *;
      injection H as <- _; cbn; repeat split; lia.
  - injection H as <- _.
    unfold Kluepfel_counts_are_responses in *.
    rewrite !responses_short in * by lia.
    rewrite Hcd, Hdd, Hdc, Hcc.
    rewrite !responses_short
      by (rewrite removelast_firstn_len, length_firstn; lia).
    repeat split.
Qed.

Lemma Kluepfel_strategy_state (st : Kluepfel.State) (own opp : History)
    (g : Rng) (a : Action) (st' : Kluepfel.State) (g' : Rng) :
  Kluepfel.strategy st own opp g = Ok ((a, st'), g') ->
  Kluepfel.update_counts st own opp g = Ok (st', g).
Proof.
  intros H. unfold Kluepfel.strategy in H. unfold bind at 1 in H.
  destruct (Kluepfel.update_counts st own opp g) as [[st1 g1]|e] eqn:E;
    [|discriminate].
  assert (g1 = g).
  { unfold Kluepfel.update_counts, bind, lift, ret in E.
    destruct (2 <=? length own)%nat; [|injection E as _ <-; reflexivity].
    destruct (back 2 own) as [m|]; [|discriminate].
    destruct (Action_eqb m D); destruct (back 1 opp) as [o|];
      try discriminate; destruct (Action_eqb o C);
      injection E as _ <-; reflexivity. }
  subst g1.
  destruct (Kluepfel.randomness_check_due own && Kluepfel.looks_random st1).
  - injection H as _ <- _. reflexivity.
  - unfold bind, ret in H.
    repeat break_match; try discriminate.
    injection H as _ <- _. reflexivity.
Qed.

(** X13. What Kluepfel's four counters count.  In a match of a fresh
    player, whatever the opponent and the draws, the counts on which a
    call makes its randomness check are the opponent's answers, one round
    later, to all the own moves played: [cd_counts] the cooperations after
    an own defection, [dd_counts] the defections after an own defection,
    and, against the names, [dc_counts] the cooperations after an own
    cooperation and [cc_counts] the defections after an own cooperation. *)
Theorem X13_Kluepfel_counters (opp_moves : list Action) (g : Rng)
    (own : History) (st : Kluepfel.State) (g' : Rng)
    (st' : Kluepfel.State) (g'' : Rng) :
  play Kluepfel.strategy Kluepfel.init opp_moves g = Ok (own, st, g') ->
  Kluepfel.update_counts st own opp_moves g' = Ok (st', g'') ->
  Kluepfel_counts_are_responses st' own opp_moves.
Proof.
  intros Hplay Hupd.
  destruct (play_from_invariant_hist Kluepfel.strategy
              (fun st own opp =>
                 length own = length opp
                 /\ Kluepfel_counts_are_responses st (removelast own)
                      (removelast opp)))
    with (opp_moves := opp_moves) (st := Kluepfel.init)
         (own := @nil Action) (opp := @nil Action) (g := g)
         (own' := own) (st' := st) (g' := g') as [Hlen Hinv].
  - intros st0 own0 opp0 g0 a st1 g1 o [Hl Hc] Hs.
    split; [rewrite !length_app; cbn; lia|].
    rewrite !removelast_last.
    apply Kluepfel_strategy_state in Hs.
    apply (Kluepfel_update_counts_responses st0 st1 own0 opp0 g0 g0 Hl Hc Hs).
  - split; [reflexivity|]. repeat split.
  - exact Hplay.
  - cbn [app] in Hlen, Hinv.
    apply (Kluepfel_update_counts_responses st st' own opp_moves g' g''
             Hlen Hinv Hupd).
Qed.

Lemma X13_witness_random_looking :
  Kluepfel_counts_are_responses (Kluepfel.mkState 7 4 9 5)
    [C; C; C; C; C; D; D; C; C; C; C; D; D; D; C; D; C; D; D; D; C; C; C;
     D; D; C]
    random_looking_opponent.
Proof.
  eapply (X13_Kluepfel_counters random_looking_opponent random_looking_rng).
  - vm_compute. reflexivity.
  - vm_compute. reflexivity.
Defined.

(** ** Tranquilizer: a match never raises *)

Lemma play_from_total_hist {St} (strat : Strategy St)
    (P : St -> History -> History -> Prop) :
  (forall st own opp g o,
      P st own opp ->
      exists a st' g',
        strat st own opp g = Ok ((a, st'), g')
        /\ P st' (own ++ [a]) (opp ++ [o])) ->
  forall opp_moves st own opp g,
    P st own opp ->
    exists own' st' g',
      play_from strat opp_moves st own opp g = Ok (own', st', g')
      /\ P st' own' (opp ++ opp_moves).
Proof.
  intros Hstep opp_moves.
  induction opp_moves as [|o rest IH]; intros st own opp g HP;
    cbn [play_from].
  - exists own, st, g. rewrite app_nil_r. split; [reflexivity|exact HP].
  - destruct (Hstep st own opp g o HP) as [a [st1 [g1 [E HP1]]]].
    rewrite E.
    replace (opp ++ o :: rest) with ((opp ++ [o]) ++ rest)
      by (rewrite <- app_assoc; reflexivity).
    apply IH. exact HP1.
Qed.

Lemma trailing_defections_snoc (h : History) (o : Action) :
  trailing_defections (h ++ [o])
  = if Action_eqb o D then (trailing_defections h + 1)%Z else 0%Z.
Proof.
  unfold trailing_defections. rewrite rev_unit.
  destruct o; cbn [leading_defections Action_eqb]; lia.
Qed.

Lemma Tranquilizer_update_state_ok (st : Tranquilizer.State)
    (own0 opp0 : History) (m o : Action) (g : Rng) :
  Tranquilizer_state_ok st (own0 ++ [m]) (opp0 ++ [o]) ->
  exists st1,
    Tranquilizer.update_state st (own0 ++ [m]) (opp0 ++ [o]) g = Ok (st1, g)
    /\ (Tranquilizer.num_turns_after_good_defection st1 = 0
        \/ Tranquilizer.num_turns_after_good_defection st1 = 2)%Z
    /\ Tranquilizer_counts_positive st1
    /\ Tranquilizer.opponent_consecutive_defections st1
       = trailing_defections (opp0 ++ [o]).
Proof.
  intros [Hlen [Hfd [[Hak Hnk] Hcons]]].
  rewrite removelast_last in Hcons.
  unfold Tranquilizer.update_state, Tranquilizer.new_ratio, qdiv,
    bind, lift, ret.
  rewrite !back_1_snoc, trailing_defections_snoc, <- Hcons.
  destruct Hfd as [Hfd|[Hfd|Hfd]]; rewrite Hfd; cbn [Z.eqb Pos.eqb].
  - eexists. split; [reflexivity|].
    unfold Tranquilizer_counts_positive. cbn. auto.
  - rewrite (Qeq_bool_positive _ Hak).
    eexists. split; [reflexivity|].
    unfold Tranquilizer_counts_positive. cbn. repeat split; auto; lia.
  - rewrite (Qeq_bool_positive _ Hnk).
    eexists. split; [reflexivity|].
    unfold Tranquilizer_counts_positive. cbn. repeat split; auto; lia.
Qed.

Lemma Tranquilizer_step_ok (score : Payoff) (st : Tranquilizer.State)
    (own opp : History) (g : Rng) (o : Action) :
  Tranquilizer_state_ok st own opp ->
  exists a st' g',
    Tranquilizer.strategy score st own opp g = Ok ((a, st'), g')
    /\ Tranquilizer_state_ok st' (own ++ [a]) (opp ++ [o]).
Proof.
  intros Hok.
  assert (Hlen : length own = length opp) by apply Hok.
  destruct own as [|m own0] using rev_ind.
  - exists C, st, g. split; [reflexivity|].
    destruct opp; [|discriminate].
    destruct Hok as [_ [Hfd [Hpos Hcons]]].
    split; [reflexivity|]. split; [exact Hfd|]. split; [exact Hpos|].
    exact Hcons.
  - clear IHown0.
    destruct opp as [|x opp0] using rev_ind;
      [rewrite length_app in Hlen; cbn in Hlen; lia|]. clear IHopp0.
    destruct (Tranquilizer_update_state_ok st own0 opp0 m x g Hok)
      as [st1 [E [Hfd [Hpos Hcons]]]].
    assert (Hnext : forall a st2,
               (Tranquilizer.num_turns_after_good_defection st2 = 0
                \/ Tranquilizer.num_turns_after_good_defection st2 = 1
                \/ Tranquilizer.num_turns_after_good_defection st2 = 2)%Z ->
               Tranquilizer_counts_positive st2 ->
               Tranquilizer.opponent_consecutive_defections st2
               = Tranquilizer.opponent_consecutive_defections st1 ->
               Tranquilizer_state_ok st2 ((own0 ++ [m]) ++ [a])
                 ((opp0 ++ [x]) ++ [o])).
    { intros a st2 H1 H2 H3.
      split; [repeat rewrite length_app in Hlen; repeat rewrite length_app;
              cbn [length] in Hlen |- *; lia|].
      split; [exact H1|]. split; [exact H2|].
      rewrite removelast_last, H3. exact Hcons. }
    unfold Tranquilizer.strategy.
    assert (Hown : exists y l, own0 ++ [m] = y :: l)
      by (destruct own0; cbn; eauto).
    destruct Hown as [y [l Hown]]. rewrite Hown, <- Hown.
    clear y l Hown.
    unfold bind at 1. rewrite E.
    destruct ((Tranquilizer.num_turns_after_good_defection st1 =? 1)
              || (Tranquilizer.num_turns_after_good_defection st1 =? 2))%Z
      eqn:Ecool.
    + exists C, st1, g. split; [reflexivity|].
      apply Hnext; [destruct Hfd; auto|exact Hpos|reflexivity].
    + unfold Tranquilizer.good_probability, bind, lift, ret, random.
      rewrite back_1_snoc.
      destruct (Qgeb _ (225 # 100)).
      * destruct (Qleb _ _); eexists; eexists; eexists;
          (split; [reflexivity|]);
          apply Hnext; cbn; auto; destruct Hfd; auto.
      * destruct (Qgeb _ (175 # 100)).
        -- destruct (Qleb _ _); eexists; eexists; eexists;
             (split; [reflexivity|]);
             apply Hnext; auto; destruct Hfd; auto.
        -- eexists; eexists; eexists; (split; [reflexivity|]).
           apply Hnext; auto; destruct Hfd; auto.
Qed.

(** X14. A match of a fresh Tranquilizer never raises: for every payoff
    function, every sequence of opponent moves and every random source,
    all the calls return an action.  At the end of the match the cool-down
    counter [num_turns_after_good_defection] is 0, 1 or 2, the two ratio
    counts are positive, so that the ratio updates never divide by zero,
    and [opponent_consecutive_defections] is the number of defections at
    the end of the opponent's history as the last call saw it, that is
    without the opponent's last move. *)
Theorem X14_Tranquilizer_match_is_safe (score : Payoff)
    (opp_moves : list Action) (g : Rng) :
  exists own st g',
    play (Tranquilizer.strategy score) Tranquilizer.init opp_moves g
    = Ok (own, st, g')
    /\ Tranquilizer_state_ok st own opp_moves.
Proof.
  apply (play_from_total_hist (Tranquilizer.strategy score)
           Tranquilizer_state_ok
           (fun st own opp g o H => Tranquilizer_step_ok score st own opp g o H)
           opp_moves Tranquilizer.init [] [] g).
  unfold Tranquilizer_state_ok, Tranquilizer_counts_positive. cbn.
  repeat split; auto; lia.
Qed.

(** ** Harrington: indices stay in range *)

Lemma Harrington_update_parity_ok (f : Z -> Z) (st : Harrington.State)
    (g : Rng) :
  Harrington_shape st ->
  exists st',
    Harrington.update_parity f st g = Ok (st', g)
    /\ Harrington_shape st'
    /\ Harrington_same_core st st'
    /\ Harrington.prob st' = Harrington.prob st
    /\ Harrington.parity_bit st' = Harrington.parity_bit st
    /\ Harrington.parity_limit st' = Harrington.parity_limit st
    /\ Harrington.parity_hits st' = Harrington.parity_hits st
    /\ Harrington.more_coop st' = Harrington.more_coop st
    /\ Harrington.generous_n_turns_ago st' = Harrington.generous_n_turns_ago st.
Proof.
  intros [Hm [Hrows [Hrow [Hps Hbit]]]].
  unfold Harrington.update_parity, bind, lift, ret, get_index, set_index.
  destruct (Harrington.parity_streak st) as [|x [|y [|z l]]] eqn:E;
    try discriminate.
  destruct (Harrington.parity_bit st) as [|[|b]] eqn:Eb; [| |lia];
    cbn [nth_error length Nat.ltb Nat.leb firstn skipn app];
    (eexists; split; [reflexivity|]);
    unfold Harrington_shape, Harrington_same_core; cbn;
    rewrite ?Eb; repeat split; auto; lia.
Qed.

Lemma Harrington_same_core_refl (st : Harrington.State) :
  Harrington_same_core st st.
Proof. repeat split. Qed.

Lemma Harrington_same_core_trans (st1 st2 st3 : Harrington.State) :
  Harrington_same_core st1 st2 -> Harrington_same_core st2 st3 ->
  Harrington_same_core st1 st3.
Proof.
  unfold Harrington_same_core.
  intros [A1 [A2 [A3 [A4 [A5 [A6 A7]]]]]] [B1 [B2 [B3 [B4 [B5 [B6 B7]]]]]].
  repeat split; congruence.
Qed.

(** A state obtained by changing fields outside the core and the shape. *)
Lemma Harrington_try_return_ok (st : Harrington.State) (to_return : Action)
    (lower_flags inc_parity : bool) (g : Rng) :
  Harrington_shape st ->
  exists st',
    Harrington.try_return st to_return lower_flags inc_parity g
    = Ok ((to_return, st'), g)
    /\ Harrington_shape st'
    /\ Harrington_same_core st st'
    /\ Harrington.prob st' = Harrington.prob st.
Proof.
  intros Hshape. unfold Harrington.try_return.
  set (st0 := if lower_flags && Action_eqb to_return C
              then Harrington.set_generous_n_turns_ago
                     (Harrington.generous_n_turns_ago st + 1)
                     (Harrington.set_more_coop (Harrington.more_coop st - 1) st)
              else st).
  assert (H0 : Harrington_shape st0 /\ Harrington_same_core st st0
               /\ Harrington.prob st0 = Harrington.prob st).
  { unfold st0. destruct (lower_flags && Action_eqb to_return C).
    - split; [exact Hshape|]. split; [|reflexivity]. repeat split.
    - split; [exact Hshape|]. split; [|reflexivity]. repeat split. }
  destruct H0 as [Hs0 [Hc0 Hp0]].
  destruct (inc_parity && Action_eqb to_return D).
  - destruct (Harrington_update_parity_ok (fun x => x + 1)%Z st0 g Hs0)
      as [st' [E [Hs' [Hc' [Hp' _]]]]].
    exists st'. unfold bind. rewrite E.
    split; [reflexivity|]. split; [exact Hs'|].
    split; [exact (Harrington_same_core_trans _ _ _ Hc0 Hc')|congruence].
  - exists st0. split; [reflexivity|]. auto.
Qed.

Lemma Harrington_detect_parity_streak_ok (st : Harrington.State)
    (last_move : Action) (g : Rng) :
  Harrington_shape st ->
  exists b st',
    Harrington.detect_parity_streak st last_move g = Ok ((b, st'), g)
    /\ Harrington_shape st'
    /\ Harrington_same_core st st'
    /\ Harrington.prob st' = Harrington.prob st.
Proof.
  intros Hshape. unfold Harrington.detect_parity_streak.
  assert (Hs0 : Harrington_shape
                  (Harrington.set_parity_bit
                     (1 - Harrington.parity_bit st)%nat st)).
  { destruct Hshape as [H1 [H2 [H3 [H4 H5]]]].
    refine (conj H1 (conj H2 (conj H3 (conj H4 _)))).
    unfold Harrington.set_parity_bit. cbn [Harrington.parity_bit]. lia. }
  destruct (Harrington_update_parity_ok
              (fun x => if Action_eqb last_move D then x + 1 else 0)%Z
              _ g Hs0) as [st1 [E [Hs1 [Hc1 [Hp1 _]]]]].
  unfold bind at 1. rewrite E.
  pose proof Hs1 as [_ [_ [_ [H4 H5]]]].
  unfold bind, lift, ret, get_index.
  destruct (Harrington.parity_streak st1) as [|x [|y [|z l]]];
    try discriminate.
  destruct (Harrington.parity_bit st1) as [|[|b]]; [| |lia];
    cbn [nth_error];
    (eexists; eexists; split; [reflexivity|]);
    (split; [exact Hs1|]); (split; [exact Hc1|exact Hp1]).
Qed.

(** The rules of Normal mode return, keep the shape and the core of the
    state, never lower [prob], and read a draw only after round 37. *)
Lemma Harrington_normal_mode_ok (turn : Z) (st : Harrington.State)
    (o : Action) (g : Rng) :
  Harrington_shape st ->
  exists a st' g',
    Harrington.normal_mode turn st o g = Ok ((a, st'), g')
    /\ Harrington_shape st'
    /\ Harrington_same_core st st'
    /\ Harrington.prob st <= Harrington.prob st'
    /\ ((g' = g /\ Harrington.prob st' = Harrington.prob st)
        \/ ((37 < turn)%Z /\ g' = advance g)).
Proof.
  intros Hshape. unfold Harrington.normal_mode, Harrington.detect_streak.
  set (st1 := if Action_eqb o D
              then Harrington.set_defect_streak
                     (Harrington.defect_streak st + 1) st
              else Harrington.set_defect_streak 0 st).
  assert (H1 : Harrington_shape st1 /\ Harrington_same_core st st1
               /\ Harrington.prob st1 = Harrington.prob st).
  { unfold st1. destruct (Action_eqb o D);
      (split; [exact Hshape|]); (split; [|reflexivity]);
      unfold Harrington_same_core; cbn; auto 10. }
  destruct H1 as [Hs1 [Hc1 Hp1]].
  assert (Hret : forall (s : Harrington.State) (a : Action) (lf ip : bool)
                        (h : Rng),
             Harrington_shape s -> Harrington_same_core st s ->
             ((h = g /\ Harrington.prob s = Harrington.prob st)
              \/ ((37 < turn)%Z /\ h = advance g
                  /\ Harrington.prob st <= Harrington.prob s)) ->
             exists a' st' g',
               Harrington.try_return s a lf ip h = Ok ((a', st'), g')
               /\ Harrington_shape st'
               /\ Harrington_same_core st st'
               /\ Harrington.prob st <= Harrington.prob st'
               /\ ((g' = g /\ Harrington.prob st' = Harrington.prob st)
                   \/ ((37 < turn)%Z /\ g' = advance g))).
  { intros s a lf ip h Hs Hc Hg.
    destruct (Harrington_try_return_ok s a lf ip h Hs)
      as [s' [E [Hs' [Hc' Hp']]]].
    exists a, s', h. split; [exact E|]. split; [exact Hs'|].
    split; [exact (Harrington_same_core_trans _ _ _ Hc Hc')|].
    rewrite Hp'.
    destruct Hg as [[-> Hq]|[H37 [-> Hq]]].
    - split; [rewrite Hq; apply Qle_refl|]. left. split; [reflexivity|exact Hq].
    - split; [exact Hq|]. right. split; [exact H37|reflexivity]. }
  destruct (20 <=? Harrington.defect_streak st1)%Z.
  - apply Hret; [exact Hs1|exact Hc1|left; split; [reflexivity|exact Hp1]].
  - destruct (Harrington_detect_parity_streak_ok st1 o g Hs1)
      as [parity [st2 [E2 [Hs2 [Hc2 Hp2]]]]].
    unfold bind at 1. rewrite E2.
    assert (Hc02 : Harrington_same_core st st2)
      by exact (Harrington_same_core_trans _ _ _ Hc1 Hc2).
    assert (Hp02 : Harrington.prob st2 = Harrington.prob st) by congruence.
    destruct parity.
    + destruct (Harrington_update_parity_ok (fun _ => 0%Z) st2 g Hs2)
        as [st3 [E3 [Hs3 [Hc3 [Hp3 _]]]]].
      unfold bind at 1. rewrite E3.
      assert (Hc03 : Harrington_same_core st st3)
        by exact (Harrington_same_core_trans _ _ _ Hc02 Hc3).
      assert (Hp03 : Harrington.prob st3 = Harrington.prob st) by congruence.
      destruct (8 <=? Harrington.parity_hits
                        (Harrington.set_parity_hits
                           (Harrington.parity_hits st3 + 1) st3))%Z;
        (apply Hret;
         [exact Hs3|exact Hc03|left; split; [reflexivity|exact Hp03]]).
    + destruct (1 <=? Harrington.more_coop st2)%Z;
        [apply Hret;
         [exact Hs2|exact Hc02|left; split; [reflexivity|exact Hp02]]|].
      destruct (Z.ltb_spec turn 37) as [Hlt|Hge];
        [apply Hret;
         [exact Hs2|exact Hc02|left; split; [reflexivity|exact Hp02]]|].
      destruct (Z.eqb_spec turn 37) as [E37|N37];
        [apply Hret;
         [exact Hs2|exact Hc02|left; split; [reflexivity|exact Hp02]]|].
      destruct (Harrington.burned st2);
        [apply Hret;
         [exact Hs2|exact Hc02|left; split; [reflexivity|exact Hp02]]|].
      assert (H37 : (37 < turn)%Z) by lia.
      unfold bind at 1. unfold random at 1. fold (advance g).
      destruct (Qgtb (draws g (pos g)) (Harrington.prob st2)).
      * apply Hret; [exact Hs2|exact Hc02|].
        right. split; [exact H37|]. split; [reflexivity|].
        rewrite Hp02. apply Qle_refl.
      * apply Hret; [exact Hs2|exact Hc02|].
        right. split; [exact H37|]. split; [reflexivity|].
        cbn. rewrite Hp02.
        rewrite <- (Qplus_0_r (Harrington.prob st)) at 1.
        apply Qplus_le_r. discriminate.
Qed.

Lemma Harrington_update_history_ok (turn : Z) (st : Harrington.State)
    (o : Action) (g : Rng) :
  Harrington_shape st ->
  exists st',
    Harrington.update_history turn st o g = Ok (st', g)
    /\ Harrington_shape st'
    /\ Harrington.mode st' = Harrington.mode st
    /\ Harrington.was_defective st' = Harrington.was_defective st
    /\ Harrington.prob st' = Harrington.prob st
    /\ Harrington.recorded_defects st'
       = (Harrington.recorded_defects st
          + if (2 <? turn)%Z && Action_eqb o D then 1 else 0)%Z.
Proof.
  intros [Hm [Hrows [Hrow [Hps Hbit]]]].
  unfold Harrington.update_history.
  destruct (2 <? turn)%Z; cbn [andb].
  - unfold Harrington.set_recorded_defects, Harrington.set_move_history,
      bind, lift, ret, get_index, set_index.
    destruct (Harrington.move_history st)
      as [|r0 [|r1 [|r2 [|r3 [|r4 l]]]]] eqn:Em; try discriminate.
    inversion Hrows as [|? ? L0 Hrows1]; subst.
    inversion Hrows1 as [|? ? L1 Hrows2]; subst.
    inversion Hrows2 as [|? ? L2 Hrows3]; subst.
    inversion Hrows3 as [|? ? L3 _]; subst.
    destruct r0 as [|a0 [|b0 [|]]]; try discriminate.
    destruct r1 as [|a1 [|b1 [|]]]; try discriminate.
    destruct r2 as [|a2 [|b2 [|]]]; try discriminate.
    destruct r3 as [|a3 [|b3 [|]]]; try discriminate.
    destruct (Harrington.history_row st) as [|[|[|[|r]]]] eqn:Er; [| | | |lia];
      destruct o; cbn [Action_eqb];
      cbn [Harrington.history_row Harrington.move_history];
      rewrite ?Er, ?Em;
      cbn [nth_error length Nat.ltb Nat.leb firstn skipn app];
      (eexists; split; [reflexivity|]);
      (split;
       [unfold Harrington_shape;
        cbn [Harrington.move_history Harrington.history_row
             Harrington.parity_streak Harrington.parity_bit];
        rewrite ?Er;
        refine (conj eq_refl (conj _ (conj _ (conj Hps Hbit))));
        [repeat constructor|lia]
       |cbn; repeat split; lia]).
  - exists st. split; [reflexivity|].
    split; [exact (conj Hm (conj Hrows (conj Hrow (conj Hps Hbit))))|].
    repeat split. lia.
Qed.

Lemma Harrington_random_needs_defections (st : Harrington.State)
    (denom : Z) :
  (0 < denom)%Z ->
  Harrington.random_checks st denom = true ->
  (0 < Harrington.recorded_defects st)%Z.
Proof.
  intros Hd H. unfold Harrington.random_checks in H.
  destruct (Qgeb _ (8 # 10)); [discriminate|].
  destruct (Qltb (ZQ (Harrington.recorded_defects st) / ZQ denom) (25 # 100))
    eqn:E; [discriminate|].
  unfold Qltb in E. rewrite Qle_bool_div_r in E by exact Hd.
  apply negb_false_iff, Z.leb_le in E. lia.
Qed.

Lemma Harrington_defect_mode_ok (st : Harrington.State) (o : Action)
    (g : Rng) :
  Harrington_shape st ->
  exists a st',
    Harrington.defect_mode st o g = Ok ((a, st'), g)
    /\ Harrington_shape st'
    /\ Harrington.prob st' = Harrington.prob st
    /\ Harrington.recorded_defects st' = Harrington.recorded_defects st
    /\ (Harrington.was_defective st = true ->
        Harrington.was_defective st' = true)
    /\ (Harrington.mode st' = Harrington.Defect ->
        Harrington.mode st = Harrington.Defect /\ a = D)
    /\ (Harrington.mode st' = Harrington.mode st
        \/ Harrington.was_defective st' = true).
Proof.
  intros Hshape. unfold Harrington.defect_mode.
  set (st1 := if Action_eqb o D
              then Harrington.set_exit_defect_meter
                     (Harrington.exit_defect_meter st + 1) st
              else Harrington.set_exit_defect_meter
                     (Harrington.exit_defect_meter st - 3) st).
  assert (H1 : Harrington_shape st1
               /\ Harrington.prob st1 = Harrington.prob st
               /\ Harrington.recorded_defects st1
                  = Harrington.recorded_defects st
               /\ Harrington.was_defective st1 = Harrington.was_defective st
               /\ Harrington.mode st1 = Harrington.mode st).
  { unfold st1. destruct (Action_eqb o D);
      (split; [exact Hshape|]); repeat split. }
  destruct H1 as [Hs1 [Hp1 [Hr1 [Hw1 Hm1]]]].
  destruct (11 <=? Harrington.exit_defect_meter st1)%Z.
  - destruct (Harrington_try_return_ok
                (Harrington.set_more_coop 2
                   (Harrington.set_was_defective true
                      (Harrington.set_mode Harrington.Normal st1)))
                C false false g Hs1)
      as [st' [E [Hs' [[Hm [Hr [_ [Hw _]]]] Hp']]]].
    exists C, st'. split; [exact E|]. split; [exact Hs'|].
    cbn in Hm, Hr, Hw, Hp'.
    split; [congruence|]. split; [congruence|].
    split; [intros _; exact Hw|].
    split; [intros Hd; rewrite Hm in Hd; discriminate|right; exact Hw].
  - destruct (Harrington_try_return_ok st1 D true false g Hs1)
      as [st' [E [Hs' [[Hm [Hr [_ [Hw _]]]] Hp']]]].
    exists D, st'. split; [exact E|]. split; [exact Hs'|].
    split; [congruence|]. split; [congruence|].
    split; [intros H; congruence|].
    split; [intros Hd; split; [congruence|reflexivity]|left; congruence].
Qed.

(** One call of Harrington's strategy on a round after the first. *)
Lemma Harrington_step_ok (st : Harrington.State) (own0 opp0 : History)
    (m o : Action) (g : Rng) :
  Harrington_shape st ->
  let turn := (len (own0 ++ [m]) + 1)%Z in
  exists a st' g',
    Harrington.strategy st (own0 ++ [m]) (opp0 ++ [o]) g = Ok ((a, st'), g')
    /\ Harrington_shape st'
    /\ Harrington.prob st <= Harrington.prob st'
    /\ ((g' = g /\ Harrington.prob st' = Harrington.prob st)
        \/ ((37 < turn)%Z /\ g' = advance g))
    /\ (Harrington.was_defective st = true ->
        Harrington.was_defective st' = true)
    /\ (Harrington.mode st' = Harrington.Defect ->
        (Harrington.mode st = Harrington.Defect /\ a = D)
        \/ (Harrington.was_defective st = false
            /\ (0 < Harrington.recorded_defects st')%Z))
    /\ (Harrington.mode st <> Harrington.Defect ->
        Harrington.recorded_defects st'
        = (Harrington.recorded_defects st
           + if (2 <? turn)%Z && Action_eqb o D then 1 else 0)%Z).
Proof.
  intros Hshape turn.
  assert (Hturn : (2 <= turn)%Z).
  { unfold turn, len. rewrite length_app. cbn [length]. lia. }
  unfold Harrington.strategy. fold turn.
  destruct (Z.eqb_spec turn 1) as [E1|_]; [lia|].
  unfold bind at 1. unfold lift at 1. rewrite back_1_snoc.
  assert (Hnormal :
            Harrington.mode st <> Harrington.Defect ->
            exists a st' g',
              (st0 <- Harrington.update_history turn st o ;;
               is_random <-
                 (if ((turn mod 15 =? 0) && (15 <? turn))%Z
                     && negb (Harrington.was_defective st0)
                  then Harrington.detect_random st0 turn else ret false) ;;
               (if is_random
                then Harrington.try_return
                       (Harrington.set_mode Harrington.Defect st0) D false false
                else
                  mine <- lift (back 1 (own0 ++ [m])) ;;
                  (let row := ((if Action_eqb o D then 1 else 0)
                               + (if Action_eqb mine D then 2 else 0))%nat in
                   let st1 := Harrington.set_history_row row st0 in
                   let st2 :=
                     if (Harrington.generous_n_turns_ago st1 =? 2)%Z
                        && Action_eqb o D
                     then Harrington.set_burned true st1 else st1 in
                   if (turn =? 38)%Z && Action_eqb o D
                      && (cooperations (opp0 ++ [o]) =? 36)%Z
                   then Harrington.try_return
                          (Harrington.set_mode Harrington.FairWeather st2)
                          C false false
                   else
                     match Harrington.mode st2 with
                     | Harrington.FairWeather =>
                         if Action_eqb o D
                         then Harrington.normal_mode turn
                                (Harrington.set_mode Harrington.Normal st2) o
                         else Harrington.try_return st2 C true false
                     | _ => Harrington.normal_mode turn st2 o
                     end))) g = Ok ((a, st'), g')
              /\ Harrington_shape st'
              /\ Harrington.prob st <= Harrington.prob st'
              /\ ((g' = g /\ Harrington.prob st' = Harrington.prob st)
                  \/ ((37 < turn)%Z /\ g' = advance g))
              /\ (Harrington.was_defective st = true ->
                  Harrington.was_defective st' = true)
              /\ (Harrington.mode st' = Harrington.Defect ->
                  (Harrington.mode st = Harrington.Defect /\ a = D)
                  \/ (Harrington.was_defective st = false
                      /\ (0 < Harrington.recorded_defects st')%Z))
              /\ (Harrington.mode st <> Harrington.Defect ->
                  Harrington.recorded_defects st'
                  = (Harrington.recorded_defects st
                     + if (2 <? turn)%Z && Action_eqb o D then 1 else 0)%Z)).
  { intros Hmode.
    destruct (Harrington_update_history_ok turn st o g Hshape)
      as [st0 [E0 [Hs0 [Hm0 [Hw0 [Hp0 Hr0]]]]]].
    unfold bind at 1. rewrite E0.
    (* the randomness test *)
    assert (Htest : exists b,
               (if ((turn mod 15 =? 0) && (15 <? turn))%Z
                   && negb (Harrington.was_defective st0)
                then Harrington.detect_random st0 turn else ret false) g
               = Ok (b, g)
               /\ (b = true ->
                   Harrington.was_defective st = false
                   /\ (0 < Harrington.recorded_defects st0)%Z)).
    { destruct (((turn mod 15 =? 0) && (15 <? turn))%Z
                && negb (Harrington.was_defective st0)) eqn:Eg.
      - apply andb_true_iff in Eg. destruct Eg as [Eg Ew].
        apply andb_true_iff in Eg. destruct Eg as [_ E15].
        apply Z.ltb_lt in E15. apply negb_true_iff in Ew.
        unfold Harrington.detect_random.
        destruct (Z.eqb_spec (turn - 2) 0) as [Ez|_]; [lia|].
        eexists. split; [reflexivity|]. intros Hb.
        split; [congruence|].
        apply (Harrington_random_needs_defections st0 (turn - 2));
          [lia|exact Hb].
      - exists false. split; [reflexivity|discriminate]. }
    destruct Htest as [b [Eb Hb]].
    unfold bind at 1. rewrite Eb.
    destruct b.
    - destruct (Hb eq_refl) as [Hwf Hrd].
      destruct (Harrington_try_return_ok
                  (Harrington.set_mode Harrington.Defect st0) D false false g
                  Hs0) as [st' [E [Hs' [[_ [Hr [_ [Hw _]]]] Hp']]]].
      cbn in Hr, Hw, Hp'.
      exists D, st', g. split; [exact E|]. split; [exact Hs'|].
      split; [rewrite Hp', Hp0; apply Qle_refl|].
      split; [left; split; [reflexivity|congruence]|].
      split; [intros H; congruence|].
      split; [intros _; right; split; [exact Hwf|congruence]|].
      intros _. congruence.
    - unfold bind at 1. unfold lift at 1. rewrite back_1_snoc.
      set (row := ((if Action_eqb o D then 1 else 0)
                   + (if Action_eqb m D then 2 else 0))%nat).
      set (st1 := Harrington.set_history_row row st0).
      set (st2 := if (Harrington.generous_n_turns_ago st1 =? 2)%Z
                     && Action_eqb o D
                  then Harrington.set_burned true st1 else st1).
      assert (H2 : Harrington_shape st2
                   /\ Harrington.mode st2 = Harrington.mode st
                   /\ Harrington.was_defective st2
                      = Harrington.was_defective st
                   /\ Harrington.prob st2 = Harrington.prob st
                   /\ Harrington.recorded_defects st2
                      = Harrington.recorded_defects st0).
      { assert (Hs1 : Harrington_shape st1).
        { destruct Hs0 as [A1 [A2 [A3 [A4 A5]]]].
          refine (conj A1 (conj A2 (conj _ (conj A4 A5)))).
          unfold st1, row, Harrington.set_history_row.
          cbn [Harrington.history_row].
          destruct (Action_eqb o D), (Action_eqb m D); cbn; lia. }
        unfold st2.
        destruct ((Harrington.generous_n_turns_ago st1 =? 2)%Z
                  && Action_eqb o D);
          (split; [exact Hs1|]); cbn; auto. }
      destruct H2 as [Hs2 [Hm2 [Hw2 [Hp2 Hr2]]]].
      clearbody st2. clear st1.
      assert (Hfinish : forall a st' g',
                 Harrington_shape st' ->
                 Harrington.mode st' <> Harrington.Defect ->
                 Harrington.was_defective st' = Harrington.was_defective st ->
                 Harrington.recorded_defects st'
                 = Harrington.recorded_defects st0 ->
                 Harrington.prob st <= Harrington.prob st' ->
                 ((g' = g /\ Harrington.prob st' = Harrington.prob st)
                  \/ ((37 < turn)%Z /\ g' = advance g)) ->
                 Harrington_shape st'
                 /\ Harrington.prob st <= Harrington.prob st'
                 /\ ((g' = g /\ Harrington.prob st' = Harrington.prob st)
                     \/ ((37 < turn)%Z /\ g' = advance g))
                 /\ (Harrington.was_defective st = true ->
                     Harrington.was_defective st' = true)
                 /\ (Harrington.mode st' = Harrington.Defect ->
                     (Harrington.mode st = Harrington.Defect /\ a = D)
                     \/ (Harrington.was_defective st = false
                         /\ (0 < Harrington.recorded_defects st')%Z))
                 /\ (Harrington.mode st <> Harrington.Defect ->
                     Harrington.recorded_defects st'
                     = (Harrington.recorded_defects st
                        + if (2 <? turn)%Z && Action_eqb o D
                          then 1 else 0)%Z)).
      { intros a st' g' A1 A2 A3 A4 A5 A6.
        split; [exact A1|]. split; [exact A5|]. split; [exact A6|].
        split; [intros H; congruence|].
        split; [intros H; contradiction|].
        intros _. congruence. }
      assert (Hvia_try : forall (s : Harrington.State) (a : Action)
                                (lf ip : bool),
                 Harrington_shape s ->
                 Harrington.mode s <> Harrington.Defect ->
                 Harrington.was_defective s = Harrington.was_defective st ->
                 Harrington.recorded_defects s
                 = Harrington.recorded_defects st0 ->
                 Harrington.prob s = Harrington.prob st ->
                 exists a' st' g',
                   Harrington.try_return s a lf ip g = Ok ((a', st'), g')
                   /\ Harrington_shape st'
                   /\ Harrington.prob st <= Harrington.prob st'
                   /\ ((g' = g /\ Harrington.prob st' = Harrington.prob st)
                       \/ ((37 < turn)%Z /\ g' = advance g))
                   /\ (Harrington.was_defective st = true ->
                       Harrington.was_defective st' = true)
                   /\ (Harrington.mode st' = Harrington.Defect ->
                       (Harrington.mode st = Harrington.Defect /\ a' = D)
                       \/ (Harrington.was_defective st = false
                           /\ (0 < Harrington.recorded_defects st')%Z))
                   /\ (Harrington.mode st <> Harrington.Defect ->
                       Harrington.recorded_defects st'
                       = (Harrington.recorded_defects st
                          + if (2 <? turn)%Z && Action_eqb o D
                            then 1 else 0)%Z)).
      { intros s a lf ip B1 B2 B3 B4 B5.
        destruct (Harrington_try_return_ok s a lf ip g B1)
          as [st' [E [Hs' [[Cm [Cr [_ [Cw _]]]] Cp]]]].
        exists a, st', g. split; [exact E|].
        apply Hfinish; try congruence.
        - rewrite Cp, B5. apply Qle_refl.
        - left. split; [reflexivity|congruence]. }
      assert (Hvia_normal : forall (s : Harrington.State),
                 Harrington_shape s ->
                 Harrington.mode s <> Harrington.Defect ->
                 Harrington.was_defective s = Harrington.was_defective st ->
                 Harrington.recorded_defects s
                 = Harrington.recorded_defects st0 ->
                 Harrington.prob s = Harrington.prob st ->
                 exists a' st' g',
                   Harrington.normal_mode turn s o g = Ok ((a', st'), g')
                   /\ Harrington_shape st'
                   /\ Harrington.prob st <= Harrington.prob st'
                   /\ ((g' = g /\ Harrington.prob st' = Harrington.prob st)
                       \/ ((37 < turn)%Z /\ g' = advance g))
                   /\ (Harrington.was_defective st = true ->
                       Harrington.was_defective st' = true)
                   /\ (Harrington.mode st' = Harrington.Defect ->
                       (Harrington.mode st = Harrington.Defect /\ a' = D)
                       \/ (Harrington.was_defective st = false
                           /\ (0 < Harrington.recorded_defects st')%Z))
                   /\ (Harrington.mode st <> Harrington.Defect ->
                       Harrington.recorded_defects st'
                       = (Harrington.recorded_defects st
                          + if (2 <? turn)%Z && Action_eqb o D
                            then 1 else 0)%Z)).
      { intros s B1 B2 B3 B4 B5.
        destruct (Harrington_normal_mode_ok turn s o g B1)
          as [a [st' [g' [E [Hs' [[Cm [Cr [_ [Cw _]]]] [Cp Cg]]]]]]].
        exists a, st', g'. split; [exact E|].
        apply Hfinish; congruence. }
      destruct ((turn =? 38)%Z && Action_eqb o D
                && (cooperations (opp0 ++ [o]) =? 36)%Z).
      + apply Hvia_try; auto. cbn. discriminate.
      + destruct (Harrington.mode st2) eqn:Emode2.
        * apply Hvia_normal; auto. rewrite Emode2. discriminate.
        * destruct (Action_eqb o D).
          -- apply Hvia_normal; auto. cbn. discriminate.
          -- apply Hvia_try; auto. rewrite Emode2. discriminate.
        * exfalso. apply Hmode. congruence. }
  destruct (Harrington.mode st) eqn:Emode.
  - apply Hnormal. discriminate.
  - apply Hnormal. discriminate.
  - destruct (Harrington_defect_mode_ok st o g Hshape)
      as [a [st' [E [Hs' [Hp [Hr [Hw [Hd _]]]]]]]].
    exists a, st', g. split; [exact E|]. split; [exact Hs'|].
    split; [rewrite Hp; apply Qle_refl|].
    split; [left; split; [reflexivity|exact Hp]|].
    split; [exact Hw|].
    split; [intros H; left; destruct (Hd H) as [_ Ha]; split; [reflexivity|exact Ha]|].
    intros H. contradiction.
Qed.

Lemma Harrington_step_sound (st : Harrington.State) (own0 opp0 : History)
    (m o : Action) (g : Rng) (a : Action) (st' : Harrington.State)
    (g' : Rng) :
  Harrington_shape st ->
  Harrington.strategy st (own0 ++ [m]) (opp0 ++ [o]) g = Ok ((a, st'), g') ->
  Harrington_shape st'
  /\ Harrington.prob st <= Harrington.prob st'
  /\ ((g' = g /\ Harrington.prob st' = Harrington.prob st)
      \/ ((37 < len (own0 ++ [m]) + 1)%Z /\ g' = advance g))
  /\ (Harrington.was_defective st = true ->
      Harrington.was_defective st' = true)
  /\ (Harrington.mode st' = Harrington.Defect ->
      (Harrington.mode st = Harrington.Defect /\ a = D)
      \/ (Harrington.was_defective st = false
          /\ (0 < Harrington.recorded_defects st')%Z))
  /\ (Harrington.mode st <> Harrington.Defect ->
      Harrington.recorded_defects st'
      = (Harrington.recorded_defects st
         + if (2 <? len (own0 ++ [m]) + 1)%Z && Action_eqb o D
           then 1 else 0)%Z).
Proof.
  intros Hs E.
  destruct (Harrington_step_ok st own0 opp0 m o g Hs)
    as [a2 [st2 [g2 [E2 H]]]].
  rewrite E in E2. injection E2 as <- <- <-. exact H.
Qed.

Lemma Harrington_step_in_Defect (st : Harrington.State)
    (own0 opp0 : History) (m o : Action) (g : Rng) (a : Action)
    (st' : Harrington.State) (g' : Rng) :
  Harrington_shape st ->
  Harrington.mode st = Harrington.Defect ->
  Harrington.strategy st (own0 ++ [m]) (opp0 ++ [o]) g = Ok ((a, st'), g') ->
  Harrington.recorded_defects st' = Harrington.recorded_defects st
  /\ (Harrington.mode st' = Harrington.Defect
      \/ Harrington.was_defective st' = true).
Proof.
  intros Hs Hm E. unfold Harrington.strategy in E.
  assert (Hturn : (len (own0 ++ [m]) + 1 =? 1)%Z = false).
  { apply Z.eqb_neq. unfold len. rewrite length_app. cbn [length]. lia. }
  rewrite Hturn in E. unfold bind at 1 in E. unfold lift at 1 in E.
  rewrite back_1_snoc, Hm in E.
  destruct (Harrington_defect_mode_ok st o g Hs)
    as [a2 [st2 [E2 [_ [_ [Hr [_ [_ Hd]]]]]]]].
  rewrite E in E2. injection E2 as <- <-.
  split; [exact Hr|]. destruct Hd as [Hd|Hd]; [left; congruence|right; exact Hd].
Qed.

Lemma histories_cases (own opp : History) :
  length own = length opp ->
  (own = [] /\ opp = [])
  \/ exists own0 m opp0 o,
       own = own0 ++ [m] /\ opp = opp0 ++ [o] /\ length own0 = length opp0.
Proof.
  intros H.
  destruct own as [|m own0 _] using rev_ind.
  - left. destruct opp; [split; reflexivity|discriminate].
  - right. destruct opp as [|o opp0 _] using rev_ind.
    + rewrite length_app in H. cbn in H. lia.
    + exists own0, m, opp0, o. repeat rewrite length_app in H.
      cbn [length] in H. repeat split. lia.
Qed.

Lemma play_from_total_rng {St} (strat : Strategy St)
    (P : St -> History -> History -> Rng -> Prop) :
  (forall st own opp g o,
      P st own opp g ->
      exists a st' g',
        strat st own opp g = Ok ((a, st'), g')
        /\ P st' (own ++ [a]) (opp ++ [o]) g') ->
  forall opp_moves st own opp g,
    P st own opp g ->
    exists own' st' g',
      play_from strat opp_moves st own opp g = Ok (own', st', g')
      /\ P st' own' (opp ++ opp_moves) g'.
Proof.
  intros Hstep opp_moves.
  induction opp_moves as [|o rest IH]; intros st own opp g HP;
    cbn [play_from].
  - exists own, st, g. rewrite app_nil_r. split; [reflexivity|exact HP].
  - destruct (Hstep st own opp g o HP) as [a [st1 [g1 [E HP1]]]].
    rewrite E.
    replace (opp ++ o :: rest) with ((opp ++ [o]) ++ rest)
      by (rewrite <- app_assoc; reflexivity).
    apply IH. exact HP1.
Qed.

Lemma Harrington_match_step (g0 : Rng) (st : Harrington.State)
    (own opp : History) (g : Rng) (o : Action) :
  Harrington_match_ok g0 st own opp g ->
  exists a st' g',
    Harrington.strategy st own opp g = Ok ((a, st'), g')
    /\ Harrington_match_ok g0 st' (own ++ [a]) (opp ++ [o]) g'.
Proof.
  intros [Hlen [Hs [Hp [Hd [Hlo Hhi]]]]].
  destruct (histories_cases own opp Hlen)
    as [[-> ->]|[own0 [m [opp0 [x [-> [-> Hlen0]]]]]]].
  - exists C, st, g. split; [reflexivity|].
    cbn [app length] in *.
    refine (conj eq_refl (conj Hs (conj Hp (conj Hd (conj Hlo _))))). lia.
  - destruct (Harrington_step_ok st own0 opp0 m x g Hs)
      as [a [st' [g' [E [Hs' [Hp' [Hg _]]]]]]].
    exists a, st', g'. split; [exact E|].
    assert (Hl : length ((own0 ++ [m]) ++ [a])
                 = length ((opp0 ++ [x]) ++ [o]))
      by (repeat rewrite length_app; cbn [length]; lia).
    assert (Hp2 : (25 # 100) <= Harrington.prob st')
      by (eapply Qle_trans; [exact Hp|exact Hp']).
    unfold len in Hg. repeat rewrite length_app in Hhi, Hg.
    cbn [length] in Hhi, Hg.
    destruct Hg as [[-> _]|[Hturn ->]].
    + refine (conj Hl (conj Hs' (conj Hp2 (conj Hd (conj Hlo _))))).
      repeat rewrite length_app. cbn [length]. lia.
    + refine (conj Hl (conj Hs' (conj Hp2 (conj Hd _)))).
      unfold advance. cbn [pos]. repeat rewrite length_app. cbn [length].
      split; lia.
Qed.

Lemma Harrington_play_ok (opp_moves : list Action) (g : Rng) :
  exists own st g',
    play Harrington.strategy Harrington.init opp_moves g = Ok (own, st, g')
    /\ Harrington_match_ok g st own opp_moves g'.
Proof.
  apply (play_from_total_rng Harrington.strategy (Harrington_match_ok g)
           (fun st own opp g1 o H => Harrington_match_step g st own opp g1 o H)
           opp_moves Harrington.init [] [] g).
  unfold Harrington_match_ok, Harrington_shape. cbn.
  refine (conj eq_refl (conj _ (conj _ (conj eq_refl (conj _ _))))).
  - refine (conj eq_refl (conj _ (conj _ (conj eq_refl _)))).
    + repeat constructor.
    + lia.
    + lia.
  - apply Qle_refl.
  - lia.
  - lia.
Qed.

(** X15. A match of a fresh Harrington never raises: whatever the
    opponent plays and whatever the random source gives, every call returns
    an action.  At the end the table of move counts still has four rows of
    two cells, the row index is below 4, and the parity streaks are two
    with a parity bit that is 0 or 1, so that no index of the next call is
    out of range either. *)
Theorem X15_Harrington_match_never_raises (opp_moves : list Action)
    (g : Rng) :
  exists own st g',
    play Harrington.strategy Harrington.init opp_moves g = Ok (own, st, g')
    /\ length own = length opp_moves
    /\ Harrington_shape st.
Proof.
  destruct (Harrington_play_ok opp_moves g)
    as [own [st [g' [E [Hlen [Hs _]]]]]].
  exists own, st, g'. auto.
Qed.

Lemma Harrington_left_Defect_step (st : Harrington.State)
    (own opp : History) (g : Rng) (a : Action) (st' : Harrington.State)
    (g' : Rng) (o : Action) :
  Harrington_left_Defect st own opp ->
  Harrington.strategy st own opp g = Ok ((a, st'), g') ->
  Harrington_left_Defect st' (own ++ [a]) (opp ++ [o]).
Proof.
  intros [Hlen [Hs [Hw Hm]]] E.
  assert (Hl : length (own ++ [a]) = length (opp ++ [o]))
    by (repeat rewrite length_app; cbn [length]; lia).
  destruct (histories_cases own opp Hlen)
    as [[-> ->]|[own0 [m [opp0 [x [-> [-> Hlen0]]]]]]].
  - cbn in E. injection E as <- <- <-.
    exact (conj Hl (conj Hs (conj Hw Hm))).
  - destruct (Harrington_step_sound st own0 opp0 m x g a st' g' Hs E)
      as [Hs' [_ [_ [Hw' [Hd _]]]]].
    refine (conj Hl (conj Hs' (conj (Hw' Hw) _))).
    intros Hm'. destruct (Hd Hm') as [[H _]|[H _]]; congruence.
Qed.

Lemma Harrington_met_Defect_step (st : Harrington.State)
    (own opp : History) (g : Rng) (a : Action) (st' : Harrington.State)
    (g' : Rng) (o : Action) :
  Harrington_met_Defect st own opp ->
  Harrington.strategy st own opp g = Ok ((a, st'), g') ->
  Harrington_met_Defect st' (own ++ [a]) (opp ++ [o]).
Proof.
  intros [Hlen [Hs Hj]] E.
  assert (Hl : length (own ++ [a]) = length (opp ++ [o]))
    by (repeat rewrite length_app; cbn [length]; lia).
  destruct (histories_cases own opp Hlen)
    as [[-> ->]|[own0 [m [opp0 [x [-> [-> Hlen0]]]]]]].
  - cbn in E. injection E as <- <- <-.
    exact (conj Hl (conj Hs Hj)).
  - destruct (Harrington_step_sound st own0 opp0 m x g a st' g' Hs E)
      as [Hs' [_ [_ [Hw' _]]]].
    refine (conj Hl (conj Hs' _)).
    destruct Hj as [Hm|Hw]; [|right; exact (Hw' Hw)].
    apply (Harrington_step_in_Defect st own0 opp0 m x g a st' g' Hs Hm E).
Qed.

(** X16. Harrington is in Defect mode at most once in a match.  Take a
    match of a fresh player and three moments of it, after the opponent's
    moves [l1], [l1 ++ l2] and [l1 ++ l2 ++ l3]: if the player is in
    Defect mode at the first moment and not at the second one, then it is
    not in Defect mode at the third one, and [was_defective] is set. *)
Theorem X16_Harrington_Defect_mode_at_most_once (l1 l2 l3 : list Action)
    (g : Rng) (own1 own2 own3 : History) (st1 st2 st3 : Harrington.State)
    (g1 g2 g3 : Rng) :
  play Harrington.strategy Harrington.init l1 g = Ok (own1, st1, g1) ->
  play Harrington.strategy Harrington.init (l1 ++ l2) g
  = Ok (own2, st2, g2) ->
  play Harrington.strategy Harrington.init (l1 ++ l2 ++ l3) g
  = Ok (own3, st3, g3) ->
  Harrington.mode st1 = Harrington.Defect ->
  Harrington.mode st2 <> Harrington.Defect ->
  Harrington.mode st3 <> Harrington.Defect
  /\ Harrington.was_defective st3 = true.
Proof.
  intros H1 H2 H3 Hm1 Hm2.
  destruct (Harrington_play_ok l1 g) as [o1 [s1 [r1 [E1 [Hlen1 [Hs1 _]]]]]].
  rewrite H1 in E1. injection E1 as <- <- <-.
  unfold play in H1, H2, H3.
  rewrite app_assoc in H3.
  rewrite play_from_app, H2 in H3.
  rewrite play_from_app, H1 in H2.
  cbn [app] in H2, H3.
  assert (Hmet : Harrington_met_Defect st2 own2 (l1 ++ l2)).
  { apply (play_from_invariant_hist Harrington.strategy Harrington_met_Defect
             (fun st own opp g a st' g' o H E =>
                Harrington_met_Defect_step st own opp g a st' g' o H E)
             l2 st1 own1 l1 g1 own2 st2 g2); [|exact H2].
    exact (conj Hlen1 (conj Hs1 (or_introl Hm1))). }
  destruct Hmet as [Hlen2 [Hs2 [Hd|Hw2]]]; [contradiction|].
  assert (Hleft : Harrington_left_Defect st3 own3 ((l1 ++ l2) ++ l3)).
  { apply (play_from_invariant_hist Harrington.strategy Harrington_left_Defect
             (fun st own opp g a st' g' o H E =>
                Harrington_left_Defect_step st own opp g a st' g' o H E)
             l3 st2 own2 (l1 ++ l2) g2 own3 st3 g3); [|exact H3].
    exact (conj Hlen2 (conj Hs2 (conj Hw2 Hm2))). }
  destruct Hleft as [_ [_ [Hw3 Hm3]]]. auto.
Qed.

(** X17. Harrington reads the random source only after round 37, and at
    most once per round: a match of [n] rounds leaves the sequence of draws
    as it was and moves the position of the next draw forward by at most
    [n - 37], so by nothing when [n <= 37].  The probability [prob] of a
    random defection is never below its initial value 0.25. *)
Theorem X17_Harrington_draws (opp_moves : list Action) (g : Rng)
    (own : History) (st : Harrington.State) (g' : Rng) :
  play Harrington.strategy Harrington.init opp_moves g = Ok (own, st, g') ->
  draws g' = draws g
  /\ (pos g <= pos g')%nat
  /\ (pos g' <= pos g + (length opp_moves - 37))%nat
  /\ (25 # 100) <= Harrington.prob st.
Proof.
  intros H.
  destruct (Harrington_play_ok opp_moves g)
    as [own2 [st2 [g2 [E [Hlen [_ [Hp [Hd [Hlo Hhi]]]]]]]]].
  rewrite H in E. injection E as <- <- <-.
  rewrite Hlen in Hhi. auto.
Qed.

Lemma Harrington_defects_step (st : Harrington.State)
    (own opp : History) (g : Rng) (a : Action) (st' : Harrington.State)
    (g' : Rng) (o : Action) :
  Harrington_defects_ok st own opp ->
  Harrington.strategy st own opp g = Ok ((a, st'), g') ->
  Harrington_defects_ok st' (own ++ [a]) (opp ++ [o]).
Proof.
  intros [Hlen [Hs [Hr Hm]]] E.
  assert (Hl : length (own ++ [a]) = length (opp ++ [o]))
    by (repeat rewrite length_app; cbn [length]; lia).
  destruct (histories_cases own opp Hlen)
    as [[-> ->]|[own0 [m [opp0 [x [-> [-> Hlen0]]]]]]].
  - cbn in E. injection E as <- <- <-.
    exact (conj Hl (conj Hs (conj Hr Hm))).
  - unfold Harrington_defects_ok.
    rewrite removelast_last in Hr. rewrite removelast_last.
    assert (Htl : defections (tl (opp0 ++ [x]))
                  = (defections (tl opp0)
                     + if (2 <? len (own0 ++ [m]) + 1)%Z && Action_eqb x D
                       then 1 else 0)%Z).
    { unfold len. rewrite length_app. cbn [length].
      destruct opp0 as [|y opp1].
      - destruct own0; [|discriminate]. reflexivity.
      - cbn [app tl]. unfold defections. rewrite count_app.
        replace (2 <? Z.of_nat (length own0 + 1) + 1)%Z with true
          by (symmetry; apply Z.ltb_lt; cbn [length] in Hlen0; lia).
        destruct x; reflexivity. }
    destruct (Harrington_step_sound st own0 opp0 m x g a st' g' Hs E)
      as [Hs' [_ [_ [_ [Hd Hrec]]]]].
    assert (Hinc : (0 <= (if (2 <? len (own0 ++ [m]) + 1)%Z && Action_eqb x D
                          then 1 else 0))%Z)
      by (destruct ((2 <? len (own0 ++ [m]) + 1)%Z && Action_eqb x D); lia).
    destruct (Harrington.mode st) eqn:Emode.
    + rewrite Htl, Hrec by discriminate.
      refine (conj Hl (conj Hs' (conj _ _))); [lia|].
      intros Hm'. destruct (Hd Hm') as [[H _]|[_ H]]; [discriminate|].
      rewrite Hrec in H by discriminate. exact H.
    + rewrite Htl, Hrec by discriminate.
      refine (conj Hl (conj Hs' (conj _ _))); [lia|].
      intros Hm'. destruct (Hd Hm') as [[H _]|[_ H]]; [discriminate|].
      rewrite Hrec in H by discriminate. exact H.
    + destruct (Harrington_step_in_Defect st own0 opp0 m x g a st' g' Hs
                  Emode E) as [Hsame _].
      rewrite Htl, Hsame.
      refine (conj Hl (conj Hs' (conj _ _))); [lia|].
      intros _. apply Hm. reflexivity.
Qed.

(** X18. Harrington's [recorded_defects] is never more than the number of
    defections among the opponent's moves from the second one to the one
    before the last, the moves that the update of the table of counts has
    been given, and a player in Defect mode has recorded at least one: the
    randomness test sends no player to Defect mode before the opponent has
    defected after round 1. *)
Theorem X18_Harrington_recorded_defects (opp_moves : list Action) (g : Rng)
    (own : History) (st : Harrington.State) (g' : Rng) :
  play Harrington.strategy Harrington.init opp_moves g = Ok (own, st, g') ->
  (0 <= Harrington.recorded_defects st
   <= defections (tl (removelast opp_moves)))%Z
  /\ (Harrington.mode st = Harrington.Defect ->
      (0 < Harrington.recorded_defects st)%Z).
Proof.
  intros H.
  assert (Hok : Harrington_defects_ok st own ([] ++ opp_moves)).
  { apply (play_from_invariant_hist Harrington.strategy Harrington_defects_ok
             (fun st own opp g a st' g' o H E =>
                Harrington_defects_step st own opp g a st' g' o H E)
             opp_moves Harrington.init [] [] g own st g'); [|exact H].
    unfold Harrington_defects_ok, Harrington_shape. cbn.
    refine (conj eq_refl (conj _ (conj _ _))).
    - refine (conj eq_refl (conj _ (conj _ (conj eq_refl _)))).
      + repeat constructor.
      + lia.
      + lia.
    - lia.
    - discriminate. }
  destruct Hok as [_ [_ [Hr Hm]]]. split; [exact Hr|exact Hm].
Qed.

Lemma X16_witness_in_and_out :
  exists own1 st1 g1 own2 st2 g2 own3 st3 g3,
    play Harrington.strategy Harrington.init
      (Harrington_random_looking ++ [D]) zero_rng = Ok (own1, st1, g1)
    /\ play Harrington.strategy Harrington.init
         ((Harrington_random_looking ++ [D]) ++ repeat D 11) zero_rng
       = Ok (own2, st2, g2)
    /\ play Harrington.strategy Harrington.init
         ((Harrington_random_looking ++ [D]) ++ repeat D 11 ++ [C; D; D; C])
         zero_rng
       = Ok (own3, st3, g3)
    /\ Harrington.mode st1 = Harrington.Defect
    /\ Harrington.mode st2 <> Harrington.Defect
    /\ Harrington.mode st3 <> Harrington.Defect
    /\ Harrington.was_defective st3 = true.
Proof.
  do 9 eexists.
  split; [vm_compute; reflexivity|].
  split; [vm_compute; reflexivity|].
  split; [vm_compute; reflexivity|].
  split; [reflexivity|].
  split; [discriminate|].
  eapply (X16_Harrington_Defect_mode_at_most_once
            (Harrington_random_looking ++ [D]) (repeat D 11) [C; D; D; C]
            zero_rng).
  - vm_compute. reflexivity.
  - vm_compute. reflexivity.
  - vm_compute. reflexivity.
  - reflexivity.
  - discriminate.
Defined.

Lemma X17_witness_forty_rounds :
  exists own st g',
    play Harrington.strategy Harrington.init (repeat C 40) zero_rng
    = Ok (own, st, g')
    /\ draws g' = draws zero_rng
    /\ (pos zero_rng <= pos g')%nat
    /\ (pos g' <= pos zero_rng + (length (repeat C 40) - 37))%nat
    /\ (25 # 100) <= Harrington.prob st.
Proof.
  do 3 eexists.
  split; [vm_compute; reflexivity|].
  eapply (X17_Harrington_draws (repeat C 40) zero_rng).
  vm_compute. reflexivity.
Defined.

Lemma X18_witness_in_Defect_mode :
  exists own st g',
    play Harrington.strategy Harrington.init
      (Harrington_random_looking ++ [D]) zero_rng = Ok (own, st, g')
    /\ (0 <= Harrington.recorded_defects st
        <= defections (tl (removelast (Harrington_random_looking ++ [D]))))%Z
    /\ (Harrington.mode st = Harrington.Defect ->
        (0 < Harrington.recorded_defects st)%Z).
Proof.
  do 3 eexists.
  split; [vm_compute; reflexivity|].
  eapply (X18_Harrington_recorded_defects
            (Harrington_random_looking ++ [D]) zero_rng).
  vm_compute. reflexivity.
Defined.
